(** * Request pipeline of the socket server: services, interceptors,
      the two servers' [processRequest], and the HFT hand-off queue.

    The development embeds [src/services.cpp], [src/interceptors.cpp],
    [src/server.cpp], the HFT server and [include/hft_server.hpp]
    ([LockFreeQueue]) as Rocq functions and states the properties of the
    design document about them. *)

From Stdlib Require Import ZArith NArith Lia Ascii String List Permutation Sorted.
From stdpp Require Import base list gmap strings pretty.

Local Open Scope string_scope.

(** ** std::string *)

Module Str.

(** [s.compare(0, p.size(), p) == 0]: [p] is a prefix of [s]. *)
Fixpoint starts_with (p s : string) : bool :=
  match p, s with
  | EmptyString, _ => true
  | String a p', String b s' => if Ascii.eqb a b then starts_with p' s' else false
  | String _ _, EmptyString => false
  end.

(** [s.find(needle)]: the position of the first occurrence, [None] for
    [std::string::npos]. *)
Fixpoint find (needle s : string) : option nat :=
  if starts_with needle s then Some 0
  else match s with
       | EmptyString => None
       | String _ s' => option_map S (find needle s')
       end.

(** The suffix of [s] from position [pos], when [pos <= s.size()]. *)
Fixpoint drop (pos : nat) (s : string) : option string :=
  match pos, s with
  | 0, _ => Some s
  | S _, EmptyString => None
  | S p, String _ s' => drop p s'
  end.

Fixpoint take (n : nat) (s : string) : string :=
  match n, s with
  | 0, _ => EmptyString
  | S _, EmptyString => EmptyString
  | S m, String c s' => String c (take m s')
  end.

(** [s.find(c, pos)]; a start beyond the end finds nothing. *)
Definition find_char_from (c : ascii) (pos : nat) (s : string) : option nat :=
  match drop pos s with
  | Some rest => option_map (Nat.add pos) (find (String c EmptyString) rest)
  | None => None
  end.

Definition empty (s : string) : bool :=
  match s with EmptyString => true | _ => false end.

End Str.

(** ** Exceptions

    The exceptions the request path can raise:
    [std::out_of_range] from [std::string::substr] and the
    [std::runtime_error]s of the calculator. *)

Inductive exn : Type :=
| out_of_range (what : string)
| runtime_error (what : string).

Definition what (e : exn) : string :=
  match e with out_of_range w => w | runtime_error w => w end.

(** The outcome of a call: it either returns or throws. *)
Inductive outcome (A : Type) : Type :=
| Ret (a : A)
| Throw (e : exn).
Arguments Ret {A} a.
Arguments Throw {A} e.

#[global] Instance outcome_ret : MRet outcome := fun A a => Ret a.
#[global] Instance outcome_bind : MBind outcome := fun A B k r =>
  match r with
  | Ret a => k a
  | Throw e => Throw e
  end.

(** [s.substr(pos)]: throws [std::out_of_range] when [pos > s.size()]. *)
Definition substr (s : string) (pos : nat) : outcome string :=
  match Str.drop pos s with
  | Some t => Ret t
  | None => Throw (out_of_range "basic_string::substr")
  end.

(** [s.substr(pos, n)]. *)
Definition substr_n (s : string) (pos n : nat) : outcome string :=
  t ← substr s pos; Ret (Str.take n t).

(** ** The environment of a request

    What the request path reads and writes outside the server objects:
    [std::chrono::steady_clock] and the file system.  [w_clock n] is the
    value of the [n]-th call of [steady_clock::now()], in clock ticks;
    [w_files] maps a path that can be opened for reading to its content;
    [w_writable] tells whether [std::ofstream] can open a path. *)

Record World : Type := mkWorld {
  w_clock : nat -> Z;
  w_reads : nat;
  w_files : gmap string string;
  w_writable : string -> bool
}.

(** [std::chrono::steady_clock::now()]. *)
Definition now (w : World) : Z * World :=
  (w_clock w (w_reads w),
   mkWorld (w_clock w) (S (w_reads w)) (w_files w) (w_writable w)).

Definition set_files (w : World) (fs : gmap string string) : World :=
  mkWorld (w_clock w) (w_reads w) fs (w_writable w).

(** [steady_clock::period] is [std::nano]: ticks per second. *)
Definition ticks_per_second : Z := 1000000000.

(** [duration_cast<std::chrono::seconds>(d).count()]: truncation toward zero. *)
Definition duration_cast_seconds (d : Z) : Z := Z.quot d ticks_per_second.

(** ** Numbers of the calculator

    The calculator computes on [double]s that it reads from a
    [std::istringstream] and prints with [std::to_string].  Floating-point
    arithmetic and the numeric conversions of the stream library are taken
    as an interface; the control flow of the calculator is embedded over
    it.

    [num_get s] is the extraction of a [double] at the front of [s] (white
    space already skipped, [s] not empty): the value stored in the target,
    whether the extraction succeeded, and the unread rest, which is a
    suffix of [s].  [double_indet] is the value of the uninitialised local
    [double result;]. *)

Class Doubles : Type := {
  double : Type;
  double_indet : double;
  double_neg : double -> double;
  double_is_zero : double -> bool;
  num_get : string -> double * bool * string;
  num_get_rest : forall s, String.length (num_get s).2 <= String.length s;
  to_string : double -> string
}.

(** ** Interfaces ([include/interfaces.hpp]) *)

(** [IService]: a call of [processRequest] returns a string or throws, and
    may change the object and the environment. *)
Class IService (Sv : Type) : Type := {
  processRequest : Sv -> string -> World -> outcome string * Sv * World;
  initialize : Sv -> Sv;
  cleanup : Sv -> Sv
}.

(** [IInterceptor]: [preProcess] takes the request by reference and may
    rewrite it; [postProcess] takes the response by reference. *)
Class IInterceptor (I : Type) : Type := {
  preProcess : I -> string -> World -> bool * string * I * World;
  postProcess : I -> string -> string -> World -> string * I * World;
  getPriority : I -> Z
}.

Arguments processRequest : simpl never.
Arguments preProcess : simpl never.
Arguments postProcess : simpl never.

(** ** Services ([src/services.cpp]) *)

(** [std::isspace] in the classic locale. *)
Definition is_space (c : ascii) : bool :=
  let n := nat_of_ascii c in
  Nat.eqb n 32 || (Nat.leb 9 n && Nat.leb n 13).

Fixpoint skip_ws (s : string) : string :=
  match s with
  | EmptyString => EmptyString
  | String c s' => if is_space c then skip_ws s' else s
  end.

(** [std::istringstream]: the unread characters and [failbit]. *)
Record istringstream : Type := mkStream {
  is_buf : string;
  is_fail : bool
}.

(** [iss >> c] for a [char]: nothing happens on a failed stream; white
    space is skipped; at the end of the input the stream fails and [c]
    keeps its value. *)
Definition extract_char (iss : istringstream) : istringstream * option ascii :=
  if is_fail iss then (iss, None)
  else match skip_ws (is_buf iss) with
       | EmptyString => (mkStream EmptyString true, None)
       | String c rest => (mkStream rest false, Some c)
       end.

Section Calculator.
Context `{Doubles}.

(** [iss >> d] for a [double] whose current value is [d]. *)
Definition extract_double (iss : istringstream) (d : double) : istringstream * double :=
  if is_fail iss then (iss, d)
  else match skip_ws (is_buf iss) with
       | EmptyString => (mkStream EmptyString true, d)
       | String c rest =>
           let '(v, ok, rest') := num_get (String c rest) in
           (mkStream rest' (negb ok), v)
       end.

(** The [while (iss >> op >> result)] loop of
    [CalculatorService::evaluateExpression].  Every iteration that
    enters the body consumes the operator character, so the length of
    the input bounds the number of iterations ([fuel]). *)
Fixpoint evaluate_loop (fuel : nat) (iss : istringstream) (result : double)
  : outcome double :=
  match fuel with
  | 0 => Ret result
  | S fuel' =>
      let '(iss1, op) := extract_char iss in
      let '(iss2, result') := extract_double iss1 result in
      if is_fail iss2 then Ret result'
      else match op with
           | None => Ret result'
           | Some c =>
               if Ascii.eqb c "+" then evaluate_loop fuel' iss2 result'
               else if Ascii.eqb c "-" then evaluate_loop fuel' iss2 (double_neg result')
               else if Ascii.eqb c "*" then evaluate_loop fuel' iss2 result'
               else if Ascii.eqb c "/" then
                 if double_is_zero result'
                 then Throw (runtime_error "Division by zero")
                 else evaluate_loop fuel' iss2 result'
               else Throw (runtime_error ("Unknown operator: " ++ String c EmptyString))
           end
  end.

Definition evaluateExpression (expression : string) : outcome double :=
  let '(iss, r) := extract_double (mkStream expression false) double_indet in
  evaluate_loop (S (String.length expression)) iss r.
End Calculator.

Definition EchoService_processRequest (request : string) : outcome string :=
  match Str.find "ECHO" request with
  | Some echoPos =>
      rest ← substr request (echoPos + 5);
      Ret ("ECHO: " ++ rest)
  | None => Ret ""
  end.

(** The [substr] call stands before the [try] block; only what
    [evaluateExpression] throws is caught. *)
Definition CalculatorService_processRequest `{Doubles} (request : string) : outcome string :=
  match Str.find "CAL" request with
  | Some calPos =>
      expression ← substr request (calPos + 4);
      match evaluateExpression expression with
      | Ret result => Ret ("RESULT: " ++ to_string result)
      | Throw e => Ret ("ERROR: " ++ what e)
      end
  | None => Ret ""
  end.

Definition readFile (filename : string) (w : World) : string :=
  match w_files w !! filename with
  | Some content => content
  | None => "ERROR: Could not open file " ++ filename
  end.

Definition writeFile (filename content : string) (w : World) : bool * World :=
  if w_writable w filename
  then (true, set_files w (<[filename := content]> (w_files w)))
  else (false, w).

Definition FileService_processRequest (request : string) (w : World)
  : outcome string * World :=
  match Str.find "READ" request with
  | Some readPos =>
      (filename ← substr request (readPos + 5);
       Ret ("FILE_CONTENT: " ++ readFile filename w), w)
  | None =>
      match Str.find "WRITE" request with
      | Some writePos =>
          match Str.find_char_from " " (writePos + 6) request with
          | Some spacePos =>
              match substr_n request (writePos + 6) (spacePos - (writePos + 6)),
                    substr request (spacePos + 1) with
              | Ret filename, Ret content =>
                  let '(ok, w') := writeFile filename content w in
                  if ok then (Ret "SUCCESS: File written successfully", w')
                  else (Ret "ERROR: Failed to write file", w')
              | Throw e, _ => (Throw e, w)
              | _, Throw e => (Throw e, w)
              end
          | None => (Ret "ERROR: Invalid write command format", w)
          end
      | None => (Ret "", w)
      end
  end.

(** The services of the repository.  [initialize] and [cleanup] only
    print; the [variables] map of the calculator is never used. *)
Inductive Service : Type :=
| EchoService
| CalculatorService
| FileService.

#[global] Instance Service_IService `{Doubles} : IService Service := {
  processRequest s request w :=
    match s with
    | EchoService => (EchoService_processRequest request, s, w)
    | CalculatorService => (CalculatorService_processRequest request, s, w)
    | FileService =>
        let '(r, w') := FileService_processRequest request w in (r, s, w')
    end;
  initialize s := s;
  cleanup s := s
}.

(** ** Interceptors ([src/interceptors.cpp], [include/interceptors.hpp]) *)

(** [int] arithmetic: the value wrapped into 32 bits, two's complement. *)
Definition int_min : Z := - 2 ^ 31.
Definition int_max : Z := 2 ^ 31 - 1.
Definition int_wrap (z : Z) : Z := (z + 2 ^ 31) mod 2 ^ 32 - 2 ^ 31.

(** The longest prefix without white space: what [[^\s]+] consumes. *)
Fixpoint take_nonspace (s : string) : string :=
  match s with
  | EmptyString => EmptyString
  | String c s' => if is_space c then EmptyString else String c (take_nonspace s')
  end.

Fixpoint strip_prefix (p s : string) : option string :=
  match p, s with
  | EmptyString, _ => Some s
  | String a p', String b s' => if Ascii.eqb a b then strip_prefix p' s' else None
  | String _ _, EmptyString => None
  end.

(** [std::regex_search(request, match, std::regex("TOKEN:([^\\s]+)"))]
    followed by [match[1]]: the leftmost position where [TOKEN:] is
    followed by at least one character that is not white space, and the
    longest run of such characters there. *)
Fixpoint regex_search_token (request : string) : option string :=
  let here :=
    match strip_prefix "TOKEN:" request with
    | Some rest =>
        match take_nonspace rest with
        | EmptyString => None
        | token => Some token
        end
    | None => None
    end in
  match here with
  | Some token => Some token
  | None =>
      match request with
      | EmptyString => None
      | String _ request' => regex_search_token request'
      end
  end.

Definition AuthenticationInterceptor_preProcess (validToken request : string) : bool :=
  match regex_search_token request with
  | Some token => if String.eqb token validToken then true else false
  | None => false
  end.

(** The state of a [RateLimitingInterceptor]. *)
Record RateLimiter : Type := mkRateLimiter {
  maxRequests : Z;
  currentRequests : Z;
  lastReset : Z
}.

(** [RateLimitingInterceptor::preProcess], given the value [now_] that
    [steady_clock::now()] returned. *)
Definition RateLimitingInterceptor_preProcess (now_ : Z) (self : RateLimiter)
  : bool * RateLimiter :=
  let timeSinceReset := duration_cast_seconds (now_ - lastReset self) in
  let self1 :=
    if (60 <=? timeSinceReset)%Z
    then mkRateLimiter (maxRequests self) 0 now_
    else self in
  if (maxRequests self1 <=? currentRequests self1)%Z
  then (false, self1)
  else (true, mkRateLimiter (maxRequests self1)
                (int_wrap (currentRequests self1 + 1)) (lastReset self1)).

Definition validCommands : list string := ["ECHO"; "CAL"; "READ"; "WRITE"].

Fixpoint hasValidCommand (cmds : list string) (request : string) : bool :=
  match cmds with
  | [] => false
  | cmd :: cmds' =>
      match Str.find cmd request with
      | Some _ => true
      | None => hasValidCommand cmds' request
      end
  end.

Definition ValidationInterceptor_preProcess (request : string) : bool :=
  if Str.empty request then false
  else if Nat.ltb 1000 (String.length request) then false
  else hasValidCommand validCommands request.

Definition ValidationInterceptor_postProcess (response : string) : string :=
  if Str.empty response then "ERROR: Empty response" else response.

(** The interceptors of the repository with their member variables. *)
Inductive Interceptor : Type :=
| LoggingInterceptor (startTime : Z)
| AuthenticationInterceptor (validToken : string)
| RateLimitingInterceptor (self : RateLimiter)
| ValidationInterceptor.

(** The constructors.  A default [time_point] is the clock's epoch;
    [RateLimitingInterceptor(max)] reads the clock. *)
Definition new_LoggingInterceptor : Interceptor := LoggingInterceptor 0.

Definition new_RateLimitingInterceptor (max : Z) (w : World) : Interceptor * World :=
  let '(t, w') := now w in
  (RateLimitingInterceptor (mkRateLimiter max 0 t), w').

#[global] Instance Interceptor_IInterceptor : IInterceptor Interceptor := {
  preProcess i request w :=
    match i with
    | LoggingInterceptor _ =>
        let '(t, w') := now w in (true, request, LoggingInterceptor t, w')
    | AuthenticationInterceptor validToken =>
        (AuthenticationInterceptor_preProcess validToken request, request, i, w)
    | RateLimitingInterceptor self =>
        let '(t, w') := now w in
        let '(ok, self') := RateLimitingInterceptor_preProcess t self in
        (ok, request, RateLimitingInterceptor self', w')
    | ValidationInterceptor =>
        (ValidationInterceptor_preProcess request, request, i, w)
    end;
  postProcess i request response w :=
    match i with
    | LoggingInterceptor _ => let '(_, w') := now w in (response, i, w')
    | AuthenticationInterceptor _ => (response, i, w)
    | RateLimitingInterceptor _ => (response, i, w)
    | ValidationInterceptor => (ValidationInterceptor_postProcess response, i, w)
    end;
  getPriority i :=
    match i with
    | LoggingInterceptor _ => 1
    | AuthenticationInterceptor _ => 0
    | RateLimitingInterceptor _ => 2
    | ValidationInterceptor => 3
    end%Z
}.

(** ** [std::sort]

    The library function is taken by its contract: called with the
    comparator [a->getPriority() < b->getPriority()] it leaves a
    permutation of the range in which no element has a smaller key than
    an earlier one.  The contract says nothing about the relative order
    of elements with equal keys ([std::sort] is not [std::stable_sort]). *)

Class StdSort : Type := {
  std_sort : forall {A : Type}, (A -> A -> bool) -> list A -> list A;
  std_sort_perm : forall (A : Type) (key : A -> Z) (l : list A),
    Permutation l (std_sort (fun a b => (key a <? key b)%Z) l);
  std_sort_sorted : forall (A : Type) (key : A -> Z) (l : list A),
    StronglySorted (fun a b => (key a <= key b)%Z)
                   (std_sort (fun a b => (key a <? key b)%Z) l)
}.

(** ** The request pipeline

    [SocketServer::processRequest] and [HFTServer::processRequest] run
    the same three loops.  Every call of an interceptor or a service is
    recorded: [EvPre i ok] is the call of [preProcess] on
    [interceptors[i]] with its return value, [EvSvc j request r] the
    call of [processRequest] on [services[j]] with its argument and
    outcome, [EvPost i] the call of [postProcess] on [interceptors[i]]. *)

Inductive Event : Type :=
| EvPre (i : nat) (ok : bool)
| EvSvc (j : nat) (request : string) (r : outcome string)
| EvPost (i : nat).

Definition REJECTED : string := "ERROR: Request rejected by interceptor".
Definition NO_SERVICE : string := "ERROR: No service available to handle request".

(** What a call of [processRequest] on a server leaves behind. *)
Record Run (I Sv : Type) : Type := mkRun {
  response : outcome string;
  run_interceptors : list I;
  run_services : list Sv;
  run_world : World;
  trace : list Event
}.
Arguments mkRun {I Sv}.
Arguments response {I Sv}.
Arguments run_interceptors {I Sv}.
Arguments run_services {I Sv}.
Arguments run_world {I Sv}.
Arguments trace {I Sv}.

Section Pipeline.
Context {I Sv : Type} `{IInterceptor I} `{IService Sv}.

(** [for (auto& interceptor : interceptors)
       if (!interceptor->preProcess(processedRequest)) return ...;]
    from index [i] on.  The boolean tells whether the loop ran to its
    end. *)
Fixpoint pre_pass (i : nat) (its : list I) (processedRequest : string) (w : World)
  : bool * string * list I * World * list Event :=
  match its with
  | [] => (true, processedRequest, [], w, [])
  | it :: rest =>
      let '(ok, request', it', w') := preProcess it processedRequest w in
      if ok then
        let '(b, request'', rest', w'', ev) := pre_pass (S i) rest request' w' in
        (b, request'', it' :: rest', w'', EvPre i true :: ev)
      else (false, request', it' :: rest, w', [EvPre i false])
  end.

(** [for (auto& service : services) {
       response = service->processRequest(processedRequest);
       if (!response.empty()) break; }]
    from index [j] on, [response] being the current value of the
    variable. *)
Fixpoint dispatch (j : nat) (svcs : list Sv) (processedRequest : string) (w : World)
    (response : string)
  : outcome string * list Sv * World * list Event :=
  match svcs with
  | [] => (Ret response, [], w, [])
  | service :: rest =>
      let '(r, service', w') := processRequest service processedRequest w in
      match r with
      | Throw e => (Throw e, service' :: rest, w', [EvSvc j processedRequest r])
      | Ret response' =>
          if Str.empty response' then
            let '(r', rest', w'', ev) := dispatch (S j) rest processedRequest w' response' in
            (r', service' :: rest', w'', EvSvc j processedRequest r :: ev)
          else (Ret response', service' :: rest, w', [EvSvc j processedRequest r])
      end
  end.

(** [for (auto& interceptor : interceptors)
       interceptor->postProcess(processedRequest, response);] *)
Fixpoint post_pass (i : nat) (its : list I) (processedRequest response : string)
    (w : World)
  : string * list I * World * list Event :=
  match its with
  | [] => (response, [], w, [])
  | it :: rest =>
      let '(response', it', w') := postProcess it processedRequest response w in
      let '(response'', rest', w'', ev) := post_pass (S i) rest processedRequest response' w' in
      (response'', it' :: rest', w'', EvPost i :: ev)
  end.

(** The service loop followed by
    [if (response.empty()) response = "ERROR: No service available ...";] *)
Definition find_service (svcs : list Sv) (processedRequest : string) (w : World)
  : outcome string * list Sv * World * list Event :=
  let '(r, svcs', w', ev) := dispatch 0 svcs processedRequest w EmptyString in
  match r with
  | Throw e => (Throw e, svcs', w', ev)
  | Ret response =>
      (Ret (if Str.empty response then NO_SERVICE else response), svcs', w', ev)
  end.

(** The body shared by the two servers, on the interceptor vector as
    it stands when the first loop starts.  An exception of a service
    leaves [processRequest]: nothing on the way catches it. *)
Definition pipeline (its : list I) (svcs : list Sv) (request : string) (w : World)
  : Run I Sv :=
  let '(ok, processedRequest, its1, w1, ev1) := pre_pass 0 its request w in
  if ok then
    let '(r, svcs2, w2, ev2) := find_service svcs processedRequest w1 in
    match r with
    | Throw e => mkRun (Throw e) its1 svcs2 w2 (ev1 ++ ev2)
    | Ret response =>
        let '(response', its3, w3, ev3) :=
          post_pass 0 its1 processedRequest response w2 in
        mkRun (Ret response') its3 svcs2 w3 (ev1 ++ ev2 ++ ev3)
    end
  else mkRun (Ret REJECTED) its1 svcs w1 ev1.

(** The two vectors of a server. *)
Record Server : Type := mkServer {
  interceptors : list I;
  services : list Sv
}.
End Pipeline.
Arguments Server : clear implicits.

(** ** [SocketServer] ([src/server.cpp]) *)

Module SocketServer.
Section Defs.
Context {I Sv : Type} `{IInterceptor I} `{IService Sv} `{StdSort}.

Definition new : Server I Sv := mkServer [] [].

Definition addService (srv : Server I Sv) (service : Sv) : Server I Sv :=
  mkServer (interceptors srv) (services srv ++ [initialize service]).

(** Appends; the vector is sorted by [processRequest]. *)
Definition addInterceptor (srv : Server I Sv) (interceptor : I) : Server I Sv :=
  mkServer (interceptors srv ++ [interceptor]) (services srv).

Definition processRequest (srv : Server I Sv) (request : string) (w : World)
  : Run I Sv :=
  let sorted := std_sort (fun a b => (getPriority a <? getPriority b)%Z)
                         (interceptors srv) in
  pipeline sorted (services srv) request w.
End Defs.
End SocketServer.

(** ** [HFTServer] *)

Module HFTServer.
Section Defs.
Context {I Sv : Type} `{IInterceptor I} `{IService Sv} `{StdSort}.

Definition new : Server I Sv := mkServer [] [].

Definition addService (srv : Server I Sv) (service : Sv) : Server I Sv :=
  mkServer (interceptors srv) (services srv ++ [initialize service]).

(** Appends, then sorts the vector. *)
Definition addInterceptor (srv : Server I Sv) (interceptor : I) : Server I Sv :=
  mkServer (std_sort (fun a b => (getPriority a <? getPriority b)%Z)
                     (interceptors srv ++ [interceptor]))
           (services srv).

Definition processRequest (srv : Server I Sv) (request : string) (w : World)
  : Run I Sv :=
  pipeline (interceptors srv) (services srv) request w.
End Defs.
End HFTServer.

(** The server a run leaves behind. *)
Definition server_of {I Sv : Type} (r : Run I Sv) : Server I Sv :=
  mkServer (run_interceptors r) (run_services r).

(** ** [LockFreeQueue] ([include/hft_server.hpp])

    A [Node*] is the index of the node in [pool]: the constructor
    allocates every node there and no other node exists.  [size_t] is 64
    bits wide. *)

Module LockFreeQueue.
Section Defs.
Context {T : Type} `{Inhabited T}.

Record Node : Type := mkNode {
  data : T;
  next : option nat
}.

#[global] Instance Node_inhabited : Inhabited Node := populate (mkNode inhabitant None).

Record Queue : Type := mkQueue {
  head : nat;
  tail : nat;
  pool : list Node;
  pool_index : N
}.

(** [LockFreeQueue(pool_size)]: [pool_size] default nodes,
    [head = tail = pool[0]].  The constructor needs [pool_size > 0]. *)
Definition new (pool_size : nat) : Queue :=
  mkQueue 0 0 (replicate pool_size (mkNode inhabitant None)) 0.

(** [get_node]: [pool_index.fetch_add(1) % pool.size()]; the node
    pointer it returns is never null. *)
Definition get_node (q : Queue) : option nat * Queue :=
  let index := N.to_nat (pool_index q mod N.of_nat (length (pool q)))%N in
  (Some index,
   mkQueue (head q) (tail q) (pool q) ((pool_index q + 1) mod 2 ^ 64)%N).

Definition set_next (n : nat) (nx : option nat) (p : list Node) : list Node :=
  alter (fun nd => mkNode (data nd) nx) n p.

Definition enqueue (q : Queue) (item : T) : bool * Queue :=
  let '(node, q1) := get_node q in
  match node with
  | None => (false, q1)
  | Some n =>
      (* node->data = item; node->next = nullptr; *)
      let pool1 := <[n := mkNode item None]> (pool q1) in
      (* Node* old_tail = tail.exchange(node); old_tail->next = node; *)
      let old_tail := tail q1 in
      let pool2 := set_next old_tail (Some n) pool1 in
      (true, mkQueue (head q1) n pool2 (pool_index q1))
  end.

Definition dequeue (q : Queue) : option T * Queue :=
  let old_head := head q in
  match next (pool q !!! old_head) with
  | None => (None, q)
  | Some new_head =>
      let item := data (pool q !!! new_head) in
      (Some item, mkQueue new_head (tail q) (pool q) (pool_index q))
  end.

(** *** Concurrent dequeues

    A worker inside [dequeue] performs four memory accesses in program
    order; [DeqState] is its position with the locals it holds.  Each
    step is one access to the shared queue. *)
Inductive DeqState : Type :=
| DqStart
| DqHead (old_head : nat)
| DqNext (new_head : nat)
| DqItem (new_head : nat) (item : T)
| DqDone (r : option T).

Definition dequeue_step (q : Queue) (st : DeqState) : Queue * DeqState :=
  match st with
  | DqStart => (q, DqHead (head q))
  | DqHead old_head =>
      match next (pool q !!! old_head) with
      | None => (q, DqDone None)
      | Some new_head => (q, DqNext new_head)
      end
  | DqNext new_head => (q, DqItem new_head (data (pool q !!! new_head)))
  | DqItem new_head item =>
      (mkQueue new_head (tail q) (pool q) (pool_index q), DqDone (Some item))
  | DqDone r => (q, DqDone r)
  end.

(** Workers take steps in the order of a schedule: a list of thread
    numbers. *)
Fixpoint run_schedule (sched : list nat) (q : Queue) (workers : list DeqState)
  : Queue * list DeqState :=
  match sched with
  | [] => (q, workers)
  | t :: sched' =>
      match workers !! t with
      | Some st =>
          let '(q', st') := dequeue_step q st in
          run_schedule sched' q' (<[t := st']> workers)
      | None => run_schedule sched' q workers
      end
  end.

(** The items a sequence of enqueues and dequeues by one thread
    delivers. *)
Inductive Op : Type := Enq (item : T) | Deq.

Fixpoint run_ops (ops : list Op) (q : Queue) : list (option T) * list bool * Queue :=
  match ops with
  | [] => ([], [], q)
  | Enq item :: ops' =>
      let '(ok, q') := enqueue q item in
      let '(ds, es, q'') := run_ops ops' q' in
      (ds, ok :: es, q'')
  | Deq :: ops' =>
      let '(d, q') := dequeue q in
      let '(ds, es, q'') := run_ops ops' q' in
      (d :: ds, es, q'')
  end.
End Defs.
Arguments Node : clear implicits.
Arguments Queue : clear implicits.
Arguments DeqState : clear implicits.
Arguments Op : clear implicits.
End LockFreeQueue.

(** The work items of the HFT server: [std::pair<int, std::string>], the
    client socket and the request.  A default pair is [(0, "")]. *)
Record WorkItem : Type := make_pair {
  first : Z;
  second : string
}.

#[global] Instance WorkItem_inhabited : Inhabited WorkItem := populate (make_pair 0 "").

(** [HFTServer::handleClient] on [bytesRead > 0]: the request goes into
    the queue and the return value of [enqueue] is dropped. *)
Definition handleClient_received (requestQueue : LockFreeQueue.Queue WorkItem)
    (clientSocket : Z) (request : string) : LockFreeQueue.Queue WorkItem :=
  (LockFreeQueue.enqueue requestQueue (make_pair clientSocket request)).2.

(** ** Two implementations of the sorting contract

    Insertion of each element in front of the first element that is not
    smaller.  Inserting from the right end of the range keeps elements
    with equal keys in their order; inserting from the left end reverses
    them.  Both meet the contract of [std::sort]. *)

Fixpoint insert_sorted {A : Type} (comp : A -> A -> bool) (x : A) (l : list A) : list A :=
  match l with
  | [] => [x]
  | y :: l' => if comp y x then y :: insert_sorted comp x l' else x :: y :: l'
  end.

Definition insertion_sort {A : Type} (comp : A -> A -> bool) (l : list A) : list A :=
  foldr (insert_sorted comp) [] l.


Lemma insert_sorted_perm {A : Type} (comp : A -> A -> bool) (x : A) (l : list A) :
  Permutation (x :: l) (insert_sorted comp x l).
Proof.
  induction l as [|y l IH]; simpl; [reflexivity|].
  destruct (comp y x); [|reflexivity].
  rewrite <- IH. apply perm_swap.
Qed.

Lemma insertion_sort_perm {A : Type} (comp : A -> A -> bool) (l : list A) :
  Permutation l (insertion_sort comp l).
Proof.
  induction l as [|x l IH]; simpl; [reflexivity|].
  rewrite <- insert_sorted_perm. by constructor.
Qed.

Lemma insert_sorted_sorted {A : Type} (key : A -> Z) (x : A) (l : list A) :
  StronglySorted (fun a b => (key a <= key b)%Z) l ->
  StronglySorted (fun a b => (key a <= key b)%Z)
                 (insert_sorted (fun a b => (key a <? key b)%Z) x l).
Proof.
  induction 1 as [|y l Hs IH Hy]; simpl.
  - repeat constructor.
  - destruct (Z.ltb_spec (key y) (key x)) as [Hlt|Hge].
    + constructor; [exact IH|].
      rewrite <- insert_sorted_perm. constructor; [lia|exact Hy].
    + constructor; [by constructor|].
      constructor; [exact Hge|].
      eapply Forall_impl; [exact Hy|]. simpl. intros; lia.
Qed.

Lemma insertion_sort_sorted {A : Type} (key : A -> Z) (l : list A) :
  StronglySorted (fun a b => (key a <= key b)%Z)
                 (insertion_sort (fun a b => (key a <? key b)%Z) l).
Proof.
  induction l as [|x l IH]; simpl; [constructor|].
  by apply insert_sorted_sorted.
Qed.

#[global] Program Instance insertion_StdSort : StdSort := {
  std_sort A comp l := insertion_sort comp l
}.
Next Obligation. intros. apply insertion_sort_perm. Qed.
Next Obligation. intros. apply insertion_sort_sorted. Qed.


(** ** An implementation of the numbers interface

    The doubles that are whole numbers, as a sign and a magnitude (so
    that [-0.0] differs from [0.0] as it does for [double]), read from a
    decimal numeral without fraction or exponent and printed the way
    [std::to_string] prints them, with six decimals.  It agrees with the
    platform on expressions written with whole numbers below [2^53]. *)

Definition digit_of (c : ascii) : option N :=
  let n := nat_of_ascii c in
  if Nat.leb 48 n && Nat.leb n 57 then Some (N.of_nat (n - 48)) else None.

Fixpoint read_digits (acc : N) (s : string) : N * string :=
  match s with
  | EmptyString => (acc, EmptyString)
  | String c s' =>
      match digit_of c with
      | Some d => read_digits (acc * 10 + d) s'
      | None => (acc, s)
      end
  end.

Definition starts_with_digit (s : string) : bool :=
  match s with
  | String c _ => match digit_of c with Some _ => true | None => false end
  | EmptyString => false
  end.

Definition whole_num_get (s : string) : (bool * N) * bool * string :=
  let '(sign, body) :=
    match s with
    | String c s' =>
        if Ascii.eqb c "-" then (true, s')
        else if Ascii.eqb c "+" then (false, s')
        else (false, s)
    | EmptyString => (false, s)
    end in
  if starts_with_digit body
  then let '(n, rest) := read_digits 0 body in ((sign, n), true, rest)
  else ((false, 0%N), false, body).

Definition whole_to_string (d : bool * N) : string :=
  (if d.1 then "-" else "") ++ pretty d.2 ++ ".000000".

Lemma read_digits_rest (acc : N) (s : string) :
  String.length (read_digits acc s).2 <= String.length s.
Proof.
  revert acc. induction s as [|c s IH]; intros acc; simpl; [lia|].
  destruct (digit_of c); simpl; [|lia].
  specialize (IH (acc * 10 + n)%N). lia.
Qed.

Lemma whole_num_get_rest (s : string) :
  String.length (whole_num_get s).2 <= String.length s.
Proof.
  unfold whole_num_get.
  assert (Hb : forall sign body, String.length body <= String.length s ->
            String.length
              (if starts_with_digit body
               then let '(n, rest) := read_digits 0 body in ((sign, n), true, rest)
               else ((false, 0%N), false, body) : (bool * N) * bool * string).2
            <= String.length s).
  { intros sign body Hle. destruct (starts_with_digit body); simpl; [|lia].
    pose proof (read_digits_rest 0 body) as Hr.
    destruct (read_digits 0 body) as [n rest]; simpl in *. lia. }
  destruct s as [|c s']; [apply Hb; simpl; lia|].
  destruct (Ascii.eqb c "-"); [apply Hb; simpl; lia|].
  destruct (Ascii.eqb c "+"); apply Hb; simpl; lia.
Qed.

#[global] Instance whole_Doubles : Doubles := {
  double := bool * N;
  double_indet := (false, 0%N);
  double_neg d := (negb d.1, d.2);
  double_is_zero d := N.eqb d.2 0;
  num_get := whole_num_get;
  num_get_rest := whole_num_get_rest;
  to_string := whole_to_string
}.

(** ** The two programs

    [server_main] and the HFT server's [main] register the same three
    services; the first registers four interceptors, the second only
    authentication.  The token is ["secret123"] and the limit [10000] in
    the sources. *)

Definition registered_services : list Service :=
  [EchoService; CalculatorService; FileService].

Definition socket_server `{StdSort} (token : string) (limit : Z) (w : World)
  : Server Interceptor Service * World :=
  let srv := foldl SocketServer.addService SocketServer.new registered_services in
  let srv := SocketServer.addInterceptor srv new_LoggingInterceptor in
  let srv := SocketServer.addInterceptor srv (AuthenticationInterceptor token) in
  let '(rate, w') := new_RateLimitingInterceptor limit w in
  let srv := SocketServer.addInterceptor srv rate in
  let srv := SocketServer.addInterceptor srv ValidationInterceptor in
  (srv, w').

Definition hft_server `{StdSort} (token : string) : Server Interceptor Service :=
  let srv := foldl HFTServer.addService HFTServer.new registered_services in
  HFTServer.addInterceptor srv (AuthenticationInterceptor token).

(** An environment for examples: the clock stands at [t], no file exists,
    every path can be created. *)
Definition quiet_world (t : Z) : World :=
  mkWorld (fun _ => t) 0 ∅ (fun _ => true).

(** ** Reading a trace *)

(** The interceptors whose [preProcess] ran, whose [postProcess] ran,
    and the calls of services, each in the order of the calls. *)
Definition pre_run (tr : list Event) : list nat :=
  omap (fun e => match e with EvPre i _ => Some i | _ => None end) tr.

Definition post_run (tr : list Event) : list nat :=
  omap (fun e => match e with EvPost i => Some i | _ => None end) tr.

Definition is_svc (e : Event) : bool :=
  match e with EvSvc _ _ _ => true | _ => false end.

Definition svc_calls (tr : list Event) : list Event := List.filter is_svc tr.

(** Some [preProcess] returned [false]. *)
Definition rejected {I Sv : Type} (r : Run I Sv) : Prop :=
  exists i, In (EvPre i false) (trace r).

(** The unwinding that the design document describes for a rejected
    request: [postProcess] runs on the interceptors whose [preProcess]
    ran, in the same order. *)
Definition symmetric_unwind {I Sv : Type} (r : Run I Sv) : Prop :=
  post_run (trace r) = pre_run (trace r).

(** Some character of [s] is white space. *)
Fixpoint has_space (s : string) : bool :=
  match s with
  | EmptyString => false
  | String c s' => is_space c || has_space s'
  end.

(** [s] is empty or starts with white space: a token can end before it. *)
Definition token_end (s : string) : bool :=
  match s with
  | EmptyString => true
  | String c _ => is_space c
  end.

(** No interceptor has a smaller priority than an earlier one. *)
Definition sorted_by_priority {I : Type} `{IInterceptor I} (its : list I) : Prop :=
  StronglySorted (fun a b => (getPriority a <= getPriority b)%Z) its.

(** Elements of equal priority stand in [stored] in the order in which
    they stand in [added]. *)
Definition ties_in_insertion_order {I : Type} `{IInterceptor I} (added stored : list I)
  : Prop :=
  forall p : Z,
    filter (fun i => getPriority i = p) stored
    = filter (fun i => getPriority i = p) added.

(** The return values of successive [preProcess] calls of one rate
    limiter, the clock showing [times] at the calls. *)
Fixpoint rate_run (times : list Z) (self : RateLimiter) : list bool * RateLimiter :=
  match times with
  | [] => ([], self)
  | t :: times' =>
      let '(ok, self') := RateLimitingInterceptor_preProcess t self in
      let '(oks, self'') := rate_run times' self' in
      (ok :: oks, self'')
  end.

(** [admits request i]: [i->preProcess(request)] returns [true] whatever
    the clock shows. *)
Definition admits (request : string) (i : Interceptor) : bool :=
  match i with
  | LoggingInterceptor _ => true
  | AuthenticationInterceptor validToken =>
      AuthenticationInterceptor_preProcess validToken request
  | RateLimitingInterceptor self =>
      (0 <=? currentRequests self)%Z && (currentRequests self <? maxRequests self)%Z
      && (maxRequests self <=? int_max)%Z
  | ValidationInterceptor => ValidationInterceptor_preProcess request
  end.

(** The same request sent [n] times to a [SocketServer]: the responses. *)
Fixpoint repeat_request `{StdSort} (n : nat) (srv : Server Interceptor Service)
    (request : string) (w : World) : list (outcome string) :=
  match n with
  | 0 => []
  | S n' =>
      let r := SocketServer.processRequest srv request w in
      response r :: repeat_request n' (server_of r) request (run_world r)
  end.

(** [std::string(n, c)]. *)
Fixpoint string_of_char (n : nat) (c : ascii) : string :=
  match n with
  | 0 => EmptyString
  | S n' => String c (string_of_char n' c)
  end.

(** The request of the wire format for [ECHO]. *)
Definition echo_request (secret x : string) : string :=
  "TOKEN:" ++ secret ++ " ECHO " ++ x.

(** ** Receiving and sending

    [recv] is taken by its return value: [None] for [-1], [Some bytes]
    for [bytesRead = bytes.size()], [0] being the orderly close.  A read
    takes at most [sizeof(buffer) - 1] bytes.  [std::string(buffer)]
    stops at the first NUL. *)

Definition NUL : ascii := Ascii.zero.

Fixpoint c_str (buffer : string) : string :=
  match buffer with
  | EmptyString => EmptyString
  | String c rest => if Ascii.eqb c NUL then EmptyString else String c (c_str rest)
  end.

(** One turn of the loop of [SocketServer::handleClient]: [None] when
    the loop breaks and the socket is closed, else the run whose
    response is sent back. *)
Definition SocketServer_handleClient `{StdSort} {I Sv : Type}
    `{IInterceptor I} `{IService Sv}
    (srv : Server I Sv) (received : option string) (w : World)
  : option (Run I Sv) :=
  match received with
  | None => None
  | Some bytes =>
      let data := Str.take 1023 bytes in
      if Nat.ltb 0 (String.length data)
      then Some (SocketServer.processRequest srv (c_str data) w)
      else None
  end.

(** [HFTServer::handleClient]: the queue afterwards and whether the
    client was removed from epoll and closed. *)
Definition HFTServer_handleClient (requestQueue : LockFreeQueue.Queue WorkItem)
    (clientSocket : Z) (received : option string)
  : LockFreeQueue.Queue WorkItem * bool :=
  match received with
  | None => (requestQueue, false)
  | Some bytes =>
      let data := Str.take 4095 bytes in
      if Nat.ltb 0 (String.length data)
      then ((LockFreeQueue.enqueue requestQueue
               (make_pair clientSocket (c_str data))).2, false)
      else (requestQueue, true)
  end.

(** ** [SocketClient] ([src/client.cpp])

    The network is taken by the return values of [send] and [recv]. *)

Record Network : Type := mkNetwork {
  net_send_ok : string -> bool;
  net_recv : option string
}.

Record SocketClient (I : Type) : Type := mkClient {
  clientSocket : Z;
  client_interceptors : list I
}.
Arguments mkClient {I}.
Arguments clientSocket {I}.
Arguments client_interceptors {I}.

(** What a call of [sendRequest] leaves behind: the returned string, the
    client, the environment, the calls of interceptors and what was
    handed to [send]. *)
Record Sent (I : Type) : Type := mkSent {
  sent_response : string;
  sent_client : SocketClient I;
  sent_world : World;
  sent_trace : list Event;
  sent_bytes : option string
}.
Arguments mkSent {I}.
Arguments sent_response {I}.
Arguments sent_client {I}.
Arguments sent_world {I}.
Arguments sent_trace {I}.
Arguments sent_bytes {I}.

Definition SocketClient_addInterceptor {I : Type} (c : SocketClient I) (interceptor : I)
  : SocketClient I :=
  mkClient (clientSocket c) (client_interceptors c ++ [interceptor])%list.

Definition SocketClient_sendRequest `{StdSort} {I : Type} `{IInterceptor I}
    (c : SocketClient I) (net : Network) (request : string) (w : World) : Sent I :=
  if (clientSocket c <? 0)%Z
  then mkSent "ERROR: Not connected to server" c w nil None
  else
    let sorted := std_sort (fun a b => (getPriority a <? getPriority b)%Z)
                           (client_interceptors c) in
    let '(ok, processedRequest, its1, w1, ev1) :=
      pre_pass 0 sorted request w in
    if ok then
      if net_send_ok net processedRequest then
        match net_recv net with
        | Some bytes =>
            let data := Str.take 1023 bytes in
            if Nat.ltb 0 (String.length data) then
              let '(response', its3, w3, ev3) :=
                post_pass 0 its1 processedRequest (c_str data) w1 in
              mkSent response' (mkClient (clientSocket c) its3) w3 (ev1 ++ ev3)%list
                     (Some processedRequest)
            else mkSent "ERROR: Failed to receive response"
                        (mkClient (clientSocket c) its1) w1 ev1 (Some processedRequest)
        | None => mkSent "ERROR: Failed to receive response"
                         (mkClient (clientSocket c) its1) w1 ev1 (Some processedRequest)
        end
      else mkSent "ERROR: Failed to send request"
                  (mkClient (clientSocket c) its1) w1 ev1 (Some processedRequest)
    else mkSent REJECTED (mkClient (clientSocket c) its1) w1 ev1 None.

(** The client of [client_main.cpp]. *)
Definition client_main_client (fd : Z) : SocketClient Interceptor :=
  SocketClient_addInterceptor
    (SocketClient_addInterceptor
       (SocketClient_addInterceptor (mkClient fd nil) new_LoggingInterceptor)
       (AuthenticationInterceptor "secret123"))
    ValidationInterceptor.

(** ** Metrics of the HFT server

    [totalRequests] and [totalLatency] are [std::atomic<uint64_t>]. *)

Record Metrics : Type := mkMetrics {
  totalRequests : N;
  totalLatency : N
}.

Definition uint64_wrap (z : Z) : N := Z.to_N (z mod 2 ^ 64).

(** [totalRequests++; totalLatency += latency;] of [workerThread], the
    latency being a signed count of microseconds. *)
Definition record_latency (m : Metrics) (latency : Z) : Metrics :=
  mkMetrics (uint64_wrap (Z.of_N (totalRequests m) + 1))
            (uint64_wrap (Z.of_N (totalLatency m) + latency)).

Definition getTotalRequests (m : Metrics) : N := totalRequests m.

Definition getAverageLatency (m : Metrics) : N :=
  let requests := totalRequests m in
  if (0 <? requests)%N then (totalLatency m / requests)%N else 0%N.

Definition resetMetrics (m : Metrics) : Metrics := mkMetrics 0 0.

(** The worker threads' updates for a sequence of requests with the
    given latencies, and the sum of the latencies. *)
Definition record_latencies (m : Metrics) (latencies : list Z) : Metrics :=
  fold_left record_latency latencies m.

Definition sum_of (latencies : list Z) : Z := fold_right Z.add 0%Z latencies.

(** [getResponseBuffer]: the index of the buffer it returns and the new
    [bufferIndex], for [size] buffers. *)
Definition getResponseBuffer (bufferIndex : N) (size : nat) : nat * N :=
  (N.to_nat (bufferIndex mod N.of_nat size)%N, ((bufferIndex + 1) mod 2 ^ 64)%N).

(** ** Start and stop

    The system calls are taken by their return values; [SysClose] and
    [SysJoin] record the calls of [close] and [std::thread::join].  A
    thread in [workerThreads] was built with a function and is joinable.
    [start] is embedded up to the call of [acceptConnections], which
    returns only after [stop]. *)

Inductive SysEvent : Type :=
| SysClose (fd : Z)
| SysJoin (thread : nat).

Record Lifecycle : Type := mkLifecycle {
  serverSocket : Z;
  epollFd : Z;
  running : bool;
  workerThreads : list nat
}.

Record Sys : Type := mkSys {
  sys_socket : Z;
  sys_bind : Z;
  sys_listen : Z;
  sys_epoll_create1 : Z;
  sys_epoll_ctl : Z
}.

(** [SocketServer()] and [HFTServer()]; [SocketServer] has no [epollFd],
    the field stays [-1]. *)
Definition new_Lifecycle : Lifecycle := mkLifecycle (-1) (-1) false nil.

Definition SocketServer_start (sys : Sys) (s : Lifecycle) : outcome unit * Lifecycle :=
  if running s then (Ret tt, s)
  else
    let s1 := mkLifecycle (sys_socket sys) (epollFd s) (running s) (workerThreads s) in
    if (sys_socket sys <? 0)%Z then (Throw (runtime_error "Failed to create socket"), s1)
    else if (sys_bind sys <? 0)%Z then (Throw (runtime_error "Failed to bind socket"), s1)
    else if (sys_listen sys <? 0)%Z
         then (Throw (runtime_error "Failed to listen on socket"), s1)
    else (Ret tt, mkLifecycle (sys_socket sys) (epollFd s) true (workerThreads s)).

Definition SocketServer_stop (s : Lifecycle) : Lifecycle * list SysEvent :=
  if negb (running s) then (s, nil)
  else
    let closes := if (0 <=? serverSocket s)%Z then [SysClose (serverSocket s)] else nil in
    let sock := if (0 <=? serverSocket s)%Z then (-1)%Z else serverSocket s in
    (mkLifecycle sock (epollFd s) false nil,
     (closes ++ map SysJoin (workerThreads s))%list).

(** The threads [HFTServer::start] creates: [HFT_THREAD_POOL_SIZE] of
    them. *)
Definition HFT_THREAD_POOL_SIZE : nat := 16.

Definition HFTServer_start (sys : Sys) (s : Lifecycle) : outcome unit * Lifecycle :=
  let s1 := mkLifecycle (sys_socket sys) (epollFd s) (running s) (workerThreads s) in
  if (sys_socket sys =? -1)%Z then (Throw (runtime_error "Failed to create socket"), s1)
  else if (sys_bind sys =? -1)%Z then (Throw (runtime_error "Failed to bind socket"), s1)
  else if (sys_listen sys =? -1)%Z
       then (Throw (runtime_error "Failed to listen on socket"), s1)
  else
    let s2 := mkLifecycle (sys_socket sys) (sys_epoll_create1 sys) (running s)
                          (workerThreads s) in
    if (sys_epoll_create1 sys =? -1)%Z
    then (Throw (runtime_error "Failed to create epoll instance"), s2)
    else if (sys_epoll_ctl sys =? -1)%Z
         then (Throw (runtime_error "Failed to add server socket to epoll"), s2)
    else (Ret tt,
          mkLifecycle (sys_socket sys) (sys_epoll_create1 sys) true
            (workerThreads s ++ seq (length (workerThreads s)) HFT_THREAD_POOL_SIZE)%list).

Definition HFTServer_stop (s : Lifecycle) : Lifecycle * list SysEvent :=
  let close_epoll := if (epollFd s =? -1)%Z then nil else [SysClose (epollFd s)] in
  let close_sock := if (serverSocket s =? -1)%Z then nil else [SysClose (serverSocket s)] in
  (mkLifecycle (-1) (-1) false nil,
   (close_epoll ++ close_sock ++ map SysJoin (workerThreads s))%list).

(** An outcome other than the empty answer and the no-service error. *)
Definition answered (o : outcome string) : Prop :=
  match o with
  | Ret s => s <> "" /\ s <> NO_SERVICE
  | Throw _ => True
  end.

(** ** Well-formed queues

    Every pointer of the queue is the address of a node of the pool. *)
Definition queue_pointers_in_pool {T : Type} (q : LockFreeQueue.Queue T) : Prop :=
  LockFreeQueue.head q < length (LockFreeQueue.pool q) /\
  LockFreeQueue.tail q < length (LockFreeQueue.pool q) /\
  forall (i : nat) (nd : LockFreeQueue.Node T) (k : nat),
    LockFreeQueue.pool q !! i = Some nd -> LockFreeQueue.next nd = Some k ->
    k < length (LockFreeQueue.pool q).

(** The list that enqueues without a dequeue in between build in the
    pool of a queue with [n] nodes, [all] being the items in the order
    of their enqueue: node [i] points to node [i + 1] up to the last one,
    node [j], and the nodes after node 0 hold their items. *)
Definition enqueued_chain {T : Type} (n : nat) (all : list T) (j : nat)
    (q : LockFreeQueue.Queue T) : Prop :=
  LockFreeQueue.tail q = j /\
  LockFreeQueue.pool_index q = N.of_nat (S j) /\
  length (LockFreeQueue.pool q) = n /\
  (forall i, i < j ->
     exists d, LockFreeQueue.pool q !! i = Some (LockFreeQueue.mkNode d (Some (S i))) /\
               (0 < i -> all !! i = Some d)) /\
  (0 < j ->
     exists d, LockFreeQueue.pool q !! j = Some (LockFreeQueue.mkNode d None) /\
               all !! j = Some d).

(** * Properties *)

(** Closed equations about concrete runs are decided by evaluation. *)
Ltac evaluate :=
  repeat match goal with |- _ /\ _ => split end;
  vm_compute; reflexivity.

(** ** Strings *)

Lemma starts_with_app (p s : string) : Str.starts_with p (p ++ s) = true.
Proof.
  induction p as [|a p IH]; simpl; [done|].
  by rewrite Ascii.eqb_refl.
Qed.

Lemma starts_with_spec (p s : string) :
  Str.starts_with p s = true <-> exists t, s = p ++ t.
Proof.
  split.
  - revert s. induction p as [|a p IH]; intros s Hs; simpl in *.
    + by exists s.
    + destruct s as [|b s]; [done|].
      destruct (Ascii.eqb_spec a b) as [->|]; [|done].
      destruct (IH _ Hs) as [t ->]. by exists t.
  - intros [t ->]. apply starts_with_app.
Qed.

Lemma drop_app_length (a b : string) : Str.drop (String.length a) (a ++ b) = Some b.
Proof. induction a as [|c a IH]; simpl; [by destruct b|done]. Qed.

Lemma find_Some_app (needle s : string) (n : nat) :
  Str.find needle s = Some n ->
  exists a b, s = a ++ needle ++ b /\ String.length a = n.
Proof.
  revert n. induction s as [|c s IH]; intros n; simpl.
  - destruct (Str.starts_with needle "") eqn:E; [|done].
    intros [= <-]. apply starts_with_spec in E as [t Ht].
    by exists "", t.
  - destruct (Str.starts_with needle (String c s)) eqn:E.
    + intros [= <-]. apply starts_with_spec in E as [t Ht].
      by exists "", t.
    + destruct (Str.find needle s) as [m|] eqn:F; [|done].
      intros [= <-]. destruct (IH m eq_refl) as (a & b & -> & <-).
      by exists (String c a), b.
Qed.

Lemma find_starts_with (needle s : string) :
  Str.starts_with needle s = true -> Str.find needle s = Some 0.
Proof. intros E. destruct s; simpl; by rewrite E. Qed.

Lemma find_cons (needle : string) (c : ascii) (s : string) :
  Str.find needle (String c s)
  = if Str.starts_with needle (String c s) then Some 0
    else option_map S (Str.find needle s).
Proof. reflexivity. Qed.

Lemma find_app_None (needle a b : string) :
  Str.find needle (a ++ needle ++ b) <> None.
Proof.
  induction a as [|c a IH].
  - change ("" ++ needle ++ b) with (needle ++ b).
    by rewrite find_starts_with; [|apply starts_with_app].
  - change (String c a ++ needle ++ b) with (String c (a ++ needle ++ b)).
    rewrite find_cons.
    destruct (Str.starts_with needle (String c (a ++ needle ++ b))); [done|].
    by destruct (Str.find needle (a ++ needle ++ b)).
Qed.

(** ** The loop of the calculator ends within its fuel *)

Lemma skip_ws_length (s : string) : String.length (skip_ws s) <= String.length s.
Proof.
  induction s as [|c s IH]; simpl; [lia|].
  destruct (is_space c); simpl; lia.
Qed.

Section CalculatorFacts.
Context `{Doubles}.

Lemma extract_char_length (iss : istringstream) :
  is_fail (extract_char iss).1 = false ->
  String.length (is_buf (extract_char iss).1) < String.length (is_buf iss).
Proof.
  unfold extract_char. destruct (is_fail iss) eqn:E; simpl; [congruence|].
  pose proof (skip_ws_length (is_buf iss)) as Hl.
  destruct (skip_ws (is_buf iss)); simpl in *; [done|lia].
Qed.

Lemma extract_double_length (iss : istringstream) (d : double) :
  String.length (is_buf (extract_double iss d).1) <= String.length (is_buf iss).
Proof.
  unfold extract_double. destruct (is_fail iss); simpl; [lia|].
  pose proof (skip_ws_length (is_buf iss)) as Hl.
  destruct (skip_ws (is_buf iss)) as [|c rest]; simpl in *; [lia|].
  pose proof (num_get_rest (String c rest)) as Hr.
  destruct (num_get (String c rest)) as [[v ok] rest']. simpl in *. lia.
Qed.

Lemma extract_double_failed (iss : istringstream) (d : double) :
  is_fail iss = true -> is_fail (extract_double iss d).1 = true.
Proof. intros E. unfold extract_double. by rewrite E. Qed.

(** More fuel than the input has characters changes nothing: the value
    at fuel 0 is never used by [evaluateExpression]. *)
Lemma evaluate_loop_fuel (n m : nat) (iss : istringstream) (d : double) :
  String.length (is_buf iss) < n -> String.length (is_buf iss) < m ->
  evaluate_loop n iss d = evaluate_loop m iss d.
Proof.
  revert m iss d. induction n as [|n IH]; intros m iss d Hn Hm; [lia|].
  destruct m as [|m]; [lia|]. simpl.
  pose proof (extract_char_length iss) as Hc.
  destruct (extract_char iss) as [iss1 op]. simpl in Hc.
  pose proof (extract_double_length iss1 d) as Hd.
  pose proof (extract_double_failed iss1 d) as Hf.
  destruct (extract_double iss1 d) as [iss2 d']. simpl in Hd, Hf.
  destruct (is_fail iss2) eqn:E2; [done|].
  destruct (is_fail iss1) eqn:E1; [by specialize (Hf eq_refl)|].
  specialize (Hc eq_refl).
  destruct op as [c|]; [|done].
  repeat match goal with
         | |- context [if ?b then _ else _] => destruct b
         end; try done; apply IH; lia.
Qed.

Lemma evaluateExpression_fuel (expression : string) (k : nat) :
  evaluateExpression expression
  = let '(iss, r) := extract_double (mkStream expression false) double_indet in
    evaluate_loop (S (String.length expression) + k) iss r.
Proof.
  unfold evaluateExpression.
  pose proof (extract_double_length (mkStream expression false) double_indet) as Hl.
  destruct (extract_double (mkStream expression false) double_indet) as [iss r].
  simpl in Hl. apply evaluate_loop_fuel; lia.
Qed.
End CalculatorFacts.

(** From here on [++] is the append of lists and [+:+] the append of
    strings. *)
Local Open Scope list_scope.

(** ** The three loops *)

Section PipelineFacts.
Context {I Sv : Type} `{IInterceptor I} `{IService Sv}.

(** The first loop calls [preProcess] on [interceptors[i]],
    [interceptors[i+1]], ... and stops after the first [false]. *)
Lemma pre_pass_trace (its : list I) (i : nat) (request : string) (w : World) :
  let '(ok, _, _, _, ev) := pre_pass i its request w in
  if ok then ev = map (fun j => EvPre j true) (seq i (length its))
  else exists k, k < length its /\
         ev = map (fun j => EvPre j true) (seq i k) ++ [EvPre (i + k) false].
Proof.
  revert i request w. induction its as [|it rest IH]; intros i request w; simpl.
  - reflexivity.
  - destruct (preProcess it request w) as [[[ok request'] it'] w'].
    destruct ok.
    + specialize (IH (S i) request' w').
      destruct (pre_pass (S i) rest request' w') as [[[[b r''] rest'] w''] ev].
      destruct b.
      * by rewrite IH.
      * destruct IH as (k & Hk & ->). exists (S k). split; [lia|].
        simpl. by replace (i + S k) with (S i + k) by lia.
    + exists 0. split; [lia|]. simpl. by rewrite Nat.add_0_r.
Qed.

Lemma pre_pass_length (its : list I) (i : nat) (request : string) (w : World) :
  length (pre_pass i its request w).1.1.2 = length its.
Proof.
  revert i request w. induction its as [|it rest IH]; intros i request w; simpl.
  - reflexivity.
  - destruct (preProcess it request w) as [[[ok request'] it'] w'].
    destruct ok; [|done].
    specialize (IH (S i) request' w').
    destruct (pre_pass (S i) rest request' w') as [[[[b r''] rest'] w''] ev].
    simpl in *. by rewrite IH.
Qed.

Lemma dispatch_events (svcs : list Sv) (j : nat) (request : string) (w : World)
    (response0 : string) :
  Forall (fun e => is_svc e = true) (dispatch j svcs request w response0).2.
Proof.
  revert j w response0. induction svcs as [|s rest IH]; intros j w response0; simpl.
  - constructor.
  - destruct (processRequest s request w) as [[r s'] w'].
    destruct r as [resp|e]; [|by repeat constructor].
    destruct (Str.empty resp); [|by repeat constructor].
    specialize (IH (S j) w' resp).
    destruct (dispatch (S j) rest request w' resp) as [[[r' rest'] w''] ev].
    by constructor.
Qed.

Lemma find_service_events (svcs : list Sv) (request : string) (w : World) :
  Forall (fun e => is_svc e = true) (find_service svcs request w).2.
Proof.
  unfold find_service.
  pose proof (dispatch_events svcs 0 request w "") as Hd.
  destruct (dispatch 0 svcs request w "") as [[[r svcs'] w'] ev].
  by destruct r.
Qed.

Lemma post_pass_trace (its : list I) (i : nat) (request response0 : string)
    (w : World) :
  (post_pass i its request response0 w).2 = map EvPost (seq i (length its)).
Proof.
  revert i response0 w. induction its as [|it rest IH]; intros i response0 w; simpl.
  - reflexivity.
  - destruct (postProcess it request response0 w) as [[response' it'] w'].
    specialize (IH (S i) response' w').
    destruct (post_pass (S i) rest request response' w') as [[[r'' rest'] w''] ev].
    simpl in *. by rewrite IH.
Qed.

Lemma not_In_pre_true (i : nat) (l : list nat) :
  ~ In (EvPre i false) (map (fun j => EvPre j true) l).
Proof. rewrite in_map_iff. by intros (j & [=] & _). Qed.

Lemma svc_calls_pre (l : list nat) (b : bool) :
  svc_calls (map (fun j => EvPre j b) l) = [].
Proof. induction l; simpl; auto. Qed.

Lemma pre_run_pre_true (l : list nat) :
  pre_run (map (fun j => EvPre j true) l) = l.
Proof. induction l; simpl; [done|]. unfold pre_run in *. simpl. by f_equal. Qed.

Lemma post_run_pre_true (l : list nat) :
  post_run (map (fun j => EvPre j true) l) = [].
Proof. induction l; simpl; auto. Qed.

(** A rejected request: the fixed response, no call of a service, no
    call of [postProcess], and [preProcess] was called on the
    interceptors up to the one that rejected. *)
Lemma pipeline_rejected (its : list I) (svcs : list Sv) (request : string)
    (w : World) :
  let r := pipeline its svcs request w in
  rejected r ->
  response r = Ret REJECTED /\
  run_services r = svcs /\
  exists k, k < length its /\
    trace r = map (fun j => EvPre j true) (seq 0 k) ++ [EvPre k false].
Proof.
  unfold pipeline, rejected.
  pose proof (pre_pass_trace its 0 request w) as Hp.
  destruct (pre_pass 0 its request w) as [[[[ok request'] its1] w1] ev1].
  destruct ok.
  - intros [i Hin]. exfalso. subst ev1.
    pose proof (find_service_events svcs request' w1) as Hs.
    destruct (find_service svcs request' w1) as [[[r svcs2] w2] ev2].
    simpl in Hs.
    assert (Hev2 : ~ In (EvPre i false) ev2).
    { intros Hi. rewrite Forall_forall in Hs.
      apply list_elem_of_In in Hi. by specialize (Hs _ Hi). }
    destruct r as [resp|e]; simpl in Hin.
    + pose proof (post_pass_trace its1 0 request' resp w2) as Hq.
      destruct (post_pass 0 its1 request' resp w2) as [[[resp' its3] w3] ev3].
      simpl in Hq, Hin. subst ev3.
      rewrite !in_app_iff in Hin. destruct Hin as [Hin|[Hin|Hin]].
      * by apply not_In_pre_true in Hin.
      * done.
      * apply in_map_iff in Hin. by destruct Hin as (j & [=] & _).
    + rewrite in_app_iff in Hin. destruct Hin as [Hin|Hin]; [|done].
      by apply not_In_pre_true in Hin.
  - intros _. simpl. destruct Hp as (k & Hk & ->). eauto.
Qed.
End PipelineFacts.

(** ** C1: a rejected request *)

(** What a rejected request leaves in the trace of either server. *)
Lemma servers_reject_shape `{StdSort} {I Sv : Type}
    `{IInterceptor I} `{IService Sv}
    (srv : Server I Sv) (request : string) (w : World) (r : Run I Sv) :
  r = SocketServer.processRequest srv request w \/
  r = HFTServer.processRequest srv request w ->
  rejected r ->
  response r = Ret REJECTED /\
  svc_calls (trace r) = [] /\
  post_run (trace r) = [] /\
  run_services r = services srv /\
  exists k, pre_run (trace r) = seq 0 (S k) /\
    trace r = map (fun j => EvPre j true) (seq 0 k) ++ [EvPre k false].
Proof.
  intros Hr Hrej.
  assert (Hp : exists its, r = pipeline its (services srv) request w)
    by (destruct Hr as [->| ->]; eexists; reflexivity).
  destruct Hp as [its ->].
  destruct (pipeline_rejected its (services srv) request w Hrej)
    as (Hresp & Hsv & k & Hk & Htr).
  split; [exact Hresp|]. rewrite Htr.
  split; [|split; [|split; [exact Hsv|]]].
  - unfold svc_calls. rewrite List.filter_app. fold (svc_calls (map (fun j => EvPre j true) (seq 0 k))).
    by rewrite svc_calls_pre.
  - unfold post_run. rewrite omap_app. fold (post_run (map (fun j => EvPre j true) (seq 0 k))).
    by rewrite post_run_pre_true.
  - exists k. split; [|done].
    unfold pre_run. rewrite omap_app. fold (pre_run (map (fun j => EvPre j true) (seq 0 k))).
    rewrite pre_run_pre_true, seq_S. reflexivity.
Qed.


(** C1, as the code has it: whenever some [preProcess] returns [false],
    [processRequest] of either server returns the fixed rejection
    response at once; no service is called and no [postProcess] is
    called, neither on the interceptors whose [preProcess] ran nor on
    any other.  The calls made are the [preProcess] calls on the
    interceptors up to and including the one that rejected, in the order
    of the vector. *)
Theorem C1_reject_returns_early `{StdSort} {I Sv : Type}
    `{IInterceptor I} `{IService Sv}
    (srv : Server I Sv) (request : string) (w : World) (r : Run I Sv) :
  r = SocketServer.processRequest srv request w \/
  r = HFTServer.processRequest srv request w ->
  rejected r ->
  response r = Ret REJECTED /\
  svc_calls (trace r) = [] /\
  post_run (trace r) = [] /\
  run_services r = services srv /\
  exists k, pre_run (trace r) = seq 0 (S k) /\
    trace r = map (fun j => EvPre j true) (seq 0 k) ++ [EvPre k false].
Proof. apply servers_reject_shape. Qed.

Lemma C1_reject_returns_early_witness :
  let r := HFTServer.processRequest (hft_server "secret123")
             "TOKEN:wrong ECHO Hi" (quiet_world 0) in
  rejected r /\
  response r = Ret REJECTED /\
  svc_calls (trace r) = [] /\
  post_run (trace r) = [] /\
  run_services r = services (hft_server "secret123") /\
  exists k, pre_run (trace r) = seq 0 (S k) /\
    trace r = map (fun j => EvPre j true) (seq 0 k) ++ [EvPre k false].
Proof.
  intros r.
  assert (Hrej : rejected r) by (exists 0; vm_compute; auto).
  split; [exact Hrej|].
  apply (C1_reject_returns_early (hft_server "secret123")
           "TOKEN:wrong ECHO Hi" (quiet_world 0) r); [by right|exact Hrej].
Defined.

(** C1 as stated fails: the request [TOKEN:secret123 INVALID Hello] sent
    to the socket server passes authentication, logging and rate
    limiting and is rejected by validation; [preProcess] ran on the
    interceptors 0 to 3 and [postProcess] ran on none of them. *)
Lemma C1_no_unwind_after_reject :
  let r := SocketServer.processRequest
             (socket_server "secret123" 10000 (quiet_world 0)).1
             "TOKEN:secret123 INVALID Hello"
             (socket_server "secret123" 10000 (quiet_world 0)).2 in
  rejected r /\
  response r = Ret REJECTED /\
  pre_run (trace r) = [0; 1; 2; 3] /\
  post_run (trace r) = [] /\
  ~ symmetric_unwind r.
Proof.
  intros r. split; [exists 3; vm_compute; auto|].
  split; [by vm_compute|]. split; [by vm_compute|]. split; [by vm_compute|].
  unfold symmetric_unwind. by vm_compute.
Qed.

(** ** C2: the service loop *)

Lemma empty_spec (s : string) : Str.empty s = true <-> s = "".
Proof. by destruct s. Qed.

Section ServiceLoop.
Context {Sv : Type} `{IService Sv}.

(** Every recorded call is the call of the service at that index of
    the vector, on the request of the loop. *)
Lemma dispatch_calls (svcs : list Sv) (j : nat) (request : string) (w : World)
    (response0 : string) :
  Forall (fun e => exists i s w0, svcs !! i = Some s /\
                     e = EvSvc (j + i) request (processRequest s request w0).1.1)
         (dispatch j svcs request w response0).2.
Proof.
  revert j w response0. induction svcs as [|s rest IH]; intros j w response0; simpl.
  - constructor.
  - assert (Hhd : exists i s0 w0, (s :: rest) !! i = Some s0 /\
              EvSvc j request (processRequest s request w).1.1
              = EvSvc (j + i) request (processRequest s0 request w0).1.1).
    { exists 0, s, w. by rewrite Nat.add_0_r. }
    destruct (processRequest s request w) as [[r s'] w']. simpl in Hhd.
    destruct r as [resp|e]; [|by repeat constructor].
    destruct (Str.empty resp); [|by repeat constructor].
    specialize (IH (S j) w' resp).
    destruct (dispatch (S j) rest request w' resp) as [[[r' rest'] w''] ev].
    simpl in *. constructor; [exact Hhd|].
    eapply Forall_impl; [exact IH|]. simpl.
    intros e (i & s0 & w0 & Hi & ->). exists (S i), s0, w0.
    split; [done|]. by replace (j + S i) with (S (j + i)) by lia.
Qed.

Lemma dispatch_spec (svcs : list Sv) (j : nat) (request : string) (w : World) :
  let '(r, _, _, ev) := dispatch j svcs request w "" in
  exists k last,
    ev = map (fun i => EvSvc i request (Ret "")) (seq j k) ++ last /\
    ((exists resp, last = [EvSvc (j + k) request (Ret resp)] /\ resp <> "" /\
                   k < length svcs /\ r = Ret resp) \/
     (last = [] /\ k = length svcs /\ r = Ret "") \/
     (exists e, last = [EvSvc (j + k) request (Throw e)] /\
                k < length svcs /\ r = Throw e)).
Proof.
  revert j w. induction svcs as [|s rest IH]; intros j w; simpl.
  - exists 0, []. split; [done|]. right; left. done.
  - destruct (processRequest s request w) as [[r s'] w'].
    destruct r as [resp|e].
    + destruct (Str.empty resp) eqn:E.
      * apply empty_spec in E as ->.
        specialize (IH (S j) w').
        destruct (dispatch (S j) rest request w' "") as [[[r' rest'] w''] ev].
        destruct IH as (k & last & -> & Hc).
        exists (S k), last. split; [done|].
        replace (j + S k) with (S j + k) by lia.
        destruct Hc as [(resp & -> & ? & ? & ->)|[(-> & -> & ->)|(e & -> & ? & ->)]].
        -- left. exists resp. repeat split; auto. lia.
        -- right; left. done.
        -- right; right. exists e. repeat split; auto. lia.
      * exists 0, [EvSvc j request (Ret resp)]. split; [done|].
        left. exists resp. rewrite Nat.add_0_r. repeat split; auto; [|lia].
        intros ->. done.
    + exists 0, [EvSvc j request (Throw e)]. split; [done|].
      right; right. exists e. rewrite Nat.add_0_r. repeat split; auto. lia.
Qed.

(** The service stage of [processRequest]: services are called in the
    order of registration, each on the same request; every call before
    the last returned the empty string; the stage ends with the first
    call that returns a non-empty string, which is the response, or
    with the last service, and then the response is the fixed
    no-service error.  (A call that throws ends the stage as well.) *)
Lemma find_service_spec (svcs : list Sv) (request : string) (w : World) :
  let '(r, _, _, ev) := find_service svcs request w in
  exists k last,
    ev = map (fun i => EvSvc i request (Ret "")) (seq 0 k) ++ last /\
    ((exists resp, last = [EvSvc k request (Ret resp)] /\ resp <> "" /\
                   k < length svcs /\ r = Ret resp) \/
     (last = [] /\ k = length svcs /\ r = Ret NO_SERVICE) \/
     (exists e, last = [EvSvc k request (Throw e)] /\
                k < length svcs /\ r = Throw e)).
Proof.
  unfold find_service.
  pose proof (dispatch_spec svcs 0 request w) as Hd.
  destruct (dispatch 0 svcs request w "") as [[[r svcs'] w'] ev].
  destruct Hd as (k & last & -> & Hc).
  destruct Hc as [(resp & -> & Hne & ? & ->)|[(-> & -> & ->)|(e & -> & ? & ->)]];
    eexists; eexists; (split; [reflexivity|]).
  - left. exists resp. repeat split; auto.
    destruct resp; [done|reflexivity].
  - right; left. done.
  - right; right. by exists e.
Qed.
End ServiceLoop.

(** ** The interceptors of the repository *)

(** No [preProcess] of the repository assigns to its argument. *)
Lemma preProcess_request (i : Interceptor) (request : string) (w : World) :
  (preProcess i request w).1.1.2 = request.
Proof.
  destruct i as [st|tok|self|]; unfold preProcess; simpl; try reflexivity.
  by destruct (RateLimitingInterceptor_preProcess (w_clock w (w_reads w)) self).
Qed.

Lemma pre_pass_request (its : list Interceptor) (i : nat) (request : string)
    (w : World) :
  (pre_pass i its request w).1.1.1.2 = request.
Proof.
  revert i w. induction its as [|it rest IH]; intros i w; simpl; [done|].
  pose proof (preProcess_request it request w) as Hr.
  destruct (preProcess it request w) as [[[ok request'] it'] w'].
  simpl in Hr. subst request'.
  destruct ok; [|done].
  specialize (IH (S i) w').
  by destruct (pre_pass (S i) rest request w') as [[[[b r''] rest'] w''] ev].
Qed.

(** [postProcess] changes only an empty response. *)
Lemma postProcess_response (i : Interceptor) (request response0 : string)
    (w : World) :
  response0 <> "" -> (postProcess i request response0 w).1.1 = response0.
Proof. destruct i; unfold postProcess; simpl; try done. by destruct response0. Qed.

Lemma post_pass_response (its : list Interceptor) (i : nat)
    (request response0 : string) (w : World) :
  response0 <> "" -> (post_pass i its request response0 w).1.1.1 = response0.
Proof.
  intros Hne. revert i w. induction its as [|it rest IH]; intros i w; simpl; [done|].
  pose proof (postProcess_response it request response0 w Hne) as Hp.
  destruct (postProcess it request response0 w) as [[response' it'] w'].
  simpl in Hp. subst response'.
  specialize (IH (S i) w').
  by destruct (post_pass (S i) rest request response0 w') as [[[r'' rest'] w''] ev].
Qed.

Lemma filter_is_svc_all (ev : list Event) :
  Forall (fun e => is_svc e = true) ev -> List.filter is_svc ev = ev.
Proof. induction 1 as [|e ev He _ IH]; simpl; [done|]. by rewrite He, IH. Qed.

Lemma svc_calls_post (l : list nat) : svc_calls (map EvPost l) = [].
Proof. induction l; simpl; auto. Qed.

(** A request that no interceptor rejects reaches the service stage;
    the response of the stage goes through the third loop. *)
Lemma pipeline_not_rejected {I Sv : Type} `{IInterceptor I} `{IService Sv}
    (its : list I) (svcs : list Sv) (request : string) (w : World) :
  let r := pipeline its svcs request w in
  let p := pre_pass 0 its request w in
  let f := find_service svcs p.1.1.1.2 p.1.2 in
  ~ rejected r ->
  p.1.1.1.1 = true /\
  svc_calls (trace r) = f.2 /\
  run_services r = f.1.1.2 /\
  match f.1.1.1 with
  | Throw e => response r = Throw e
  | Ret resp => response r = Ret (post_pass 0 p.1.1.2 p.1.1.1.2 resp f.1.2).1.1.1
  end.
Proof.
  unfold pipeline, rejected. simpl.
  pose proof (pre_pass_trace its 0 request w) as Hp.
  destruct (pre_pass 0 its request w) as [[[[ok request'] its1] w1] ev1]. simpl.
  destruct ok.
  - intros _. split; [done|]. subst ev1.
    pose proof (find_service_events svcs request' w1) as Hs.
    destruct (find_service svcs request' w1) as [[[r svcs2] w2] ev2].
    simpl in *. destruct r as [resp|e]; simpl.
    + pose proof (post_pass_trace its1 0 request' resp w2) as Hq.
      destruct (post_pass 0 its1 request' resp w2) as [[[resp' its3] w3] ev3].
      simpl in *. subst ev3. unfold svc_calls.
      rewrite !List.filter_app.
      fold (svc_calls (map (fun j => EvPre j true) (seq 0 (length its)))).
      fold (svc_calls (map EvPost (seq 0 (length its1)))).
      rewrite svc_calls_pre, svc_calls_post, filter_is_svc_all by done.
      by rewrite app_nil_r.
    + unfold svc_calls. rewrite List.filter_app.
      fold (svc_calls (map (fun j => EvPre j true) (seq 0 (length its)))).
      by rewrite svc_calls_pre, filter_is_svc_all.
  - intros Hn. exfalso. apply Hn. destruct Hp as (k & _ & ->).
    exists k. simpl. rewrite in_app_iff. right. by left.
Qed.





(** ** C3: failures inside a service *)

Lemma drop_past_end (s : string) (n : nat) :
  String.length s < n -> Str.drop n s = None.
Proof.
  revert n. induction s as [|c s IH]; intros [|n] Hn; simpl in *; try lia; [done|].
  apply IH. lia.
Qed.

Lemma length_append (a b : string) :
  String.length (a +:+ b) = String.length a + String.length b.
Proof. induction a as [|c a IH]; simpl; [done|]. by rewrite IH. Qed.

(** [EchoService::processRequest] throws on every request whose first
    [ECHO] is its last four characters: [substr(echoPos + 5)] starts one
    past the end. *)
Lemma EchoService_throws_at_end (p : string) :
  Str.find "ECHO" (p +:+ "ECHO") = Some (String.length p) ->
  EchoService_processRequest (p +:+ "ECHO")
  = Throw (out_of_range "basic_string::substr").
Proof.
  intros Hf. unfold EchoService_processRequest. rewrite Hf.
  unfold substr. rewrite drop_past_end; [done|].
  rewrite length_append. simpl. lia.
Qed.

(** C3 fails on the code.  A request that ends at [ECHO] makes
    [EchoService::processRequest] throw [std::out_of_range]; nothing
    catches it, so it leaves [processRequest] of both servers and there
    is no response.  [READ] of a file that cannot be opened answers
    [FILE_CONTENT: ERROR: ...] and a malformed expression after [CAL]
    answers [RESULT: 0.000000]: neither response begins with [ERROR:]. *)
Theorem C3_service_failures_escape :
  let w := quiet_world 0 in
  let hft := hft_server "secret123" in
  let srv := (socket_server "secret123" 10000 w).1 in
  let w' := (socket_server "secret123" 10000 w).2 in
  response (HFTServer.processRequest hft "TOKEN:secret123 ECHO" w)
  = Throw (out_of_range "basic_string::substr") /\
  response (SocketServer.processRequest srv "TOKEN:secret123 ECHO" w')
  = Throw (out_of_range "basic_string::substr") /\
  response (HFTServer.processRequest hft "TOKEN:secret123 READ nofile.txt" w)
  = Ret "FILE_CONTENT: ERROR: Could not open file nofile.txt" /\
  response (SocketServer.processRequest srv "TOKEN:secret123 READ nofile.txt" w')
  = Ret "FILE_CONTENT: ERROR: Could not open file nofile.txt" /\
  response (HFTServer.processRequest hft "TOKEN:secret123 CAL abc" w)
  = Ret "RESULT: 0.000000" /\
  response (HFTServer.processRequest hft "TOKEN:secret123 CAL" w)
  = Throw (out_of_range "basic_string::substr").
Proof. intros w hft srv w'. evaluate. Qed.

(** ** C4 and C7: the hand-off queue *)

Section QueueFacts.
Import LockFreeQueue.
Context {T : Type} `{Inhabited T}.

(** [enqueue] returns [true] in every state: [get_node] never returns
    a null pointer. *)
Lemma enqueue_returns_true (q : Queue T) (item : T) : (enqueue q item).1 = true.
Proof. reflexivity. Qed.

(** [enqueue] stores the item in the node that [pool_index] selects,
    whatever that node holds. *)
Lemma enqueue_overwrites (q : Queue T) (item : T) :
  pool q <> [] ->
  let n := N.to_nat (pool_index q mod N.of_nat (length (pool q)))%N in
  data (pool (enqueue q item).2 !!! n) = item.
Proof.
  intros Hne n. unfold enqueue, get_node, set_next. simpl. fold n.
  assert (Hn : n < length (pool q)).
  { unfold n. destruct (pool q) as [|x l]; [done|].
    pose proof (N.mod_upper_bound (pool_index q) (N.of_nat (length (x :: l)))).
    simpl in *. lia. }
  destruct (decide (tail q = n)) as [->|Hneq].
  - rewrite list_lookup_total_alter_eq by (by rewrite length_insert).
    simpl. by rewrite list_lookup_total_insert_eq.
  - rewrite list_lookup_total_alter_ne by done.
    by rewrite list_lookup_total_insert_eq.
Qed.

(** A worker that runs its four steps without another thread in
    between performs [dequeue]. *)
Lemma dequeue_steps_atomic (q : Queue T) :
  run_schedule [0; 0; 0; 0] q [DqStart]
  = ((dequeue q).2, [DqDone (dequeue q).1]).
Proof.
  unfold dequeue. simpl.
  destruct (next (pool q !!! head q)) as [new_head|]; reflexivity.
Qed.
End QueueFacts.

(** C4 fails on the code: [enqueue] never returns [false].  In a queue
    built with two nodes that has accepted two items and delivered none,
    a third [enqueue] returns [true] and writes its item into node 0,
    which held the first item; afterwards [dequeue] finds nothing, so
    none of the three accepted items is delivered. *)
Theorem C4_enqueue_on_full_queue_accepts :
  let a := make_pair 4 "TOKEN:secret123 ECHO a" in
  let b := make_pair 4 "TOKEN:secret123 ECHO b" in
  let c := make_pair 5 "TOKEN:secret123 ECHO c" in
  let full := (LockFreeQueue.run_ops
                 [LockFreeQueue.Enq a; LockFreeQueue.Enq b]
                 (LockFreeQueue.new 2)).2 in
  (forall (q : LockFreeQueue.Queue WorkItem) (item : WorkItem),
      (LockFreeQueue.enqueue q item).1 = true) /\
  LockFreeQueue.data (LockFreeQueue.pool full !!! 0) = a /\
  (LockFreeQueue.enqueue full c).1 = true /\
  (LockFreeQueue.enqueue full c).2 <> full /\
  LockFreeQueue.data (LockFreeQueue.pool (LockFreeQueue.enqueue full c).2 !!! 0) = c /\
  (LockFreeQueue.run_ops [LockFreeQueue.Deq; LockFreeQueue.Deq]
     (LockFreeQueue.enqueue full c).2).1.1 = [None; None].
Proof.
  intros a b c full. split; [intros; apply enqueue_returns_true|].
  repeat split; try by vm_compute.
Qed.

(** C7 fails on the code.  With three items [a], [b], [c] accepted, two
    workers that run [dequeue] at the same time, their steps
    alternating, both return [b].  Without any overlap: after one
    accepted item, every [dequeue] returns it again; and of two accepted
    items the first is never delivered. *)
Theorem C7_dequeue_delivers_twice_and_loses :
  let a := make_pair 4 "TOKEN:secret123 ECHO a" in
  let b := make_pair 4 "TOKEN:secret123 ECHO b" in
  let c := make_pair 5 "TOKEN:secret123 ECHO c" in
  let q3 := (LockFreeQueue.run_ops
               [LockFreeQueue.Enq a; LockFreeQueue.Enq b; LockFreeQueue.Enq c]
               (LockFreeQueue.new 50000)).2 in
  (LockFreeQueue.run_schedule [0; 1; 0; 1; 0; 1; 0; 1] q3
     [LockFreeQueue.DqStart; LockFreeQueue.DqStart]).2
  = [LockFreeQueue.DqDone (Some b); LockFreeQueue.DqDone (Some b)] /\
  (LockFreeQueue.run_ops
     [LockFreeQueue.Enq a; LockFreeQueue.Deq; LockFreeQueue.Deq; LockFreeQueue.Deq]
     (LockFreeQueue.new 50000)).1
  = ([Some a; Some a; Some a], [true]) /\
  (LockFreeQueue.run_ops
     [LockFreeQueue.Enq a; LockFreeQueue.Enq b; LockFreeQueue.Deq; LockFreeQueue.Deq]
     (LockFreeQueue.new 50000)).1
  = ([Some b; None], [true; true]).
Proof. intros a b c q3. evaluate. Qed.

(** ** C5: authentication *)

Lemma strip_prefix_Some (p s rest : string) :
  strip_prefix p s = Some rest -> s = p +:+ rest.
Proof.
  revert s. induction p as [|a p IH]; intros s; simpl.
  - by intros [= ->].
  - destruct s as [|b s]; [done|].
    destruct (Ascii.eqb_spec a b) as [->|]; [|done].
    intros Hs. by rewrite (IH _ Hs).
Qed.

Lemma strip_prefix_app (p s : string) : strip_prefix p (p +:+ s) = Some s.
Proof. induction p as [|a p IH]; simpl; [done|]. by rewrite Ascii.eqb_refl. Qed.

Lemma strip_prefix_None (p s : string) :
  Str.starts_with p s = false -> strip_prefix p s = None.
Proof.
  revert s. induction p as [|a p IH]; intros s; simpl; [done|].
  destruct s as [|b s]; [done|]. destruct (Ascii.eqb a b); auto.
Qed.

Lemma append_nil (b : string) : "" +:+ b = b.
Proof. reflexivity. Qed.

Lemma append_cons (c : ascii) (a b : string) :
  String c a +:+ b = String c (a +:+ b).
Proof. reflexivity. Qed.

Lemma take_nonspace_prefix (s : string) : exists b, s = take_nonspace s +:+ b.
Proof.
  induction s as [|c s [b IH]]; simpl; [by exists ""|].
  destruct (is_space c); [by eexists|].
  exists b. change (String c s = String c (take_nonspace s +:+ b)). by f_equal.
Qed.

Lemma take_nonspace_token (t post : string) :
  has_space t = false -> token_end post = true -> take_nonspace (t +:+ post) = t.
Proof.
  intros Ht Hp. induction t as [|c t IH].
  - rewrite append_nil. destruct post as [|d post]; simpl in *; [done|].
    by rewrite Hp.
  - rewrite append_cons. simpl in *.
    apply orb_false_iff in Ht as [-> Ht]. by rewrite IH.
Qed.

Lemma append_assoc (a b c : string) : (a +:+ b) +:+ c = a +:+ b +:+ c.
Proof.
  induction a as [|x a IH]; [done|]. rewrite !append_cons. by f_equal.
Qed.

(** What the regular expression finds is in the request, behind
    [TOKEN:]. *)
Lemma regex_search_token_Some (request token : string) :
  regex_search_token request = Some token ->
  exists a b, request = a +:+ "TOKEN:" +:+ token +:+ b.
Proof.
  assert (Hhere : forall s, match strip_prefix "TOKEN:" s with
            | Some rest => match take_nonspace rest with
                           | EmptyString => None
                           | tok => Some tok
                           end
            | None => None
            end = Some token -> exists b, s = "TOKEN:" +:+ token +:+ b).
  { intros s. destruct (strip_prefix "TOKEN:" s) as [rest|] eqn:E; [|done].
    apply strip_prefix_Some in E as ->.
    destruct (take_nonspace_prefix rest) as [b Hb].
    destruct (take_nonspace rest) as [|c t] eqn:Et; [done|].
    intros [= <-]. exists b. by rewrite Hb at 1. }
  induction request as [|c request IH].
  - intros Hs. destruct (Hhere "" Hs) as [b Hb]. by exists "", b.
  - intros Hs. unfold regex_search_token in Hs. fold regex_search_token in Hs.
    destruct (match strip_prefix "TOKEN:" (String c request) with
              | Some rest => match take_nonspace rest with
                             | EmptyString => None
                             | tok => Some tok
                             end
              | None => None
              end) as [tok|] eqn:E.
    + injection Hs as ->. destruct (Hhere _ E) as [b Hb]. by exists "", b.
    + destruct (IH Hs) as (a & b & ->). by exists (String c a), b.
Qed.

(** [preProcess] of the authentication interceptor returns [true] only
    on a request that contains [TOKEN:] followed by the valid token. *)
Lemma AuthenticationInterceptor_sound (validToken request : string) :
  AuthenticationInterceptor_preProcess validToken request = true ->
  Str.find ("TOKEN:" +:+ validToken) request <> None.
Proof.
  unfold AuthenticationInterceptor_preProcess.
  destruct (regex_search_token request) as [token|] eqn:E; [|done].
  destruct (String.eqb_spec token validToken) as [->|]; [|done].
  intros _. apply regex_search_token_Some in E as (a & b & ->).
  rewrite <- (append_assoc "TOKEN:" validToken b).
  apply find_app_None.
Qed.

Lemma regex_search_token_here (s rest token : string) :
  strip_prefix "TOKEN:" s = Some rest -> take_nonspace rest = token ->
  token <> "" -> regex_search_token s = Some token.
Proof.
  intros Hs Ht Hne. destruct token as [|c t]; [done|].
  destruct s as [|d s]; [done|].
  unfold regex_search_token. fold regex_search_token. by rewrite Hs, Ht.
Qed.

Lemma regex_search_token_skip (c : ascii) (s : string) :
  strip_prefix "TOKEN:" (String c s) = None ->
  regex_search_token (String c s) = regex_search_token s.
Proof.
  intros Hs. unfold regex_search_token. fold regex_search_token. by rewrite Hs.
Qed.

(** The first [TOKEN:] of the request, followed by a token that ends at
    white space or at the end of the request, is what the regular
    expression finds. *)
Lemma regex_search_token_first (pre token post : string) :
  token <> "" -> has_space token = false -> token_end post = true ->
  Str.find "TOKEN:" (pre +:+ "TOKEN:" +:+ token +:+ post) = Some (String.length pre) ->
  regex_search_token (pre +:+ "TOKEN:" +:+ token +:+ post) = Some token.
Proof.
  intros Hne Hsp Hend.
  induction pre as [|c pre IH].
  - intros _. rewrite append_nil.
    apply (regex_search_token_here _ (token +:+ post)); [|by apply take_nonspace_token|done].
    apply strip_prefix_app.
  - rewrite append_cons, find_cons.
    destruct (Str.starts_with "TOKEN:" (String c (pre +:+ "TOKEN:" +:+ token +:+ post)))
      eqn:E; [done|].
    destruct (Str.find "TOKEN:" (pre +:+ "TOKEN:" +:+ token +:+ post)) as [n|] eqn:F;
      [|done].
    intros [= Hn]. subst n.
    rewrite regex_search_token_skip by (by apply strip_prefix_None).
    by apply IH.
Qed.

(** An authentication interceptor in the vector that does not accept the
    request stops the first loop: the interceptors before it either
    stop the loop themselves or leave the request as it is. *)
Lemma pre_pass_member_rejects (its : list Interceptor) (validToken : string)
    (i : nat) (request : string) (w : World) :
  In (AuthenticationInterceptor validToken) its ->
  AuthenticationInterceptor_preProcess validToken request = false ->
  (pre_pass i its request w).1.1.1.1 = false.
Proof.
  intros Hin Hrej. revert i w.
  induction its as [|it rest IH]; intros i w; [done|]. simpl.
  pose proof (preProcess_request it request w) as Hr.
  destruct (preProcess it request w) as [[[ok request'] it'] w'] eqn:E.
  simpl in Hr. subst request'. destruct ok; [|done].
  destruct Hin as [->|Hin].
  - unfold preProcess in E. simpl in E. congruence.
  - specialize (IH Hin (S i) w').
    by destruct (pre_pass (S i) rest request w') as [[[[b r''] rest'] w''] ev].
Qed.

Lemma pipeline_pre_false {I Sv : Type} `{IInterceptor I} `{IService Sv}
    (its : list I) (svcs : list Sv) (request : string) (w : World) :
  (pre_pass 0 its request w).1.1.1.1 = false ->
  rejected (pipeline its svcs request w).
Proof.
  unfold pipeline, rejected.
  pose proof (pre_pass_trace its 0 request w) as Hp.
  destruct (pre_pass 0 its request w) as [[[[ok request'] its1] w1] ev1].
  simpl. intros ->. destruct Hp as (k & _ & ->). exists k. simpl.
  rewrite in_app_iff. right. by left.
Qed.



(** ** C6: the order of the interceptor vector *)

Section Registration.
Context `{StdSort} {I Sv : Type} `{IInterceptor I} `{IService Sv}.

Lemma hft_addInterceptor_all (added : list I) (srv : Server I Sv) :
  sorted_by_priority (interceptors srv) ->
  sorted_by_priority (interceptors (foldl HFTServer.addInterceptor srv added)) /\
  Permutation (interceptors srv ++ added)
              (interceptors (foldl HFTServer.addInterceptor srv added)).
Proof.
  revert srv. induction added as [|x added IH]; intros srv Hs; simpl.
  - by rewrite app_nil_r.
  - destruct (IH (HFTServer.addInterceptor srv x)) as [IH1 IH2].
    + apply std_sort_sorted.
    + split; [exact IH1|]. rewrite <- IH2. simpl.
      rewrite <- std_sort_perm. by rewrite <- app_assoc.
Qed.

Lemma socket_addInterceptor_all (added : list I) (srv : Server I Sv) :
  interceptors (foldl SocketServer.addInterceptor srv added)
  = interceptors srv ++ added /\
  services (foldl SocketServer.addInterceptor srv added) = services srv.
Proof.
  revert srv. induction added as [|x added IH]; intros srv; simpl.
  - by rewrite app_nil_r.
  - destruct (IH (SocketServer.addInterceptor srv x)) as [-> ->]. simpl.
    by rewrite <- app_assoc.
Qed.
End Registration.

(** With an implementation of [std::sort] that keeps equal elements in
    their order, interceptors of equal priority stay in insertion
    order. *)
Lemma insert_sorted_filter {A : Type} (key : A -> Z) (p : Z) (x : A) (l : list A) :
  filter (fun a => key a = p) (insert_sorted (fun a b => (key a <? key b)%Z) x l)
  = filter (fun a => key a = p) (x :: l).
Proof.
  induction l as [|y l IH]; simpl; [done|].
  destruct (Z.ltb_spec (key y) (key x)) as [Hlt|Hge]; [|done].
  rewrite filter_cons, IH, !filter_cons.
  destruct (decide (key y = p)), (decide (key x = p)); try done. lia.
Qed.

Lemma insertion_sort_filter {A : Type} (key : A -> Z) (p : Z) (l : list A) :
  filter (fun a => key a = p) (insertion_sort (fun a b => (key a <? key b)%Z) l)
  = filter (fun a => key a = p) l.
Proof.
  induction l as [|x l IH]; simpl; [done|].
  by rewrite insert_sorted_filter, !filter_cons, IH.
Qed.

Lemma hft_ties_under_stable_sort {I Sv : Type} `{IInterceptor I} `{IService Sv}
    (added : list I) (srv : Server I Sv) :
  ties_in_insertion_order (interceptors srv ++ added)
    (interceptors (foldl (HFTServer.addInterceptor (H1 := insertion_StdSort)) srv added)).
Proof.
  revert srv. induction added as [|x added IH]; intros srv p; simpl.
  - by rewrite app_nil_r.
  - rewrite IH. simpl. rewrite !filter_app.
    rewrite (insertion_sort_filter getPriority p (interceptors srv ++ [x])).
    change (x :: added) with ([x] ++ added).
    by rewrite !filter_app, <- app_assoc.
Qed.



(** ** C8: rate limiting *)

Lemma duration_cast_seconds_lt (d : Z) :
  (d < 60 * ticks_per_second)%Z -> (duration_cast_seconds d < 60)%Z.
Proof.
  unfold duration_cast_seconds, ticks_per_second. intros Hd.
  destruct (Z.le_gt_cases 0 d) as [Hpos|Hneg].
  - apply Z.quot_lt_upper_bound; lia.
  - assert (d ÷ 1000000000 <= 0)%Z; [|lia].
    rewrite <- (Z.opp_involutive d), Z.quot_opp_l by lia.
    assert (0 <= (- d) ÷ 1000000000)%Z by (apply Z.quot_pos; lia). lia.
Qed.

Lemma duration_cast_seconds_ge (d : Z) :
  (60 * ticks_per_second <= d)%Z -> (60 <= duration_cast_seconds d)%Z.
Proof.
  unfold duration_cast_seconds, ticks_per_second. intros Hd.
  apply Z.quot_le_lower_bound; lia.
Qed.

Lemma int_wrap_small (z : Z) : (int_min <= z <= int_max)%Z -> int_wrap z = z.
Proof.
  unfold int_wrap, int_min, int_max. intros Hz.
  rewrite Z.mod_small; lia.
Qed.

(** Inside a window a call is accepted exactly when the counter is below
    the limit, and an accepted call adds one to the counter. *)
Lemma RateLimitingInterceptor_in_window (now_ : Z) (self : RateLimiter) :
  (now_ - lastReset self < 60 * ticks_per_second)%Z ->
  (0 <= currentRequests self)%Z -> (maxRequests self <= int_max)%Z ->
  RateLimitingInterceptor_preProcess now_ self
  = if (currentRequests self <? maxRequests self)%Z
    then (true, mkRateLimiter (maxRequests self) (currentRequests self + 1)
                  (lastReset self))
    else (false, self).
Proof.
  intros Hw Hc Hm. unfold RateLimitingInterceptor_preProcess.
  apply duration_cast_seconds_lt in Hw.
  destruct (Z.leb_spec 60 (duration_cast_seconds (now_ - lastReset self))); [lia|].
  destruct (Z.leb_spec (maxRequests self) (currentRequests self)),
           (Z.ltb_spec (currentRequests self) (maxRequests self)); try lia; [done|].
  rewrite int_wrap_small; [done|]. unfold int_min, int_max in *. lia.
Qed.

Lemma rate_run_in_window (times : list Z) (K c t0 : Z) (n : nat) :
  (0 <= K <= int_max)%Z -> c = Z.min (Z.of_nat n) K ->
  Forall (fun t => (t - t0 < 60 * ticks_per_second)%Z) times ->
  (rate_run times (mkRateLimiter K c t0)).1
  = map (fun i => bool_decide (Z.of_nat i < K)%Z) (seq n (length times)).
Proof.
  intros HK Hn Hall. revert c n Hn.
  induction Hall as [|t times Ht _ IH]; intros c n Hn; [done|].
  simpl. rewrite RateLimitingInterceptor_in_window by (simpl; lia). simpl.
  destruct (Z.ltb_spec c K) as [Hlt|Hge].
  - specialize (IH (c + 1)%Z (S n)).
    destruct (rate_run times (mkRateLimiter K (c + 1) t0)) as [oks self'].
    simpl in *. rewrite IH by lia.
    f_equal. rewrite bool_decide_eq_true_2; [done|lia].
  - specialize (IH c (S n)).
    destruct (rate_run times (mkRateLimiter K c t0)) as [oks self'].
    simpl in *. rewrite IH by lia.
    f_equal. rewrite bool_decide_eq_false_2; [done|lia].
Qed.

(** C8, as the code has it.  For a limit [K >= 0]: of the [preProcess]
    calls made less than 60 seconds after the last reset, counted from
    a counter at zero, the first [K] return [true] and every later one,
    the [(K+1)]-th first, returns [false].  A call made 60 seconds or
    more after the last reset sets the counter to zero and the reset
    time to the time of the call; it returns [true], and counts as the
    first call of the new window, when [K >= 1]. *)
Theorem C8_rate_limit_window (K : Z) :
  (0 <= K <= int_max)%Z ->
  (forall (t0 : Z) (times : list Z),
      Forall (fun t => (t - t0 < 60 * ticks_per_second)%Z) times ->
      (rate_run times (mkRateLimiter K 0 t0)).1
      = map (fun i => bool_decide (i < Z.to_nat K)) (seq 0 (length times))) /\
  (forall (self : RateLimiter) (now_ : Z),
      maxRequests self = K -> (1 <= K)%Z ->
      (60 * ticks_per_second <= now_ - lastReset self)%Z ->
      RateLimitingInterceptor_preProcess now_ self
      = (true, mkRateLimiter K 1 now_)).
Proof.
  intros HK. split.
  - intros t0 times Hall.
    rewrite (rate_run_in_window times K 0 t0 0) by (auto; lia).
    apply map_ext. intros i. apply bool_decide_ext. lia.
  - intros self now_ <- H1 Hw.
    unfold RateLimitingInterceptor_preProcess.
    apply duration_cast_seconds_ge in Hw.
    destruct (Z.leb_spec 60 (duration_cast_seconds (now_ - lastReset self))); [|lia].
    simpl. destruct (Z.leb_spec (maxRequests self) 0); [lia|].
    by rewrite int_wrap_small by (unfold int_min, int_max; lia).
Qed.

Lemma C8_rate_limit_window_witness :
  (0 <= 2 <= int_max)%Z /\
  (Forall (fun t => (t - 0 < 60 * ticks_per_second)%Z) [5; 6; 7; 8]%Z /\
   (rate_run [5; 6; 7; 8]%Z (mkRateLimiter 2 0 0)).1
   = map (fun i => bool_decide (i < Z.to_nat 2)) (seq 0 4)) /\
  (maxRequests (mkRateLimiter 2 2 0) = 2%Z /\ (1 <= 2)%Z /\
   (60 * ticks_per_second <= 60000000000 - lastReset (mkRateLimiter 2 2 0))%Z /\
   RateLimitingInterceptor_preProcess 60000000000 (mkRateLimiter 2 2 0)
   = (true, mkRateLimiter 2 1 60000000000)).
Proof.
  assert (HK : (0 <= 2 <= int_max)%Z) by (unfold int_max; lia).
  destruct (C8_rate_limit_window 2 HK) as [HA HB].
  split; [exact HK|]. split.
  - assert (Hall : Forall (fun t => (t - 0 < 60 * ticks_per_second)%Z) [5; 6; 7; 8]%Z)
      by (repeat constructor; unfold ticks_per_second; lia).
    split; [exact Hall|]. exact (HA 0%Z [5; 6; 7; 8]%Z Hall).
  - assert (Hw : (60 * ticks_per_second
                  <= 60000000000 - lastReset (mkRateLimiter 2 2 0))%Z)
      by (unfold ticks_per_second; simpl; lia).
    split; [reflexivity|]. split; [lia|]. split; [exact Hw|].
    exact (HB (mkRateLimiter 2 2 0) 60000000000%Z eq_refl ltac:(lia) Hw).
Defined.

(** C8 as stated fails for the limit 0: 60 seconds after the last reset
    the counter is reset, and the next call still returns [false]. *)
Lemma C8_limit_zero_never_accepts :
  let w := mkWorld (fun n => Z.of_nat n * 60 * ticks_per_second)%Z 0 ∅ (fun _ => true) in
  let limiter := (new_RateLimitingInterceptor 0 w).1 in
  let w' := (new_RateLimitingInterceptor 0 w).2 in
  limiter = RateLimitingInterceptor (mkRateLimiter 0 0 0) /\
  (60 * ticks_per_second <= (now w').1 - 0)%Z /\
  preProcess limiter "TOKEN:secret123 ECHO Hi" w'
  = (false, "TOKEN:secret123 ECHO Hi",
     RateLimitingInterceptor (mkRateLimiter 0 0 (60 * ticks_per_second)),
     (now w').2).
Proof. intros w limiter w'. split; [done|]. split; [by vm_compute|]. reflexivity. Qed.

(** ** C10: the request is not rewritten *)

(** Every service call of a run is a call of the service stage, made on
    the request that the first loop left. *)
Lemma pipeline_svc_request {I Sv : Type} `{IInterceptor I} `{IService Sv}
    (its : list I) (svcs : list Sv) (request : string) (w : World)
    (j : nat) (request' : string) (out : outcome string) :
  In (EvSvc j request' out) (trace (pipeline its svcs request w)) ->
  request' = (pre_pass 0 its request w).1.1.1.2.
Proof.
  unfold pipeline.
  pose proof (pre_pass_trace its 0 request w) as Hp.
  destruct (pre_pass 0 its request w) as [[[[ok req1] its1] w1] ev1]. simpl.
  assert (Hev1 : ~ In (EvSvc j request' out) ev1).
  { destruct ok.
    - subst ev1. rewrite in_map_iff. by intros (? & [=] & _).
    - destruct Hp as (k & _ & ->). rewrite in_app_iff, in_map_iff.
      intros [(? & [=] & _)|[[=]|[]]]. }
  destruct ok; [|done].
  unfold find_service.
  pose proof (dispatch_calls svcs 0 req1 w1 "") as Hd.
  destruct (dispatch 0 svcs req1 w1 "") as [[[r svcs2] w2] ev2]. simpl in Hd.
  assert (Hev2 : In (EvSvc j request' out) ev2 -> request' = req1).
  { intros Hin. rewrite Forall_forall in Hd.
    apply list_elem_of_In in Hin.
    destruct (Hd _ Hin) as (i & s & w0 & _ & [= _ -> _]). done. }
  destruct r as [resp|e]; simpl.
  - pose proof (post_pass_trace its1 0 req1
                  (if Str.empty resp then NO_SERVICE else resp) w2) as Hq.
    destruct (post_pass 0 its1 req1 (if Str.empty resp then NO_SERVICE else resp) w2)
      as [[[resp' its3] w3] ev3].
    simpl in *. subst ev3. rewrite !in_app_iff, in_map_iff.
    intros [?|[?|(? & [=] & _)]]; [done|auto].
  - rewrite in_app_iff. intros [?|?]; [done|auto].
Qed.

(** C10: [preProcess] of each of the four interceptors returns with the
    request it was given, so in a run of [processRequest] of either
    server every service is called on the request as it was received. *)
Theorem C10_request_not_rewritten `{StdSort} {Sv : Type} `{IService Sv} :
  (forall (i : Interceptor) (request : string) (w : World),
      (preProcess i request w).1.1.2 = request) /\
  (forall (srv : Server Interceptor Sv) (request : string) (w : World)
          (r : Run Interceptor Sv),
      r = SocketServer.processRequest srv request w \/
      r = HFTServer.processRequest srv request w ->
      forall (j : nat) (request' : string) (out : outcome string),
        In (EvSvc j request' out) (trace r) -> request' = request).
Proof.
  split; [apply preProcess_request|].
  intros srv request w r [-> | ->] j request' out Hin;
    apply pipeline_svc_request in Hin; by rewrite pre_pass_request in Hin.
Qed.

Lemma C10_request_not_rewritten_witness :
  let srv := (socket_server "secret123" 10000 (quiet_world 0)).1 in
  let w := (socket_server "secret123" 10000 (quiet_world 0)).2 in
  let request := "TOKEN:secret123 CAL 2 + 3" in
  let r := SocketServer.processRequest srv request w in
  In (EvSvc 1 request (Ret "RESULT: 3.000000")) (trace r) /\
  request = request.
Proof.
  intros srv w request r.
  assert (Hin : In (EvSvc 1 request (Ret "RESULT: 3.000000")) (trace r))
    by (vm_compute; auto 10).
  split; [exact Hin|].
  exact (proj2 (C10_request_not_rewritten (Sv := Service)) srv request w r
           (or_introl eq_refl) 1 request (Ret "RESULT: 3.000000") Hin).
Defined.

(** ** C9: the echo service *)

Lemma find_skip (needle : string) (c : ascii) (s : string) :
  Str.starts_with needle (String c s) = false ->
  Str.find needle (String c s) = option_map S (Str.find needle s).
Proof. intros E. by rewrite find_cons, E. Qed.

Lemma find_None_cons (needle : string) (c : ascii) (s : string) :
  Str.find needle (String c s) = None ->
  Str.starts_with needle (String c s) = false /\ Str.find needle s = None.
Proof.
  rewrite find_cons. destruct (Str.starts_with needle (String c s)); [done|].
  by destruct (Str.find needle s).
Qed.

(** A space cannot be inside an occurrence of [ECHO]. *)
Lemma starts_with_ECHO_space (s t : string) :
  Str.starts_with "ECHO" (s +:+ String " " t) = Str.starts_with "ECHO" s.
Proof.
  destruct s as [|a [|b [|c [|d s]]]];
    rewrite ?append_cons, ?append_nil; simpl;
    repeat match goal with
           | |- context [Ascii.eqb ?u ?v] => destruct (Ascii.eqb u v)
           end; reflexivity.
Qed.

Lemma find_ECHO_after (s x : string) :
  Str.find "ECHO" s = None ->
  Str.find "ECHO" (s +:+ " ECHO " +:+ x) = Some (String.length s + 1).
Proof.
  induction s as [|c s IH]; intros Hf.
  - reflexivity.
  - apply find_None_cons in Hf as [Hs Hf].
    rewrite append_cons, find_skip.
    + rewrite (IH Hf). reflexivity.
    + rewrite <- append_cons.
      change (" ECHO " +:+ x) with (String " " ("ECHO " +:+ x)).
      by rewrite starts_with_ECHO_space.
Qed.

Lemma find_ECHO_request (secret x : string) :
  Str.find "ECHO" secret = None ->
  Str.find "ECHO" (echo_request secret x) = Some (String.length secret + 7).
Proof.
  intros Hf. unfold echo_request.
  change ("TOKEN:" +:+ secret +:+ " ECHO " +:+ x)
    with (String "T" (String "O" (String "K" (String "E" (String "N" (String ":"
            (secret +:+ " ECHO " +:+ x))))))).
  do 3 (rewrite find_skip by reflexivity).
  rewrite find_skip by (simpl; reflexivity).
  do 2 (rewrite find_skip by reflexivity).
  rewrite find_ECHO_after by done. simpl. f_equal. lia.
Qed.

(** The echo service on a request of the wire format. *)
Lemma EchoService_echo_request (secret x : string) :
  Str.find "ECHO" secret = None ->
  EchoService_processRequest (echo_request secret x) = Ret ("ECHO: " +:+ x).
Proof.
  intros Hf. unfold EchoService_processRequest.
  rewrite find_ECHO_request by done. unfold substr.
  replace (echo_request secret x) with (("TOKEN:" +:+ secret +:+ " ECHO ") +:+ x)
    by (unfold echo_request; by rewrite !append_assoc).
  replace (String.length secret + 7 + 5)
    with (String.length ("TOKEN:" +:+ secret +:+ " ECHO "))
    by (rewrite !length_append; simpl; lia).
  by rewrite drop_app_length.
Qed.

Lemma AuthenticationInterceptor_echo_request (secret x : string) :
  secret <> "" -> has_space secret = false ->
  AuthenticationInterceptor_preProcess secret (echo_request secret x) = true.
Proof.
  intros Hne Hsp. unfold AuthenticationInterceptor_preProcess.
  change (echo_request secret x)
    with ("" +:+ "TOKEN:" +:+ secret +:+ (" ECHO " +:+ x)).
  rewrite regex_search_token_first; [by rewrite String.eqb_refl|done..|].
  rewrite append_nil. apply find_starts_with, starts_with_app.
Qed.

Lemma admits_preProcess (request : string) (i : Interceptor) (w : World) :
  admits request i = true -> (preProcess i request w).1.1.1 = true.
Proof.
  destruct i as [st|tok|self|]; unfold preProcess; simpl; try done.
  intros Ha. apply andb_true_iff in Ha as [Ha Hm].
  apply andb_true_iff in Ha as [H0 Hc].
  apply Z.leb_le in H0, Hm. apply Z.ltb_lt in Hc.
  unfold RateLimitingInterceptor_preProcess.
  destruct (60 <=? duration_cast_seconds (w_clock w (w_reads w) - lastReset self))%Z;
    simpl.
  - destruct (Z.leb_spec (maxRequests self) 0); [lia|done].
  - destruct (Z.leb_spec (maxRequests self) (currentRequests self)); [lia|done].
Qed.

Lemma pre_pass_admits (its : list Interceptor) (i : nat) (request : string)
    (w : World) :
  Forall (fun it => admits request it = true) its ->
  (pre_pass i its request w).1.1.1.1 = true.
Proof.
  intros Hall. revert i w.
  induction Hall as [|it rest Hit _ IH]; intros i w; [done|]. simpl.
  pose proof (admits_preProcess request it w Hit) as Hok.
  pose proof (preProcess_request it request w) as Hr.
  destruct (preProcess it request w) as [[[ok request'] it'] w'].
  simpl in *. subst ok request'.
  specialize (IH (S i) w').
  by destruct (pre_pass (S i) rest request w') as [[[[b r''] rest'] w''] ev].
Qed.

Lemma pipeline_pre_true {I Sv : Type} `{IInterceptor I} `{IService Sv}
    (its : list I) (svcs : list Sv) (request : string) (w : World) :
  (pre_pass 0 its request w).1.1.1.1 = true ->
  ~ rejected (pipeline its svcs request w).
Proof.
  unfold pipeline, rejected.
  pose proof (pre_pass_trace its 0 request w) as Hp.
  destruct (pre_pass 0 its request w) as [[[[ok request'] its1] w1] ev1].
  simpl. intros -> [i Hin]. subst ev1.
  pose proof (find_service_events svcs request' w1) as Hs.
  destruct (find_service svcs request' w1) as [[[r svcs2] w2] ev2].
  simpl in Hs.
  assert (Hev2 : ~ In (EvPre i false) ev2).
  { intros Hi. rewrite Forall_forall in Hs.
    apply list_elem_of_In in Hi. by specialize (Hs _ Hi). }
  destruct r as [resp|e]; simpl in Hin.
  - pose proof (post_pass_trace its1 0 request' resp w2) as Hq.
    destruct (post_pass 0 its1 request' resp w2) as [[[resp' its3] w3] ev3].
    simpl in Hq, Hin. subst ev3.
    rewrite !in_app_iff in Hin. destruct Hin as [Hin|[Hin|Hin]].
    + by apply not_In_pre_true in Hin.
    + done.
    + apply in_map_iff in Hin. by destruct Hin as (j & [=] & _).
  - rewrite in_app_iff in Hin. destruct Hin as [Hin|Hin]; [|done].
    by apply not_In_pre_true in Hin.
Qed.

Lemma find_service_nonempty {Sv : Type} `{IService Sv}
    (svcs : list Sv) (request : string) (w : World) (resp : string) :
  (find_service svcs request w).1.1.1 = Ret resp -> resp <> "".
Proof.
  pose proof (find_service_spec svcs request w) as Hf.
  destruct (find_service svcs request w) as [[[r svcs2] w2] ev2]. simpl.
  destruct Hf as (k & last & _ & [(resp' & _ & Hne & _ & ->)|[(_ & _ & ->)|(e & _ & _ & ->)]]).
  - by intros [= <-].
  - by intros [= <-].
  - done.
Qed.

(** After interceptors of the repository, the response of a request
    that is not rejected is the response of the service stage. *)
Lemma pipeline_response {Sv : Type} `{IService Sv}
    (its : list Interceptor) (svcs : list Sv) (request : string) (w : World) :
  ~ rejected (pipeline its svcs request w) ->
  response (pipeline its svcs request w)
  = (find_service svcs request (pre_pass 0 its request w).1.2).1.1.1.
Proof.
  intros Hn.
  destruct (pipeline_not_rejected its svcs request w Hn) as (_ & _ & _ & Hr).
  rewrite pre_pass_request in Hr.
  pose proof (find_service_nonempty svcs request (pre_pass 0 its request w).1.2) as Hne.
  destruct ((find_service svcs request (pre_pass 0 its request w).1.2).1.1.1)
    as [resp|e]; [|done].
  rewrite Hr, post_pass_response; [done|]. by apply Hne.
Qed.

Lemma find_service_first {Sv : Type} `{IService Sv}
    (s : Sv) (rest : list Sv) (request : string) (w : World) (resp : string) :
  (processRequest s request w).1.1 = Ret resp -> resp <> "" ->
  (find_service (s :: rest) request w).1.1.1 = Ret resp.
Proof.
  intros Hs Hne. unfold find_service. simpl.
  destruct (processRequest s request w) as [[r s'] w']. simpl in Hs. subst r.
  destruct resp; [done|]. reflexivity.
Qed.

(** The socket server, with interceptors that all admit the request and
    the echo service registered first, answers a request of the wire
    format with the echo. *)
Lemma socket_echo `{StdSort} (srv : Server Interceptor Service) (rest : list Service)
    (secret x : string) (w : World) :
  services srv = EchoService :: rest ->
  Forall (fun it => admits (echo_request secret x) it = true) (interceptors srv) ->
  Str.find "ECHO" secret = None ->
  response (SocketServer.processRequest srv (echo_request secret x) w)
  = Ret ("ECHO: " +:+ x).
Proof.
  intros Hsv Hall Hf. unfold SocketServer.processRequest.
  rewrite pipeline_response.
  - rewrite Hsv. apply find_service_first; [|done].
    unfold processRequest. simpl. by apply EchoService_echo_request.
  - apply pipeline_pre_true, pre_pass_admits.
    by rewrite <- std_sort_perm.
Qed.

(** The HFT server of the repository leaves a run of an echo request as
    it entered it. *)
Lemma hft_echo `{StdSort} (secret x : string) (w : World) :
  secret <> "" -> has_space secret = false -> Str.find "ECHO" secret = None ->
  let r := HFTServer.processRequest (hft_server secret) (echo_request secret x) w in
  response r = Ret ("ECHO: " +:+ x) /\
  server_of r = hft_server secret /\
  run_world r = w.
Proof.
  intros Hne Hsp Hf r.
  assert (Hits : interceptors (hft_server secret) = [AuthenticationInterceptor secret]).
  { unfold hft_server, HFTServer.addInterceptor. simpl.
    symmetry. apply Permutation_singleton_l. apply std_sort_perm. }
  assert (Hsv : services (hft_server secret) = registered_services) by reflexivity.
  unfold r, HFTServer.processRequest, server_of. rewrite Hits, Hsv.
  unfold pipeline, pre_pass, preProcess. simpl.
  rewrite AuthenticationInterceptor_echo_request by done.
  unfold find_service, registered_services, dispatch, processRequest. simpl.
  rewrite EchoService_echo_request by done. simpl.
  split; [done|]. split; [|done].
  destruct (hft_server secret) as [its svcs]. simpl in *. by subst.
Qed.

(** C9, as the code has it.  Let the secret be a token of the wire
    format (not empty, no white space) that does not contain [ECHO].
    Then for every [x], the echo service answers the request
    [TOKEN:<secret> ECHO x] with [ECHO: x]; the HFT server, which
    registers authentication only, returns [ECHO: x] and is left
    unchanged by the request, so repeating it gives the same response;
    the socket server, which also registers validation and rate
    limiting, returns [ECHO: x] when the request is at most 1000
    characters long and the counter of the rate limiter is below its
    limit. *)
Theorem C9_echo_verbatim `{StdSort} (secret x : string) :
  secret <> "" -> has_space secret = false -> Str.find "ECHO" secret = None ->
  EchoService_processRequest (echo_request secret x) = Ret ("ECHO: " +:+ x) /\
  (forall w : World,
      let r := HFTServer.processRequest (hft_server secret) (echo_request secret x) w in
      response r = Ret ("ECHO: " +:+ x) /\
      server_of r = hft_server secret /\
      run_world r = w) /\
  (forall (srv : Server Interceptor Service) (startTime : Z) (self : RateLimiter)
          (w : World),
      Permutation (interceptors srv)
        [LoggingInterceptor startTime; AuthenticationInterceptor secret;
         RateLimitingInterceptor self; ValidationInterceptor] ->
      services srv = registered_services ->
      String.length (echo_request secret x) <= 1000 ->
      (0 <= currentRequests self < maxRequests self)%Z ->
      (maxRequests self <= int_max)%Z ->
      response (SocketServer.processRequest srv (echo_request secret x) w)
      = Ret ("ECHO: " +:+ x)).
Proof.
  intros Hne Hsp Hf.
  split; [by apply EchoService_echo_request|].
  split; [intros w; by apply hft_echo|].
  intros srv startTime self w Hperm Hsv Hlen Hc Hm.
  apply (socket_echo srv [CalculatorService; FileService]); [done| |done].
  rewrite Hperm. repeat constructor; simpl.
  - by apply AuthenticationInterceptor_echo_request.
  - apply andb_true_iff. split; [apply andb_true_iff; split|].
    + apply Z.leb_le. lia.
    + apply Z.ltb_lt. lia.
    + by apply Z.leb_le.
  - unfold ValidationInterceptor_preProcess.
    destruct (Nat.ltb_spec 1000 (String.length (echo_request secret x))); [lia|].
    unfold validCommands, hasValidCommand.
    rewrite find_ECHO_request by done. reflexivity.
Qed.

Lemma C9_echo_verbatim_witness :
  let srv := (socket_server "secret123" 10000 (quiet_world 0)).1 in
  let w := (socket_server "secret123" 10000 (quiet_world 0)).2 in
  let self := mkRateLimiter 10000 0 0 in
  let request := echo_request "secret123" "Hello World" in
  ("secret123" <> "" /\ has_space "secret123" = false /\
   Str.find "ECHO" "secret123" = None) /\
  request = "TOKEN:secret123 ECHO Hello World" /\
  EchoService_processRequest request = Ret "ECHO: Hello World" /\
  response (HFTServer.processRequest (hft_server "secret123") request w)
  = Ret "ECHO: Hello World" /\
  (Permutation (interceptors srv)
     [LoggingInterceptor 0; AuthenticationInterceptor "secret123";
      RateLimitingInterceptor self; ValidationInterceptor] /\
   services srv = registered_services /\
   String.length request <= 1000 /\
   (0 <= currentRequests self < maxRequests self)%Z /\
   (maxRequests self <= int_max)%Z /\
   response (SocketServer.processRequest srv request w) = Ret "ECHO: Hello World").
Proof.
  intros srv w self request.
  assert (Hne : "secret123" <> "") by discriminate.
  destruct (C9_echo_verbatim "secret123" "Hello World" Hne eq_refl eq_refl)
    as (Hecho & Hhft & Hsock).
  split; [by repeat split|]. split; [reflexivity|]. split; [exact Hecho|].
  split; [exact (proj1 (Hhft w))|].
  assert (Hperm : Permutation (interceptors srv)
            [LoggingInterceptor 0; AuthenticationInterceptor "secret123";
             RateLimitingInterceptor self; ValidationInterceptor])
    by reflexivity.
  assert (Hlen : String.length request <= 1000) by (vm_compute; lia).
  assert (Hc : (0 <= currentRequests self < maxRequests self)%Z) by (simpl; lia).
  assert (Hm : (maxRequests self <= int_max)%Z) by (unfold int_max; simpl; lia).
  split; [exact Hperm|]. split; [reflexivity|]. split; [exact Hlen|].
  split; [exact Hc|]. split; [exact Hm|].
  exact (Hsock srv 0%Z self w Hperm eq_refl Hlen Hc Hm).
Defined.

(** C9 as stated fails in three ways.  With the secret [ECHO1]
    configured, the request [TOKEN:ECHO1 ECHO hi] is answered from the
    first [ECHO], the one inside the token.  The socket server rejects
    a request of more than 1000 characters, here [x] of 1000 letters.
    And the socket server, whose rate limiter allows 10000 requests per
    minute, answers the first 10000 identical requests of a minute with
    the echo and the next one with the rejection response. *)
Lemma C9_echo_not_always_verbatim :
  let w := quiet_world 0 in
  let srv := (socket_server "secret123" 10000 w).1 in
  let w' := (socket_server "secret123" 10000 w).2 in
  let long := string_of_char 1000 "a" in
  let again := repeat_request 10001 srv (echo_request "secret123" "Hello World") w' in
  response (HFTServer.processRequest (hft_server "ECHO1") (echo_request "ECHO1" "hi") w)
  = Ret "ECHO:  ECHO hi" /\
  response (SocketServer.processRequest srv (echo_request "secret123" long) w')
  = Ret REJECTED /\
  (again !! 0, again !! 9999, again !! 10000)
  = (Some (Ret "ECHO: Hello World"), Some (Ret "ECHO: Hello World"),
     Some (Ret REJECTED)).
Proof. intros w srv w' long again. evaluate. Qed.

(** * More properties of the code *)

(** ** The services alone *)

Lemma find_Some_length (needle s : string) (p : nat) :
  Str.find needle s = Some p -> p + String.length needle <= String.length s.
Proof.
  intros Hf. destruct (find_Some_app _ _ _ Hf) as (a & b & -> & <-).
  change (a ++ needle ++ b)%string with (a +:+ needle +:+ b).
  rewrite !length_append. lia.
Qed.

(** [EchoService::processRequest], case by case: it does not answer a
    request without [ECHO]; it throws when the first [ECHO] ends the
    request; otherwise it drops the one character that follows the
    first [ECHO], whatever it is, and echoes the rest. *)
Theorem EchoService_cases (request : string) :
  match Str.find "ECHO" request with
  | None => EchoService_processRequest request = Ret ""
  | Some p =>
      exists a b, request = a +:+ "ECHO" +:+ b /\ String.length a = p /\
        EchoService_processRequest request
        = match b with
          | EmptyString => Throw (out_of_range "basic_string::substr")
          | String _ rest => Ret ("ECHO: " +:+ rest)
          end
  end.
Proof.
  unfold EchoService_processRequest.
  destruct (Str.find "ECHO" request) as [p|] eqn:Hf; [|done].
  destruct (find_Some_app _ _ _ Hf) as (a & b & -> & <-).
  exists a, b. split; [done|]. split; [done|].
  change (a ++ "ECHO" ++ b)%string with (a +:+ "ECHO" +:+ b).
  unfold substr. destruct b as [|c rest].
  - rewrite drop_past_end; [done|]. rewrite !length_append. simpl. lia.
  - replace (a +:+ "ECHO" +:+ String c rest)
      with ((a +:+ "ECHO" +:+ String c "") +:+ rest)
      by (by rewrite !append_assoc).
    replace (String.length a + 5) with (String.length (a +:+ "ECHO" +:+ String c ""))
      by (rewrite !length_append; simpl; lia).
    by rewrite drop_app_length.
Qed.

Section CalculatorMore.
Context `{Doubles}.

(** [evaluateExpression] throws nothing but its two [runtime_error]s. *)
Lemma evaluate_loop_throws (fuel : nat) (iss : istringstream) (d : double) (e : exn) :
  evaluate_loop fuel iss d = Throw e ->
  e = runtime_error "Division by zero" \/
  exists c, e = runtime_error ("Unknown operator: " +:+ String c "").
Proof.
  revert iss d. induction fuel as [|fuel IH]; intros iss d; simpl; [done|].
  destruct (extract_char iss) as [iss1 op].
  destruct (extract_double iss1 d) as [iss2 d'].
  destruct (is_fail iss2); [done|].
  destruct op as [c|]; [|done].
  repeat match goal with
         | |- context [if ?b then _ else _] => destruct b
         end; try apply IH.
  - intros [= <-]. by left.
  - intros [= <-]. right. by exists c.
Qed.

(** [CalculatorService::processRequest], case by case: no answer
    without [CAL]; [std::out_of_range] when the first [CAL] ends the
    request; otherwise the character after [CAL] is dropped, the rest is
    evaluated, and the response is [RESULT: <value>], [ERROR: Division
    by zero] or [ERROR: Unknown operator: <c>]. *)
Theorem CalculatorService_cases (request : string) :
  match Str.find "CAL" request with
  | None => CalculatorService_processRequest request = Ret ""
  | Some p =>
      exists a b, request = a +:+ "CAL" +:+ b /\ String.length a = p /\
        match b with
        | EmptyString =>
            CalculatorService_processRequest request
            = Throw (out_of_range "basic_string::substr")
        | String _ expression =>
            (exists value, evaluateExpression expression = Ret value /\
               CalculatorService_processRequest request
               = Ret ("RESULT: " +:+ to_string value)) \/
            CalculatorService_processRequest request = Ret "ERROR: Division by zero" \/
            (exists c, CalculatorService_processRequest request
                       = Ret ("ERROR: Unknown operator: " +:+ String c ""))
        end
  end.
Proof.
  unfold CalculatorService_processRequest.
  destruct (Str.find "CAL" request) as [p|] eqn:Hf; [|done].
  destruct (find_Some_app _ _ _ Hf) as (a & b & -> & <-).
  exists a, b. split; [done|]. split; [done|].
  change (a ++ "CAL" ++ b)%string with (a +:+ "CAL" +:+ b).
  unfold substr. destruct b as [|c expression].
  - rewrite drop_past_end; [done|]. rewrite !length_append. simpl. lia.
  - replace (a +:+ "CAL" +:+ String c expression)
      with ((a +:+ "CAL" +:+ String c "") +:+ expression)
      by (by rewrite !append_assoc).
    replace (String.length a + 4) with (String.length (a +:+ "CAL" +:+ String c ""))
      by (rewrite !length_append; simpl; lia).
    rewrite drop_app_length. simpl.
    destruct (evaluateExpression expression) as [value|e] eqn:He.
    + left. by exists value.
    + right. unfold evaluateExpression in He.
      destruct (extract_double (mkStream expression false) double_indet) as [iss r].
      apply evaluate_loop_throws in He as [->|[c' ->]]; [by left|right; by exists c'].
Qed.

(** The calculator keeps no running total: once an operator and an
    operand have been read, the value read before them has no part in
    the result ([2 + 3] evaluates like [7 + 3]). *)
Theorem evaluate_loop_forgets_left_operand (fuel : nat) (iss : istringstream)
    (d1 d2 : double) :
  is_fail (extract_double (extract_char iss).1 d1).1 = false ->
  evaluate_loop (S fuel) iss d1 = evaluate_loop (S fuel) iss d2.
Proof.
  simpl. destruct (extract_char iss) as [iss1 op]. simpl.
  unfold extract_double. destruct (is_fail iss1) eqn:E1; simpl; [congruence|].
  destruct (skip_ws (is_buf iss1)) as [|c rest]; simpl; [done|].
  by destruct (num_get (String c rest)) as [[v ok] rest'].
Qed.
End CalculatorMore.

Lemma evaluate_loop_forgets_left_operand_witness :
  let iss := mkStream " + 3" false in
  is_fail (extract_double (extract_char iss).1 (false, 2%N)).1 = false /\
  evaluate_loop 5 iss (false, 2%N) = evaluate_loop 5 iss (false, 7%N) /\
  evaluate_loop 5 iss (false, 2%N) = Ret (false, 3%N).
Proof.
  intros iss.
  assert (Hf : is_fail (extract_double (extract_char iss).1 (false, 2%N)).1 = false)
    by reflexivity.
  split; [exact Hf|]. split; [|reflexivity].
  exact (evaluate_loop_forgets_left_operand 4 iss (false, 2%N) (false, 7%N) Hf).
Defined.

(** ** The file service *)

Lemma take_app_length (a b : string) : Str.take (String.length a) (a +:+ b) = a.
Proof.
  induction a as [|c a IH]; [by destruct b|].
  rewrite append_cons. simpl. by rewrite IH.
Qed.

Lemma drop_Some_le (pos : nat) (s : string) :
  pos <= String.length s -> exists t, Str.drop pos s = Some t.
Proof.
  revert pos. induction s as [|c s IH]; intros [|pos] Hle; simpl in *;
    try (by eexists); [lia|].
  apply IH. lia.
Qed.

Lemma drop_length (pos : nat) (s t : string) :
  Str.drop pos s = Some t -> String.length s = pos + String.length t.
Proof.
  revert pos. induction s as [|c s IH]; intros [|pos]; simpl; try done.
  - by intros [= <-].
  - by intros [= <-].
  - intros Hd. by rewrite (IH _ Hd).
Qed.

Lemma find_char_after (c : ascii) (a b : string) :
  Str.find (String c "") a = None ->
  Str.find (String c "") (a +:+ String c b) = Some (String.length a).
Proof.
  induction a as [|d a IH]; intros Hf.
  - rewrite append_nil. apply find_starts_with. simpl. by rewrite Ascii.eqb_refl.
  - apply find_None_cons in Hf as [Hs Hf].
    rewrite append_cons, find_skip; [by rewrite (IH Hf)|].
    simpl in *. by destruct (Ascii.eqb c d).
Qed.

Lemma find_char_from_bounds (c : ascii) (pos : nat) (s : string) (sp : nat) :
  Str.find_char_from c pos s = Some sp -> pos <= sp < String.length s.
Proof.
  unfold Str.find_char_from. destruct (Str.drop pos s) as [rest|] eqn:Hd; [|done].
  destruct (Str.find (String c "") rest) as [n|] eqn:Hf; [|done].
  intros [= <-]. apply find_Some_length in Hf. apply drop_length in Hd.
  simpl in Hf. lia.
Qed.

(** Write, then read: a [WRITE] request with a file name without space,
    on a path that can be opened for writing, answers [SUCCESS] and
    stores the content; a [READ] request for that name then answers
    [FILE_CONTENT: <content>].  The requests may carry any prefix (the
    token) in which the keyword does not occur, and the [WRITE] request
    must not contain [READ]. *)
Theorem FileService_write_then_read (p q filename content : string) (w : World) :
  let wreq := p +:+ "WRITE " +:+ filename +:+ " " +:+ content in
  let rreq := q +:+ "READ " +:+ filename in
  let w' := set_files w (<[filename := content]> (w_files w)) in
  Str.find "READ" wreq = None ->
  Str.find "WRITE" wreq = Some (String.length p) ->
  Str.find " " filename = None ->
  w_writable w filename = true ->
  Str.find "READ" rreq = Some (String.length q) ->
  FileService_processRequest wreq w = (Ret "SUCCESS: File written successfully", w') /\
  FileService_processRequest rreq w' = (Ret ("FILE_CONTENT: " +:+ content), w').
Proof.
  intros wreq rreq w' Hnr Hw Hsp Hwr Hr. split.
  - unfold FileService_processRequest. rewrite Hnr, Hw.
    assert (Hsplit : wreq = (p +:+ "WRITE ") +:+ filename +:+ String " " content)
      by (unfold wreq; rewrite !append_assoc; reflexivity).
    assert (Hlen : String.length p + 6 = String.length (p +:+ "WRITE "))
      by (rewrite length_append; simpl; lia).
    unfold Str.find_char_from. rewrite Hlen, Hsplit, drop_app_length.
    rewrite (find_char_after " " filename content Hsp). simpl option_map.
    unfold substr_n, substr. rewrite drop_app_length. simpl.
    replace (String.length (p +:+ "WRITE ") + String.length filename
             - String.length (p +:+ "WRITE ")) with (String.length filename) by lia.
    rewrite take_app_length.
    replace ((p +:+ "WRITE ") +:+ filename +:+ String " " content)
      with (((p +:+ "WRITE ") +:+ filename +:+ " ") +:+ content)
      by (rewrite !append_assoc; reflexivity).
    replace (String.length (p +:+ "WRITE ") + String.length filename + 1)
      with (String.length ((p +:+ "WRITE ") +:+ filename +:+ " "))
      by (rewrite !length_append; simpl; lia).
    rewrite drop_app_length. unfold writeFile. by rewrite Hwr.
  - unfold FileService_processRequest. rewrite Hr. unfold substr.
    replace rreq with ((q +:+ "READ ") +:+ filename)
      by (unfold rreq; by rewrite !append_assoc).
    replace (String.length q + 5) with (String.length (q +:+ "READ "))
      by (rewrite length_append; simpl; lia).
    rewrite drop_app_length. simpl. unfold readFile, w'. simpl.
    by rewrite lookup_insert_eq.
Qed.

Lemma FileService_write_then_read_witness :
  let w := quiet_world 0 in
  let w' := set_files w (<["test.txt" := "Hello from test script!"]> (w_files w)) in
  FileService_processRequest "TOKEN:secret123 WRITE test.txt Hello from test script!" w
  = (Ret "SUCCESS: File written successfully", w') /\
  FileService_processRequest "TOKEN:secret123 READ test.txt" w'
  = (Ret "FILE_CONTENT: Hello from test script!", w').
Proof.
  exact (FileService_write_then_read "TOKEN:secret123 " "TOKEN:secret123 "
           "test.txt" "Hello from test script!" (quiet_world 0)
           eq_refl eq_refl eq_refl eq_refl eq_refl).
Defined.

(** The file service changes the file system only when it answers
    [SUCCESS], and then by setting one file that can be opened for
    writing; a request that contains [READ] anywhere, a [WRITE] request
    among them, changes nothing. *)
Theorem FileService_changes_only_on_success (request : string) (w : World) :
  let r := (FileService_processRequest request w).1 in
  let w' := (FileService_processRequest request w).2 in
  (r <> Ret "SUCCESS: File written successfully" -> w' = w) /\
  (r = Ret "SUCCESS: File written successfully" ->
   exists filename content,
     w_writable w filename = true /\
     w' = set_files w (<[filename := content]> (w_files w))) /\
  (Str.find "READ" request <> None -> w' = w).
Proof.
  unfold FileService_processRequest.
  destruct (Str.find "READ" request) as [readPos|].
  - simpl. split; [done|]. split; [|done].
    destruct (substr request (readPos + 5)); simpl; [|done]. intros [=].
  - destruct (Str.find "WRITE" request) as [writePos|]; [|by simpl].
    destruct (Str.find_char_from " " (writePos + 6) request) as [spacePos|];
      [|by simpl].
    destruct (substr_n request (writePos + 6) (spacePos - (writePos + 6)))
      as [filename|e]; [|by simpl].
    destruct (substr request (spacePos + 1)) as [content|e]; [|by simpl].
    unfold writeFile. destruct (w_writable w filename) eqn:Hw; simpl.
    + split; [done|]. split; [|done]. intros _. by exists filename, content.
    + done.
Qed.

(** The file service throws only on a request that ends at its first
    [READ]; the [WRITE] branch never throws, also when the request ends
    at [WRITE]: it then answers the format error. *)
Theorem FileService_throws_only_at_READ (request : string) (w : World) (e : exn) :
  (FileService_processRequest request w).1 = Throw e ->
  exists a, request = a +:+ "READ" /\ Str.find "READ" request = Some (String.length a).
Proof.
  unfold FileService_processRequest.
  destruct (Str.find "READ" request) as [readPos|] eqn:Hr.
  - simpl. destruct (find_Some_app _ _ _ Hr) as (a & b & -> & <-).
    change (a ++ "READ" ++ b)%string with (a +:+ "READ" +:+ b).
    destruct b as [|c rest].
    + intros _. by exists a.
    + unfold substr.
      replace (a +:+ "READ" +:+ String c rest)
        with ((a +:+ "READ" +:+ String c "") +:+ rest) at 1
        by (by rewrite !append_assoc).
      replace (String.length a + 5)
        with (String.length (a +:+ "READ" +:+ String c ""))
        by (rewrite !length_append; simpl; lia).
      by rewrite drop_app_length.
  - destruct (Str.find "WRITE" request) as [writePos|]; [|done].
    destruct (Str.find_char_from " " (writePos + 6) request) as [spacePos|] eqn:Hs;
      [|done].
    apply find_char_from_bounds in Hs.
    unfold substr_n, substr.
    destruct (drop_Some_le (writePos + 6) request) as [t1 ->]; [lia|].
    destruct (drop_Some_le (spacePos + 1) request) as [t2 ->]; [lia|].
    simpl. by destruct (writeFile _ _ w) as [[] ?].
Qed.

Lemma FileService_throws_only_at_READ_witness :
  (FileService_processRequest "TOKEN:secret123 READ" (quiet_world 0)).1
  = Throw (out_of_range "basic_string::substr") /\
  (FileService_processRequest "TOKEN:secret123 WRITE" (quiet_world 0)).1
  = Ret "ERROR: Invalid write command format" /\
  exists a, "TOKEN:secret123 READ" = a +:+ "READ" /\
    Str.find "READ" "TOKEN:secret123 READ" = Some (String.length a).
Proof.
  split; [reflexivity|]. split; [reflexivity|].
  exact (FileService_throws_only_at_READ "TOKEN:secret123 READ" (quiet_world 0)
           (out_of_range "basic_string::substr") eq_refl).
Defined.

(** ** Authentication: the first token decides *)

(** When the first [TOKEN:] of a request is followed by a token other
    than the configured one, [preProcess] returns [false] whatever
    follows, a later [TOKEN:] with the configured token included: a
    token that merely starts with the configured one is refused too. *)
Theorem AuthenticationInterceptor_first_token_decides
    (validToken pre token post : string) :
  token <> "" -> has_space token = false -> token_end post = true ->
  Str.find "TOKEN:" (pre +:+ "TOKEN:" +:+ token +:+ post) = Some (String.length pre) ->
  token <> validToken ->
  AuthenticationInterceptor_preProcess validToken
    (pre +:+ "TOKEN:" +:+ token +:+ post) = false.
Proof.
  intros Hne Hsp Hend Hf Hdiff. unfold AuthenticationInterceptor_preProcess.
  rewrite regex_search_token_first by done.
  by destruct (String.eqb_spec token validToken).
Qed.

Lemma AuthenticationInterceptor_first_token_decides_witness :
  AuthenticationInterceptor_preProcess "secret123"
    ("" +:+ "TOKEN:" +:+ "secret1234" +:+ " TOKEN:secret123 ECHO Hi") = false.
Proof.
  apply (AuthenticationInterceptor_first_token_decides "secret123" "" "secret1234"
           " TOKEN:secret123 ECHO Hi"); try reflexivity; discriminate.
Defined.

(** ** Validation and the registered services *)

Lemma hasValidCommand_false (request : string) :
  hasValidCommand validCommands request = false ->
  Str.find "ECHO" request = None /\ Str.find "CAL" request = None /\
  Str.find "READ" request = None /\ Str.find "WRITE" request = None.
Proof.
  unfold validCommands, hasValidCommand.
  destruct (Str.find "ECHO" request); [done|].
  destruct (Str.find "CAL" request); [done|].
  destruct (Str.find "READ" request); [done|].
  by destruct (Str.find "WRITE" request).
Qed.

(** A validation interceptor in the vector that refuses the request
    stops the first loop. *)
Lemma pre_pass_validation_rejects (its : list Interceptor) (i : nat)
    (request : string) (w : World) :
  In ValidationInterceptor its ->
  ValidationInterceptor_preProcess request = false ->
  (pre_pass i its request w).1.1.1.1 = false.
Proof.
  intros Hin Hrej. revert i w.
  induction its as [|it rest IH]; intros i w; [done|]. simpl.
  pose proof (preProcess_request it request w) as Hr.
  destruct (preProcess it request w) as [[[ok request'] it'] w'] eqn:E.
  simpl in Hr. subst request'. destruct ok; [|done].
  destruct Hin as [->|Hin].
  - unfold preProcess in E. simpl in E. congruence.
  - specialize (IH Hin (S i) w').
    by destruct (pre_pass (S i) rest request w') as [[[[b r''] rest'] w''] ev].
Qed.

(** With the validation interceptor registered, either server rejects,
    before any service is called, the empty request, every request of
    more than 1000 characters and every request without one of the four
    keywords; a request of exactly 1000 characters with a keyword passes
    validation. *)
Theorem validation_bounds `{StdSort} {Sv : Type} `{IService Sv}
    (srv : Server Interceptor Sv) (request : string) (w : World)
    (r : Run Interceptor Sv) :
  r = SocketServer.processRequest srv request w \/
  r = HFTServer.processRequest srv request w ->
  In ValidationInterceptor (interceptors srv) ->
  (request = "" \/ 1000 < String.length request \/
   hasValidCommand validCommands request = false ->
   response r = Ret REJECTED /\ svc_calls (trace r) = [] /\
   run_services r = services srv) /\
  (String.length request = 1000 -> hasValidCommand validCommands request = true ->
   ValidationInterceptor_preProcess request = true).
Proof.
  intros Hr Hin. split.
  - intros Hbad.
    assert (Hpre : ValidationInterceptor_preProcess request = false).
    { unfold ValidationInterceptor_preProcess.
      destruct Hbad as [->|[Hlen|Hcmd]]; [done| |].
      - destruct (Str.empty request); [done|].
        by destruct (Nat.ltb_spec 1000 (String.length request)); [|lia].
      - rewrite Hcmd. destruct (Str.empty request); [done|].
        by destruct (Nat.ltb 1000 (String.length request)). }
    assert (Hrej : rejected r).
    { destruct Hr as [-> | ->]; apply pipeline_pre_false;
        apply pre_pass_validation_rejects; auto.
      apply (Permutation_in _ (std_sort_perm _ getPriority (interceptors srv))), Hin. }
    destruct (servers_reject_shape srv request w r Hr Hrej) as (? & ? & _ & ? & _).
    done.
  - intros Hlen Hcmd. unfold ValidationInterceptor_preProcess.
    rewrite Hcmd. destruct request; [done|]. simpl Str.empty.
    by destruct (Nat.ltb_spec 1000 (String.length (String a request))); [lia|].
Qed.

Lemma validation_bounds_witness :
  let srv := (socket_server "secret123" 10000 (quiet_world 0)).1 in
  let w := (socket_server "secret123" 10000 (quiet_world 0)).2 in
  let request := "TOKEN:secret123 INVALID Hello" in
  let r := SocketServer.processRequest srv request w in
  In ValidationInterceptor (interceptors srv) /\
  hasValidCommand validCommands request = false /\
  response r = Ret REJECTED /\ svc_calls (trace r) = [] /\
  run_services r = services srv.
Proof.
  intros srv w request r.
  assert (Hin : In ValidationInterceptor (interceptors srv)) by (vm_compute; auto 10).
  split; [exact Hin|]. split; [reflexivity|].
  exact (proj1 (validation_bounds (Sv := Service) srv request w r
                  (or_introl eq_refl) Hin) (or_intror (or_intror eq_refl))).
Defined.

(** The HFT server registers no validation: a request with the valid
    token and none of the four keywords is handed to all three
    services, each of which returns the empty string, and the response
    is the no-service error; nothing else changes. *)
Theorem HFTServer_unknown_command `{StdSort} `{Doubles}
    (secret request : string) (w : World) :
  AuthenticationInterceptor_preProcess secret request = true ->
  hasValidCommand validCommands request = false ->
  let r := HFTServer.processRequest (hft_server secret) request w in
  response r = Ret NO_SERVICE /\
  svc_calls (trace r)
  = [EvSvc 0 request (Ret ""); EvSvc 1 request (Ret ""); EvSvc 2 request (Ret "")] /\
  server_of r = hft_server secret /\
  run_world r = w.
Proof.
  intros Hauth Hcmd r.
  apply hasValidCommand_false in Hcmd as (He & Hc & Hrd & Hwr).
  assert (Hits : interceptors (hft_server secret) = [AuthenticationInterceptor secret]).
  { unfold hft_server, HFTServer.addInterceptor. simpl.
    symmetry. apply Permutation_singleton_l. apply std_sort_perm. }
  assert (Hsv : services (hft_server secret) = registered_services) by reflexivity.
  unfold r, HFTServer.processRequest, server_of. rewrite Hits, Hsv.
  unfold pipeline, pre_pass, preProcess. simpl. rewrite Hauth.
  unfold find_service, registered_services, dispatch, processRequest. simpl.
  unfold EchoService_processRequest, CalculatorService_processRequest,
    FileService_processRequest.
  rewrite He, Hc, Hrd, Hwr. simpl.
  split; [done|]. split; [done|]. split; [|done].
  destruct (hft_server secret) as [its svcs]. simpl in *. by subst.
Qed.

Lemma HFTServer_unknown_command_witness :
  let r := HFTServer.processRequest (hft_server "secret123")
             "TOKEN:secret123 UNKNOWN foo" (quiet_world 0) in
  response r = Ret NO_SERVICE /\
  svc_calls (trace r)
  = [EvSvc 0 "TOKEN:secret123 UNKNOWN foo" (Ret "");
     EvSvc 1 "TOKEN:secret123 UNKNOWN foo" (Ret "");
     EvSvc 2 "TOKEN:secret123 UNKNOWN foo" (Ret "")] /\
  server_of r = hft_server "secret123" /\
  run_world r = quiet_world 0.
Proof.
  exact (HFTServer_unknown_command "secret123" "TOKEN:secret123 UNKNOWN foo"
           (quiet_world 0) eq_refl eq_refl).
Defined.

Lemma EchoService_answered (request : string) (p : nat) :
  Str.find "ECHO" request = Some p -> answered (EchoService_processRequest request).
Proof.
  intros Hf. unfold EchoService_processRequest, substr. rewrite Hf.
  destruct (Str.drop (p + 5) request) as [rest|]; [|done].
  simpl. change ("ECHO: " ++ rest)%string with ("ECHO: " +:+ rest).
  rewrite !append_cons. split; discriminate.
Qed.

Lemma CalculatorService_answered `{Doubles} (request : string) (p : nat) :
  Str.find "CAL" request = Some p -> answered (CalculatorService_processRequest request).
Proof.
  intros Hf. unfold CalculatorService_processRequest, substr. rewrite Hf.
  destruct (Str.drop (p + 4) request) as [expression|]; [|done]. simpl.
  destruct (evaluateExpression expression) as [value|e] eqn:He.
  - simpl. change ("RESULT: " ++ to_string value)%string
      with ("RESULT: " +:+ to_string value).
    rewrite !append_cons. split; discriminate.
  - unfold evaluateExpression in He.
    destruct (extract_double (mkStream expression false) double_indet) as [iss r].
    apply evaluate_loop_throws in He as [->|[c' ->]]; simpl;
      split; discriminate.
Qed.

Lemma FileService_answered (request : string) (w : World) :
  Str.find "READ" request <> None \/ Str.find "WRITE" request <> None ->
  answered (FileService_processRequest request w).1.
Proof.
  unfold FileService_processRequest.
  destruct (Str.find "READ" request) as [readPos|].
  - intros _. simpl. destruct (substr request (readPos + 5)) as [filename|e]; [|done].
    simpl. rewrite !append_cons. split; discriminate.
  - intros [Hr|Hw]; [done|].
    destruct (Str.find "WRITE" request) as [writePos|]; [|done].
    destruct (Str.find_char_from " " (writePos + 6) request) as [spacePos|];
      [|simpl; split; discriminate].
    destruct (substr_n request (writePos + 6) (spacePos - (writePos + 6)))
      as [filename|e]; [|done].
    destruct (substr request (spacePos + 1)) as [content|e]; [|done].
    destruct (writeFile filename content w) as [[] w']; simpl; split; discriminate.
Qed.

(** The keywords of validation are the keywords of the three services:
    a request with one of them is answered by a service (or a service
    throws). *)
Lemma registered_services_answer `{Doubles} (request : string) (w : World) :
  hasValidCommand validCommands request = true ->
  answered (find_service registered_services request w).1.1.1.
Proof.
  intros Hcmd.
  unfold find_service, registered_services, dispatch, processRequest. simpl.
  destruct (Str.find "ECHO" request) as [pe|] eqn:He.
  - pose proof (EchoService_answered request pe He) as Ha.
    destruct (EchoService_processRequest request) as [resp|e]; [|done].
    destruct Ha as [Hne Hns]. destruct resp; [done|]. simpl. by split.
  - assert (Hecho : EchoService_processRequest request = Ret "")
      by (unfold EchoService_processRequest; by rewrite He).
    rewrite Hecho. simpl.
    destruct (Str.find "CAL" request) as [pc|] eqn:Hc.
    + pose proof (CalculatorService_answered request pc Hc) as Ha.
      destruct (CalculatorService_processRequest request) as [resp|e]; [|done].
      destruct Ha as [Hne Hns]. destruct resp; [done|]. simpl. by split.
    + assert (Hcal : CalculatorService_processRequest request = Ret "")
        by (unfold CalculatorService_processRequest; by rewrite Hc).
      rewrite Hcal. simpl.
      assert (Hrw : Str.find "READ" request <> None \/ Str.find "WRITE" request <> None).
      { unfold validCommands, hasValidCommand in Hcmd. rewrite He, Hc in Hcmd.
        destruct (Str.find "READ" request); [by left|].
        destruct (Str.find "WRITE" request); [by right|done]. }
      pose proof (FileService_answered request w Hrw) as Ha.
      destruct (FileService_processRequest request w) as [[resp|e] w']; [|done].
      simpl in Ha. destruct Ha as [Hne Hns]. destruct resp; [done|]. simpl. by split.
Qed.

(** A server that registers the validation interceptor and the three
    services never answers [ERROR: No service available to handle
    request]: what validation lets through, a service answers. *)
Theorem validated_request_is_served `{StdSort} `{Doubles}
    (srv : Server Interceptor Service) (request : string) (w : World)
    (r : Run Interceptor Service) :
  r = SocketServer.processRequest srv request w \/
  r = HFTServer.processRequest srv request w ->
  In ValidationInterceptor (interceptors srv) ->
  services srv = registered_services ->
  response r <> Ret NO_SERVICE.
Proof.
  intros Hr Hin Hsv.
  assert (Hp : exists its, In ValidationInterceptor its /\
             r = pipeline its (services srv) request w).
  { destruct Hr as [-> | ->]; eexists; (split; [|reflexivity]); [|done].
    apply (Permutation_in _ (std_sort_perm _ getPriority (interceptors srv))), Hin. }
  destruct Hp as (its & Hin' & ->).
  destruct ((pre_pass 0 its request w).1.1.1.1) eqn:Hok.
  - rewrite pipeline_response by (by apply pipeline_pre_true).
    assert (Hcmd : hasValidCommand validCommands request = true).
    { destruct (ValidationInterceptor_preProcess request) eqn:Hv.
      - unfold ValidationInterceptor_preProcess in Hv.
        destruct (Str.empty request); [done|].
        by destruct (Nat.ltb 1000 (String.length request)).
      - rewrite (pre_pass_validation_rejects its 0 request w Hin' Hv) in Hok. done. }
    rewrite Hsv.
    pose proof (registered_services_answer request
                  (pre_pass 0 its request w).1.2 Hcmd) as Ha.
    destruct ((find_service registered_services request
                 (pre_pass 0 its request w).1.2).1.1.1) as [resp|e]; [|done].
    intros [= ->]. by destruct Ha.
  - apply pipeline_pre_false with (svcs := services srv) in Hok.
    destruct (pipeline_rejected its (services srv) request w Hok) as (-> & _).
    discriminate.
Qed.

Lemma validated_request_is_served_witness :
  let srv := (socket_server "secret123" 10000 (quiet_world 0)).1 in
  let w := (socket_server "secret123" 10000 (quiet_world 0)).2 in
  let r := SocketServer.processRequest srv "TOKEN:secret123 WRITE" w in
  response r = Ret "ERROR: Invalid write command format" /\
  response r <> Ret NO_SERVICE.
Proof.
  intros srv w r. split; [by vm_compute|].
  apply (validated_request_is_served srv "TOKEN:secret123 WRITE" w r).
  - by left.
  - vm_compute; auto 10.
  - reflexivity.
Defined.

(** ** The calls of an accepted request *)

Lemma pre_run_svc (ev : list Event) :
  Forall (fun e => is_svc e = true) ev -> pre_run ev = [].
Proof. induction 1 as [|e ev He _ IH]; [done|]. by destruct e. Qed.

Lemma post_run_svc (ev : list Event) :
  Forall (fun e => is_svc e = true) ev -> post_run ev = [].
Proof. induction 1 as [|e ev He _ IH]; [done|]. by destruct e. Qed.

Lemma pre_run_post (l : list nat) : pre_run (map EvPost l) = [].
Proof. induction l; simpl; auto. Qed.

Lemma post_run_post (l : list nat) : post_run (map EvPost l) = l.
Proof. induction l; simpl; [done|]. unfold post_run in *. simpl. by f_equal. Qed.

Lemma pipeline_accepted_calls {I Sv : Type} `{IInterceptor I} `{IService Sv}
    (its : list I) (svcs : list Sv) (request : string) (w : World) :
  let r := pipeline its svcs request w in
  ~ rejected r ->
  pre_run (trace r) = seq 0 (length its) /\
  match response r with
  | Ret _ => post_run (trace r) = seq 0 (length its)
  | Throw _ => post_run (trace r) = []
  end.
Proof.
  intros r Hn. subst r.
  destruct (pipeline_not_rejected its svcs request w Hn) as (Hok & _).
  revert Hok. unfold pipeline.
  pose proof (pre_pass_trace its 0 request w) as Hp.
  pose proof (pre_pass_length its 0 request w) as Hl.
  destruct (pre_pass 0 its request w) as [[[[ok request'] its1] w1] ev1].
  simpl in Hl. simpl. intros ->. subst ev1.
  pose proof (find_service_events svcs request' w1) as Hs.
  destruct (find_service svcs request' w1) as [[[r svcs2] w2] ev2]. simpl in Hs.
  destruct r as [resp|e]; simpl.
  - pose proof (post_pass_trace its1 0 request' resp w2) as Hq.
    destruct (post_pass 0 its1 request' resp w2) as [[[resp' its3] w3] ev3].
    simpl in *. subst ev3. unfold pre_run, post_run. rewrite !omap_app.
    fold (pre_run (map (fun j => EvPre j true) (seq 0 (length its)))).
    fold (post_run (map (fun j => EvPre j true) (seq 0 (length its)))).
    fold (pre_run ev2). fold (post_run ev2).
    fold (pre_run (map EvPost (seq 0 (length its1)))).
    fold (post_run (map EvPost (seq 0 (length its1)))).
    rewrite pre_run_pre_true, post_run_pre_true, pre_run_svc, post_run_svc,
      pre_run_post, post_run_post, Hl by done.
    by rewrite !app_nil_r.
  - unfold pre_run, post_run. rewrite !omap_app.
    fold (pre_run (map (fun j => EvPre j true) (seq 0 (length its)))).
    fold (post_run (map (fun j => EvPre j true) (seq 0 (length its)))).
    fold (pre_run ev2). fold (post_run ev2).
    rewrite pre_run_pre_true, post_run_pre_true, pre_run_svc, post_run_svc by done.
    by rewrite !app_nil_r.
Qed.

(** A request that no interceptor rejects: [preProcess] runs once on
    every interceptor, in the order of the sorted vector; when the
    service loop returns, [postProcess] runs once on every interceptor
    in the same order (not the reverse); when a service throws,
    [postProcess] runs on none. *)
Theorem accepted_request_calls `{StdSort} {I Sv : Type}
    `{IInterceptor I} `{IService Sv}
    (srv : Server I Sv) (request : string) (w : World) (r : Run I Sv) :
  r = SocketServer.processRequest srv request w \/
  r = HFTServer.processRequest srv request w ->
  ~ rejected r ->
  pre_run (trace r) = seq 0 (length (interceptors srv)) /\
  match response r with
  | Ret _ => post_run (trace r) = seq 0 (length (interceptors srv))
  | Throw _ => post_run (trace r) = []
  end.
Proof.
  intros [-> | ->] Hn.
  - rewrite (Permutation_length (std_sort_perm _ getPriority (interceptors srv))).
    by apply pipeline_accepted_calls.
  - by apply pipeline_accepted_calls.
Qed.

Lemma accepted_request_calls_witness :
  let srv := (socket_server "secret123" 10000 (quiet_world 0)).1 in
  let w := (socket_server "secret123" 10000 (quiet_world 0)).2 in
  let r := SocketServer.processRequest srv "TOKEN:secret123 ECHO" w in
  ~ rejected r /\
  response r = Throw (out_of_range "basic_string::substr") /\
  pre_run (trace r) = seq 0 (length (interceptors srv)) /\
  match response r with
  | Ret _ => post_run (trace r) = seq 0 (length (interceptors srv))
  | Throw _ => post_run (trace r) = []
  end.
Proof.
  intros srv w r.
  assert (Hn : ~ rejected r).
  { intros [i Hi]. vm_compute in Hi. intuition congruence. }
  split; [exact Hn|]. split; [by vm_compute|].
  exact (accepted_request_calls srv "TOKEN:secret123 ECHO" w r (or_introl eq_refl) Hn).
Defined.

(** ** What a request leaves of the registration *)

Lemma preProcess_priority (i : Interceptor) (request : string) (w : World) :
  getPriority (preProcess i request w).1.2 = getPriority i.
Proof.
  destruct i as [st|tok|self|]; unfold preProcess; simpl; try reflexivity.
  by destruct (RateLimitingInterceptor_preProcess (w_clock w (w_reads w)) self).
Qed.

Lemma postProcess_priority (i : Interceptor) (request response0 : string) (w : World) :
  getPriority (postProcess i request response0 w).1.2 = getPriority i.
Proof. by destruct i. Qed.

Lemma pre_pass_priorities (its : list Interceptor) (i : nat) (request : string)
    (w : World) :
  map getPriority (pre_pass i its request w).1.1.2 = map getPriority its.
Proof.
  revert i request w. induction its as [|it rest IH]; intros i request w; [done|].
  simpl. pose proof (preProcess_priority it request w) as Hp.
  destruct (preProcess it request w) as [[[ok request'] it'] w']. simpl in Hp.
  destruct ok; [|simpl; by rewrite Hp].
  specialize (IH (S i) request' w').
  destruct (pre_pass (S i) rest request' w') as [[[[b r''] rest'] w''] ev].
  simpl in *. by rewrite Hp, IH.
Qed.

Lemma post_pass_priorities (its : list Interceptor) (i : nat)
    (request response0 : string) (w : World) :
  map getPriority (post_pass i its request response0 w).1.1.2 = map getPriority its.
Proof.
  revert i response0 w. induction its as [|it rest IH]; intros i response0 w; [done|].
  simpl. pose proof (postProcess_priority it request response0 w) as Hp.
  destruct (postProcess it request response0 w) as [[response' it'] w']. simpl in Hp.
  specialize (IH (S i) response' w').
  destruct (post_pass (S i) rest request response' w') as [[[r'' rest'] w''] ev].
  simpl in *. by rewrite Hp, IH.
Qed.

Lemma pipeline_priorities {Sv : Type} `{IService Sv}
    (its : list Interceptor) (svcs : list Sv) (request : string) (w : World) :
  map getPriority (run_interceptors (pipeline its svcs request w))
  = map getPriority its.
Proof.
  unfold pipeline.
  pose proof (pre_pass_priorities its 0 request w) as Hp.
  destruct (pre_pass 0 its request w) as [[[[ok request'] its1] w1] ev1].
  simpl in Hp. destruct ok; [|done].
  destruct (find_service svcs request' w1) as [[[r svcs2] w2] ev2].
  destruct r as [resp|e]; [|done].
  pose proof (post_pass_priorities its1 0 request' resp w2) as Hq.
  destruct (post_pass 0 its1 request' resp w2) as [[[resp' its3] w3] ev3].
  simpl in *. congruence.
Qed.

Lemma sorted_by_priority_map {I : Type} `{IInterceptor I} (its : list I) :
  sorted_by_priority its <-> StronglySorted Z.le (map getPriority its).
Proof.
  unfold sorted_by_priority. induction its as [|x its IH]; simpl.
  - split; constructor.
  - split; intros Hs; inversion Hs as [|? ? Hs' Hall]; subst; constructor.
    + by apply IH.
    + rewrite Forall_forall in Hall. apply Forall_forall.
      intros z Hz. apply list_elem_of_In, in_map_iff in Hz as (y & <- & Hy).
      apply Hall. by apply list_elem_of_In.
    + by apply IH.
    + rewrite Forall_forall in Hall. apply Forall_forall.
      intros y Hy. apply Hall. apply list_elem_of_In, in_map_iff.
      exists y. split; [done|]. by apply list_elem_of_In.
Qed.

Lemma dispatch_services `{Doubles} (svcs : list Service) (j : nat) (request : string)
    (w : World) (response0 : string) :
  (dispatch j svcs request w response0).1.1.2 = svcs.
Proof.
  revert j w response0. induction svcs as [|s rest IH]; intros j w response0; [done|].
  simpl.
  assert (Hs : (processRequest s request w).1.2 = s).
  { destruct s; unfold processRequest; simpl; try done.
    by destruct (FileService_processRequest request w). }
  destruct (processRequest s request w) as [[r s'] w']. simpl in Hs. subst s'.
  destruct r as [resp|e]; [|done].
  destruct (Str.empty resp); [|done].
  specialize (IH (S j) w' resp).
  destruct (dispatch (S j) rest request w' resp) as [[[r' rest'] w''] ev].
  simpl in *. by rewrite IH.
Qed.

Lemma pipeline_services `{Doubles} (its : list Interceptor) (svcs : list Service)
    (request : string) (w : World) :
  run_services (pipeline its svcs request w) = svcs.
Proof.
  unfold pipeline, find_service.
  destruct (pre_pass 0 its request w) as [[[[ok request'] its1] w1] ev1].
  destruct ok; [|done].
  pose proof (dispatch_services svcs 0 request' w1 "") as Hd.
  destruct (dispatch 0 svcs request' w1 "") as [[[r svcs2] w2] ev2].
  simpl in Hd. subst svcs2. destruct r as [resp|e]; [|done].
  by destruct (post_pass 0 its1 request' _ w2) as [[[resp' its3] w3] ev3].
Qed.

(** A request changes neither which services are registered nor the
    priorities of the interceptors; after a request the vector that
    [SocketServer] stores is sorted by priority (the sort is in place),
    the vector of [HFTServer] keeps its order. *)
Theorem request_keeps_registration `{StdSort} `{Doubles}
    (srv : Server Interceptor Service) (request : string) (w : World) :
  let r := SocketServer.processRequest srv request w in
  let r' := HFTServer.processRequest srv request w in
  sorted_by_priority (run_interceptors r) /\
  Permutation (map getPriority (interceptors srv))
              (map getPriority (run_interceptors r)) /\
  run_services r = services srv /\
  map getPriority (run_interceptors r') = map getPriority (interceptors srv) /\
  run_services r' = services srv.
Proof.
  intros r r'. unfold r, r', SocketServer.processRequest, HFTServer.processRequest.
  rewrite !pipeline_services, !pipeline_priorities.
  split; [|split; [|done]].
  - apply sorted_by_priority_map. rewrite pipeline_priorities.
    apply sorted_by_priority_map, std_sort_sorted.
  - apply Permutation_map, std_sort_perm.
Qed.

(** ** The two servers agree *)

(** A sorted arrangement of interceptors with pairwise different
    priorities is unique. *)
Lemma sorted_permutation_unique {A : Type} (key : A -> Z) (l1 l2 : list A) :
  StronglySorted (fun a b => (key a <= key b)%Z) l1 ->
  StronglySorted (fun a b => (key a <= key b)%Z) l2 ->
  Permutation l1 l2 -> NoDup (map key l1) -> l1 = l2.
Proof.
  intros Hs1. revert l2. induction Hs1 as [|x l1 Hs1 IH Hx]; intros l2 Hs2 Hp Hnd.
  - by apply Permutation_nil in Hp.
  - destruct Hs2 as [|y l2 Hs2 Hy].
    + symmetry in Hp. by apply Permutation_nil in Hp.
    + apply NoDup_cons in Hnd as [Hnx Hnd].
      assert (Hxy : x = y).
      { assert (Hin : In y (x :: l1))
          by (apply (Permutation_in _ (Permutation_sym Hp)); by left).
        destruct Hin as [?|Hin]; [done|]. exfalso.
        assert (Hle1 : (key x <= key y)%Z).
        { rewrite Forall_forall in Hx. apply Hx. by apply list_elem_of_In. }
        assert (Hin2 : In x (y :: l2)) by (apply (Permutation_in _ Hp); by left).
        destruct Hin2 as [->|Hin2].
        - apply Hnx. apply list_elem_of_In, in_map_iff. by exists x.
        - assert (Hle2 : (key y <= key x)%Z).
          { rewrite Forall_forall in Hy. apply Hy. by apply list_elem_of_In. }
          apply Hnx. apply list_elem_of_In, in_map_iff. exists y. split; [lia|done]. }
      subst y. f_equal. apply IH; [done| |done].
      by apply Permutation_cons_inv in Hp.
Qed.

Lemma hft_addInterceptor_services `{StdSort} {I Sv : Type}
    `{IInterceptor I} `{IService Sv} (added : list I) (srv : Server I Sv) :
  services (foldl HFTServer.addInterceptor srv added) = services srv.
Proof.
  revert srv. induction added as [|x added IH]; intros srv; simpl; [done|].
  by rewrite IH.
Qed.

(** When the interceptors registered have pairwise different
    priorities, as the four of the repository have, [HFTServer], which
    sorts at every registration, and [SocketServer], which sorts at
    every request, process a request in the same way: same response,
    same calls, same state afterwards. *)
Theorem servers_agree `{StdSort} {I Sv : Type} `{IInterceptor I} `{IService Sv}
    (added : list I) (svcs : list Sv) (request : string) (w : World) :
  NoDup (map getPriority added) ->
  let hft := foldl HFTServer.addInterceptor (mkServer [] svcs) added in
  let srv := foldl SocketServer.addInterceptor (mkServer [] svcs) added in
  HFTServer.processRequest hft request w = SocketServer.processRequest srv request w.
Proof.
  intros Hnd hft srv.
  destruct (hft_addInterceptor_all added (mkServer [] svcs)) as [Hs Hp];
    [constructor|].
  destruct (socket_addInterceptor_all added (mkServer [] svcs)) as [Hi Hsv].
  pose proof (hft_addInterceptor_services added (mkServer [] svcs)) as Hsvh.
  fold hft in Hs, Hp, Hsvh. fold srv in Hi, Hsv. simpl in Hp, Hi, Hsv, Hsvh.
  unfold HFTServer.processRequest, SocketServer.processRequest.
  rewrite Hsvh, Hsv, Hi. f_equal.
  apply (sorted_permutation_unique getPriority).
  - exact Hs.
  - apply std_sort_sorted.
  - rewrite <- Hp. apply std_sort_perm.
  - by rewrite <- Hp.
Qed.

Lemma servers_agree_witness :
  let added := [new_LoggingInterceptor; AuthenticationInterceptor "secret123";
                (new_RateLimitingInterceptor 10000 (quiet_world 0)).1;
                ValidationInterceptor] in
  let request := "TOKEN:secret123 CAL 2 + 3" in
  NoDup (map getPriority added) /\
  HFTServer.processRequest
    (foldl HFTServer.addInterceptor (mkServer [] registered_services) added)
    request (quiet_world 0)
  = SocketServer.processRequest
      (foldl SocketServer.addInterceptor (mkServer [] registered_services) added)
      request (quiet_world 0).
Proof.
  intros added request.
  assert (Hnd : NoDup (map getPriority added)).
  { simpl. repeat (apply NoDup_cons_2;
                     [rewrite ?elem_of_cons, ?elem_of_nil; intuition lia|]).
    apply NoDup_nil_2. }
  split; [exact Hnd|].
  exact (servers_agree added registered_services request (quiet_world 0) Hnd).
Defined.

(** ** The rate limiter over time *)

Lemma RateLimitingInterceptor_step (now_ : Z) (self : RateLimiter) :
  (0 <= currentRequests self <= maxRequests self)%Z ->
  (maxRequests self <= int_max)%Z ->
  let r := RateLimitingInterceptor_preProcess now_ self in
  maxRequests r.2 = maxRequests self /\
  (0 <= currentRequests r.2 <= maxRequests self)%Z /\
  (lastReset r.2 = lastReset self \/ lastReset r.2 = now_) /\
  (r.1 = false -> currentRequests r.2 = maxRequests self).
Proof.
  intros Hc Hm. unfold RateLimitingInterceptor_preProcess.
  destruct (60 <=? duration_cast_seconds (now_ - lastReset self))%Z; simpl.
  - destruct (Z.leb_spec (maxRequests self) 0); simpl.
    + repeat split; auto; lia.
    + rewrite int_wrap_small by (unfold int_min, int_max in *; lia).
      repeat split; auto; try lia; try done.
  - destruct (Z.leb_spec (maxRequests self) (currentRequests self)); simpl.
    + repeat split; auto; lia.
    + rewrite int_wrap_small by (unfold int_min, int_max in *; lia).
      repeat split; auto; try lia; try done.
Qed.

(** Whatever the times of the calls, the counter of a rate limiter
    stays between 0 and the limit (the [int] increment never
    overflows), the limit does not change, and [lastReset] is the
    construction time or the time of one of the calls. *)
Theorem RateLimiter_counter_bounded (times : list Z) (self : RateLimiter) :
  (0 <= currentRequests self <= maxRequests self)%Z ->
  (maxRequests self <= int_max)%Z ->
  let final := (rate_run times self).2 in
  maxRequests final = maxRequests self /\
  (0 <= currentRequests final <= maxRequests self)%Z /\
  In (lastReset final) (lastReset self :: times).
Proof.
  revert self. induction times as [|t times IH]; intros self Hc Hm; simpl.
  - repeat split; auto; lia.
  - destruct (RateLimitingInterceptor_step t self Hc Hm) as (H1 & H2 & H3 & _).
    destruct (RateLimitingInterceptor_preProcess t self) as [ok self']. simpl in *.
    specialize (IH self'). rewrite H1 in IH.
    destruct (IH H2 Hm) as (I1 & I2 & I3).
    destruct (rate_run times self') as [oks self'']. simpl in *.
    split; [done|]. split; [done|].
    destruct I3 as [I3|I3]; [|by right; right].
    rewrite <- I3. destruct H3 as [->| ->]; [by left|by right; left].
Qed.

Lemma RateLimiter_counter_bounded_witness :
  let self := mkRateLimiter 2 0 0 in
  let final := (rate_run [5; 6; 70000000000; 7]%Z self).2 in
  (0 <= currentRequests self <= maxRequests self)%Z /\
  (maxRequests self <= int_max)%Z /\
  maxRequests final = maxRequests self /\
  (0 <= currentRequests final <= maxRequests self)%Z /\
  In (lastReset final) (lastReset self :: [5; 6; 70000000000; 7]%Z).
Proof.
  intros self final.
  assert (Hc : (0 <= currentRequests self <= maxRequests self)%Z) by (simpl; lia).
  assert (Hm : (maxRequests self <= int_max)%Z) by (unfold int_max; simpl; lia).
  split; [exact Hc|]. split; [exact Hm|].
  exact (RateLimiter_counter_bounded [5; 6; 70000000000; 7]%Z self Hc Hm).
Defined.

Lemma rate_run_app (a b : list Z) (self : RateLimiter) :
  rate_run (a ++ b) self
  = ((rate_run a self).1 ++ (rate_run b (rate_run a self).2).1,
     (rate_run b (rate_run a self).2).2).
Proof.
  revert self. induction a as [|t a IH]; intros self; simpl.
  - by destruct (rate_run b self).
  - destruct (RateLimitingInterceptor_preProcess t self) as [ok self'].
    rewrite IH. destruct (rate_run a self') as [oks1 s1]. simpl.
    by destruct (rate_run b s1).
Qed.

(** Calls at one time inside the window, starting below the limit: the
    first [K - c] are accepted. *)
Lemma rate_run_same_time (n : nat) (K c t0 t : Z) :
  (0 <= c)%Z -> (c + Z.of_nat n <= K)%Z -> (K <= int_max)%Z ->
  (t - t0 < 60 * ticks_per_second)%Z ->
  rate_run (replicate n t) (mkRateLimiter K c t0)
  = (replicate n true, mkRateLimiter K (c + Z.of_nat n) t0).
Proof.
  intros Hc Hn HK Hw. revert c Hc Hn.
  induction n as [|n IH]; intros c Hc Hn; simpl.
  - by rewrite Z.add_0_r.
  - rewrite RateLimitingInterceptor_in_window by (simpl; lia). simpl.
    destruct (Z.ltb_spec c K); [|lia].
    rewrite IH by lia. do 2 f_equal. lia.
Qed.

(** The window is fixed, not sliding: with limit [K], [K] calls one
    tick before the window ends and [K] calls at the moment it ends are
    all accepted, [2K] requests within one clock tick. *)
Theorem RateLimiter_burst_at_window_end (K : nat) (t0 : Z) :
  (Z.of_nat K <= int_max)%Z ->
  let before := (t0 + 60 * ticks_per_second - 1)%Z in
  let at_end := (t0 + 60 * ticks_per_second)%Z in
  (rate_run (replicate K before ++ replicate K at_end)
            (mkRateLimiter (Z.of_nat K) 0 t0)).1
  = replicate (K + K) true.
Proof.
  intros HK before at_end. rewrite rate_run_app.
  rewrite (rate_run_same_time K (Z.of_nat K) 0 t0 before) by (unfold before; lia).
  simpl. rewrite replicate_add. f_equal.
  destruct K as [|K]; [done|].
  change (replicate (S K) at_end) with (at_end :: replicate K at_end).
  cbn [rate_run].
  assert (Hfirst : RateLimitingInterceptor_preProcess at_end
                     (mkRateLimiter (Z.of_nat (S K)) (0 + Z.of_nat (S K)) t0)
                   = (true, mkRateLimiter (Z.of_nat (S K)) 1 at_end)).
  { unfold RateLimitingInterceptor_preProcess. simpl lastReset.
    assert (Hge : (60 <= duration_cast_seconds (at_end - t0))%Z)
      by (apply duration_cast_seconds_ge; unfold at_end; lia).
    destruct (Z.leb_spec 60 (duration_cast_seconds (at_end - t0))); [|lia].
    simpl. destruct (Z.leb_spec (Z.of_nat (S K)) 0); [lia|].
    by rewrite int_wrap_small by (unfold int_min, int_max; lia). }
  rewrite Hfirst.
  rewrite (rate_run_same_time K (Z.of_nat (S K)) 1 at_end at_end)
    by (unfold ticks_per_second; lia).
  reflexivity.
Qed.

Lemma RateLimiter_burst_at_window_end_witness :
  (Z.of_nat 3 <= int_max)%Z /\
  (rate_run (replicate 3 59999999999%Z ++ replicate 3 60000000000%Z)
            (mkRateLimiter (Z.of_nat 3) 0 0)).1
  = replicate (3 + 3) true.
Proof.
  assert (HK : (Z.of_nat 3 <= int_max)%Z) by (unfold int_max; lia).
  split; [exact HK|].
  exact (RateLimiter_burst_at_window_end 3 0%Z HK).
Defined.

(** ** The queue used by one thread *)

Section QueueMore.
Import LockFreeQueue.
Context {T : Type} `{Inhabited T}.

Lemma new_pointers_in_pool (n : nat) : queue_pointers_in_pool (new (T := T) (S n)).
Proof.
  unfold queue_pointers_in_pool, new. simpl. rewrite length_replicate.
  split; [lia|]. split; [lia|]. intros i nd k Hl Hn.
  change (mkNode inhabitant None :: replicate n (mkNode inhabitant None))
    with (replicate (S n) (mkNode (T := T) inhabitant None)) in Hl.
  apply lookup_replicate in Hl as [-> _]. done.
Qed.

Lemma get_node_index_lt (q : Queue T) :
  pool q <> [] ->
  N.to_nat (pool_index q mod N.of_nat (length (pool q)))%N < length (pool q).
Proof.
  intros Hne. destruct (pool q) as [|x l]; [done|].
  pose proof (N.mod_upper_bound (pool_index q) (N.of_nat (length (x :: l)))).
  simpl in *. lia.
Qed.

(** No operation makes a pointer of the queue leave the pool: [head],
    [tail] and every [next] stay addresses of pool nodes, from the
    constructor on, through every [enqueue] and [dequeue] (the nodes are
    recycled, never freed). *)
Theorem queue_pointers_stay_in_pool (q : Queue T) (item : T) :
  queue_pointers_in_pool q ->
  queue_pointers_in_pool (enqueue q item).2 /\
  queue_pointers_in_pool (dequeue q).2.
Proof.
  intros (Hh & Ht & Hn). split.
  - assert (Hne : pool q <> []) by (destruct (pool q); simpl in *; [lia|done]).
    pose proof (get_node_index_lt q Hne) as Hi.
    unfold queue_pointers_in_pool, enqueue, get_node, set_next. simpl.
    set (n := N.to_nat (pool_index q mod N.of_nat (length (pool q)))%N) in *.
    rewrite length_alter, length_insert.
    split; [done|]. split; [done|]. intros i nd k Hl Hk.
    destruct (decide (i = tail q)) as [->|Hit].
    + rewrite list_lookup_alter_eq in Hl.
      destruct (<[n:=mkNode item None]> (pool q) !! tail q) as [nd0|]; [|done].
      simpl in Hl. injection Hl as <-. simpl in Hk. by injection Hk as <-.
    + rewrite list_lookup_alter_ne in Hl by done.
      apply list_lookup_insert_Some in Hl as [(-> & <- & _)|(_ & Hl)]; [done|].
      by apply (Hn i nd k).
  - unfold queue_pointers_in_pool, dequeue.
    destruct (next (pool q !!! head q)) as [new_head|] eqn:Hnx; simpl; [|done].
    split; [|done].
    destruct (lookup_lt_is_Some_2 (pool q) (head q) Hh) as [nd Hnd].
    rewrite (list_lookup_total_correct _ _ _ Hnd) in Hnx.
    by apply (Hn (head q) nd new_head).
Qed.

End QueueMore.

Lemma queue_pointers_stay_in_pool_witness :
  let q := LockFreeQueue.new (T := WorkItem) 2 in
  queue_pointers_in_pool q /\
  queue_pointers_in_pool
    (LockFreeQueue.enqueue q (make_pair 4 "TOKEN:secret123 ECHO a")).2 /\
  queue_pointers_in_pool (LockFreeQueue.dequeue q).2.
Proof.
  intros q. split; [apply new_pointers_in_pool|].
  apply (queue_pointers_stay_in_pool q (make_pair 4 "TOKEN:secret123 ECHO a")).
  apply new_pointers_in_pool.
Defined.

(** ** The order of delivery *)

Section QueueOrder.
Import LockFreeQueue.
Context {T : Type} `{Inhabited T}.

Lemma run_ops_Enq (x : T) (ops : list (Op T)) (q : Queue T) :
  run_ops (Enq x :: ops) q
  = ((run_ops ops (enqueue q x).2).1.1,
     true :: (run_ops ops (enqueue q x).2).1.2,
     (run_ops ops (enqueue q x).2).2).
Proof.
  cbn [run_ops]. pose proof (enqueue_returns_true q x) as Hok.
  destruct (enqueue q x) as [ok q']. simpl in *. subst ok.
  by destruct (run_ops ops q') as [[ds es] q''].
Qed.

Lemma run_ops_Deq (ops : list (Op T)) (q : Queue T) :
  run_ops (Deq :: ops) q
  = ((dequeue q).1 :: (run_ops ops (dequeue q).2).1.1,
     (run_ops ops (dequeue q).2).1.2,
     (run_ops ops (dequeue q).2).2).
Proof.
  cbn [run_ops]. destruct (dequeue q) as [d q']. simpl.
  by destruct (run_ops ops q') as [[ds es] q''].
Qed.

Lemma run_ops_app (a b : list (Op T)) (q : Queue T) :
  run_ops (a ++ b) q
  = ((run_ops a q).1.1 ++ (run_ops b (run_ops a q).2).1.1,
     (run_ops a q).1.2 ++ (run_ops b (run_ops a q).2).1.2,
     (run_ops b (run_ops a q).2).2).
Proof.
  revert q. induction a as [|[item|] a IH]; intros q.
  - simpl. by destruct (run_ops b q) as [[ds es] q'].
  - rewrite <- app_comm_cons, !run_ops_Enq, IH. done.
  - rewrite <- app_comm_cons, !run_ops_Deq, IH. done.
Qed.

Lemma enqueue_first (n : nat) (all : list T) (x : T) :
  enqueued_chain (S n) all 0 (enqueue (new (S n)) x).2 /\
  head (enqueue (new (S n)) x).2 = 0.
Proof.
  unfold enqueued_chain, enqueue, get_node, set_next, new. simpl.
  rewrite length_replicate. repeat split; auto; try lia.
Qed.

Lemma enqueue_next (n : nat) (all : list T) (j : nat) (q : Queue T) (x : T) :
  enqueued_chain n all j q -> S j < n -> (N.of_nat n < 2 ^ 64)%N ->
  all !! S j = Some x ->
  enqueued_chain n all (S j) (enqueue q x).2 /\ head (enqueue q x).2 = head q.
Proof.
  intros (Ht & Hidx & Hlen & Hlinks & Hlast) Hj Hn Hx.
  assert (Hi : N.to_nat (pool_index q mod N.of_nat (length (pool q)))%N = S j).
  { rewrite Hidx, Hlen, N.mod_small by lia. lia. }
  unfold enqueued_chain, enqueue, get_node, set_next. simpl. rewrite Hi, Ht.
  rewrite length_alter, length_insert.
  split; [|done]. split; [done|]. split.
  { rewrite Hidx, N.mod_small; lia. }
  split; [done|]. split.
  - intros i Hlt. destruct (decide (i = j)) as [->|Hne].
    + rewrite list_lookup_alter_eq, list_lookup_insert_ne by lia.
      destruct (lookup_lt_is_Some_2 (pool q) j) as [nd Hnd]; [lia|].
      rewrite Hnd. simpl. exists (data nd). split; [done|].
      intros Hpos. destruct (Hlast Hpos) as (d & Hd & Hall).
      rewrite Hd in Hnd. by injection Hnd as <-.
    + rewrite list_lookup_alter_ne, list_lookup_insert_ne by lia.
      apply Hlinks. lia.
  - intros _. exists x. split; [|done].
    rewrite list_lookup_alter_ne by lia.
    apply list_lookup_insert_eq. lia.
Qed.

Lemma enqueue_all (n : nat) (all xs : list T) (j : nat) (q : Queue T) :
  enqueued_chain n all j q -> j + length xs < n -> (N.of_nat n < 2 ^ 64)%N ->
  (forall k x, xs !! k = Some x -> all !! (S j + k) = Some x) ->
  (run_ops (map Enq xs) q).1 = ([], replicate (length xs) true) /\
  enqueued_chain n all (j + length xs) (run_ops (map Enq xs) q).2 /\
  head (run_ops (map Enq xs) q).2 = head q.
Proof.
  revert j q. induction xs as [|x xs IH]; intros j q Hc Hj Hn Hall.
  - simpl. by rewrite Nat.add_0_r.
  - simpl in Hj.
    destruct (enqueue_next n all j q x Hc) as [Hc' Hh']; [lia|done| |].
    { specialize (Hall 0 x eq_refl). by rewrite Nat.add_0_r in Hall. }
    destruct (IH (S j) (enqueue q x).2 Hc') as (Hr & Hc'' & Hh''); [lia|done| |].
    { intros k y Hk. specialize (Hall (S k) y Hk).
      by replace (S j + S k) with (S (S j) + k) in Hall by lia. }
    change (map Enq (x :: xs)) with (Enq x :: map Enq xs).
    rewrite run_ops_Enq.
    destruct (run_ops (map Enq xs) (enqueue q x).2) as [[ds es] q'].
    simpl in *. injection Hr as -> ->.
    replace (j + S (length xs)) with (S (j + length xs)) by lia.
    split; [done|]. split; [done|]. congruence.
Qed.

Lemma dequeue_link (n : nat) (all : list T) (m : nat) (q : Queue T) :
  enqueued_chain n all m q -> head q < m ->
  exists d, all !! S (head q) = Some d /\
    dequeue q = (Some d, mkQueue (S (head q)) (tail q) (pool q) (pool_index q)).
Proof.
  intros (Ht & Hidx & Hlen & Hlinks & Hlast) Hh.
  destruct (Hlinks (head q) Hh) as (d0 & Hd0 & _).
  assert (Hnext : exists d, pool q !! S (head q) = Some d /\
                            all !! S (head q) = Some (data d)).
  { destruct (decide (S (head q) = m)) as [Heq|Hne].
    - destruct Hlast as (d & Hd & Hall); [lia|]. rewrite Heq. by eexists.
    - destruct (Hlinks (S (head q))) as (d & Hd & Hall); [lia|].
      eexists. split; [exact Hd|]. apply Hall. lia. }
  destruct Hnext as (nd & Hnd & Hall).
  exists (data nd). split; [done|].
  unfold dequeue. rewrite (list_lookup_total_correct _ _ _ Hd0). simpl.
  by rewrite (list_lookup_total_correct _ _ _ Hnd).
Qed.

Lemma dequeue_chain_end (n : nat) (all : list T) (m : nat) (q : Queue T) :
  enqueued_chain n all m q -> head q = m -> 0 < m -> dequeue q = (None, q).
Proof.
  intros (Ht & Hidx & Hlen & Hlinks & Hlast) Hh Hm.
  destruct (Hlast Hm) as (d & Hd & _).
  unfold dequeue. rewrite Hh, (list_lookup_total_correct _ _ _ Hd). done.
Qed.

Lemma dequeue_all (n : nat) (all : list T) (m k : nat) (q : Queue T) :
  enqueued_chain n all m q -> head q + k = m ->
  (run_ops (replicate k Deq) q).1.1 = map (fun i => all !! i) (seq (S (head q)) k) /\
  (run_ops (replicate k Deq) q).1.2 = [] /\
  enqueued_chain n all m (run_ops (replicate k Deq) q).2 /\
  head (run_ops (replicate k Deq) q).2 = m.
Proof.
  revert q. induction k as [|k IH]; intros q Hc Hk; simpl.
  - rewrite Nat.add_0_r in Hk. done.
  - destruct (dequeue_link n all m q Hc) as (d & Hall & ->); [lia|].
    set (q1 := mkQueue (S (head q)) (tail q) (pool q) (pool_index q)).
    assert (Hc1 : enqueued_chain n all m q1) by exact Hc.
    destruct (IH q1 Hc1) as (Hd & He & Hc' & Hh'); [simpl; lia|].
    destruct (run_ops (replicate k Deq) q1) as [[ds es] q']. simpl in *.
    split; [by rewrite Hall, Hd|]. done.
Qed.

Lemma lookup_all_seq (x0 : T) (xs : list T) :
  map (fun i => (x0 :: xs) !! i) (seq 1 (length xs)) = map Some xs.
Proof.
  rewrite <- seq_shift, map_map. simpl.
  induction xs as [|x xs IH]; [done|].
  simpl. f_equal. by rewrite <- seq_shift, map_map.
Qed.

(** Used by one thread and within its pool (at most [pool_size] items
    enqueued, none dequeued in between), the queue delivers in the order
    of the enqueues everything but the first item: after [x0, x1, ...,
    xm] the dequeues return [x1, ..., xm] and then report the queue
    empty.  The first item ever enqueued is not delivered. *)
Theorem queue_fifo_but_first (n : nat) (x0 : T) (xs : list T) :
  xs <> [] -> S (length xs) <= n -> (N.of_nat n < 2 ^ 64)%N ->
  (run_ops (map Enq (x0 :: xs) ++ replicate (S (length xs)) Deq) (new n)).1
  = (map Some xs ++ [None], replicate (S (length xs)) true).
Proof.
  intros Hne Hlen Hn. destruct n as [|n]; [lia|].
  set (all := x0 :: xs).
  destruct (enqueue_first n all x0) as [Hc0 Hh0].
  destruct (enqueue_all (S n) all xs 0 (enqueue (new (S n)) x0).2 Hc0)
    as (Hr & Hc & Hh); [simpl; lia|done|by intros k x Hk|].
  rewrite Nat.add_0_l in Hc. rewrite Hh0 in Hh.
  assert (Hpos : 0 < length xs) by (destruct xs; simpl; [done|lia]).
  destruct (dequeue_all (S n) all (length xs) (length xs) _ Hc)
    as (Hd & He & Hc' & Hh'); [lia|].
  rewrite Hh in Hd. unfold all in Hd. rewrite lookup_all_seq in Hd.
  pose proof (dequeue_chain_end (S n) all (length xs) _ Hc' Hh' Hpos) as Hend.
  rewrite run_ops_app.
  change (map Enq all) with (Enq x0 :: map Enq xs).
  rewrite run_ops_Enq. cbn [fst snd].
  rewrite replicate_S_end, run_ops_app, run_ops_Deq. cbn [fst snd run_ops].
  rewrite Hend, Hd, He. cbn [fst snd].
  destruct (run_ops (map Enq xs) (enqueue (new (S n)) x0).2) as [[ds es] q].
  cbn [fst snd] in Hr |- *. injection Hr as -> ->.
  by rewrite !app_nil_r.
Qed.

Lemma enqueue_wraps (n : nat) (all : list T) (q : Queue T) (x : T) :
  enqueued_chain (S (S n)) all (S n) q -> head q = 0 ->
  (dequeue (enqueue q x).2).1 = None.
Proof.
  intros (Ht & Hidx & Hlen & Hlinks & Hlast) Hh.
  assert (Hi : N.to_nat (pool_index q mod N.of_nat (length (pool q)))%N = 0).
  { rewrite Hidx, Hlen, N.Div0.mod_same. done. }
  unfold dequeue, enqueue, get_node, set_next. simpl. rewrite Hi, Ht, Hh.
  rewrite list_lookup_total_alter_ne by lia.
  rewrite list_lookup_total_insert_eq by lia. done.
Qed.

(** One item more than the pool has nodes: all [pool_size + 1] calls of
    [enqueue] return [true], and the next [dequeue] reports the queue
    empty; the last [enqueue] took node 0, which [head] points to, and
    cut the list there. *)
Theorem queue_overflow_loses_all (n : nat) (x0 : T) (xs : list T) (x : T) :
  length xs = S n -> (N.of_nat (S (S n)) < 2 ^ 64)%N ->
  (run_ops (map Enq (x0 :: xs ++ [x]) ++ [Deq]) (new (S (S n)))).1
  = ([None], replicate (S (S (S n))) true).
Proof.
  intros Hlen Hn. pose (all := x0 :: xs).
  destruct (enqueue_first (S n) all x0) as [Hc0 Hh0].
  destruct (enqueue_all (S (S n)) all xs 0 (enqueue (new (S (S n))) x0).2 Hc0)
    as (Hr & Hc & Hh); [simpl; lia|done|by intros k y Hk|].
  rewrite Nat.add_0_l in Hc. rewrite Hh0 in Hh. rewrite Hlen in Hc, Hr.
  pose proof (enqueue_wraps n all _ x Hc Hh) as Hw.
  rewrite run_ops_app.
  change (map Enq (x0 :: xs ++ [x])) with (Enq x0 :: map Enq (xs ++ [x])).
  rewrite map_app, run_ops_Enq, run_ops_app.
  change (map Enq [x]) with [Enq x].
  rewrite run_ops_Enq, run_ops_Deq. cbn [fst snd run_ops].
  rewrite Hw.
  destruct (run_ops (map Enq xs) (enqueue (new (S (S n))) x0).2) as [[ds es] q].
  cbn [fst snd] in Hr |- *. injection Hr as -> ->.
  rewrite !app_nil_r.
  change (true :: replicate n true) with (replicate (S n) true).
  by rewrite <- replicate_S_end.
Qed.
End QueueOrder.

Lemma queue_fifo_but_first_witness :
  let a := make_pair 4 "a" in
  let b := make_pair 4 "b" in
  let c := make_pair 5 "c" in
  ([b; c] <> [] /\ S (length [b; c]) <= 8 /\ (N.of_nat 8 < 2 ^ 64)%N) /\
  (LockFreeQueue.run_ops
     (map LockFreeQueue.Enq (a :: [b; c])
      ++ replicate (S (length [b; c])) LockFreeQueue.Deq)
     (LockFreeQueue.new 8)).1
  = (map Some [b; c] ++ [None], replicate (S (length [b; c])) true).
Proof.
  intros a b c.
  assert (H1 : [b; c] <> []) by discriminate.
  assert (H2 : S (length [b; c]) <= 8) by (simpl; lia).
  assert (H3 : (N.of_nat 8 < 2 ^ 64)%N) by (vm_compute; reflexivity).
  split; [by repeat split|].
  exact (queue_fifo_but_first 8 a [b; c] H1 H2 H3).
Defined.

Lemma queue_overflow_loses_all_witness :
  let a := make_pair 4 "a" in
  let b := make_pair 4 "b" in
  let c := make_pair 5 "c" in
  (length [b] = 1 /\ (N.of_nat 2 < 2 ^ 64)%N) /\
  (LockFreeQueue.run_ops
     (map LockFreeQueue.Enq (a :: [b] ++ [c]) ++ [LockFreeQueue.Deq])
     (LockFreeQueue.new 2)).1
  = ([None], replicate 3 true).
Proof.
  intros a b c.
  assert (H3 : (N.of_nat 2 < 2 ^ 64)%N) by (vm_compute; reflexivity).
  split; [by split|].
  exact (queue_overflow_loses_all 0 a [b] c eq_refl H3).
Defined.

(** ** The client *)

Lemma pre_pass_member (its : list Interceptor) (i : nat) (request : string) (w : World) :
  In ValidationInterceptor its ->
  In ValidationInterceptor (pre_pass i its request w).1.1.2.
Proof.
  revert i request w. induction its as [|it rest IH]; intros i request w Hin; [done|].
  simpl. destruct (preProcess it request w) as [[[ok request'] it'] w'] eqn:E.
  destruct Hin as [->|Hin].
  - unfold preProcess in E. simpl in E. injection E as <- <- <- <-.
    destruct (ValidationInterceptor_preProcess request).
    + destruct (pre_pass (S i) rest request w) as [[[[b r''] rest'] w''] ev].
      by left.
    + by left.
  - destruct ok; [|by right].
    specialize (IH (S i) request' w' Hin).
    destruct (pre_pass (S i) rest request' w') as [[[[b r''] rest'] w''] ev].
    by right.
Qed.

Lemma post_pass_validation (its : list Interceptor) (i : nat)
    (request response0 : string) (w : World) :
  In ValidationInterceptor its ->
  (post_pass i its request response0 w).1.1.1 <> "".
Proof.
  revert i response0 w. induction its as [|it rest IH]; intros i response0 w Hin; [done|].
  simpl. destruct (postProcess it request response0 w) as [[response' it'] w'] eqn:E.
  destruct Hin as [->|Hin].
  - unfold postProcess in E. simpl in E. injection E as <- <- <-.
    assert (Hne : ValidationInterceptor_postProcess response0 <> "").
    { unfold ValidationInterceptor_postProcess. by destruct response0. }
    pose proof (post_pass_response rest (S i) request _ w Hne) as Hp.
    destruct (post_pass (S i) rest request
                (ValidationInterceptor_postProcess response0) w)
      as [[[r'' rest'] w''] ev].
    simpl in *. by subst r''.
  - specialize (IH (S i) response' w' Hin).
    by destruct (post_pass (S i) rest request response' w') as [[[r'' rest'] w''] ev].
Qed.

(** [SocketClient::sendRequest] with the interceptors of the repository:
    the descriptor of the client is left as it was; what is handed to
    [send] is the request, byte for byte, and only after every
    interceptor has accepted it; when nothing is sent the answer is one
    of the two local errors; a request without [TOKEN:] followed by the
    token of a registered authentication interceptor never leaves the
    client; and with a validation interceptor registered the answer is
    never the empty string, whatever the server sends. *)
Theorem SocketClient_sends_what_was_accepted `{StdSort}
    (c : SocketClient Interceptor) (net : Network) (request : string) (w : World) :
  let r := SocketClient_sendRequest c net request w in
  clientSocket (sent_client r) = clientSocket c /\
  (forall bytes, sent_bytes r = Some bytes ->
     bytes = request /\ (0 <= clientSocket c)%Z /\
     forall i, ~ In (EvPre i false) (sent_trace r)) /\
  (sent_bytes r = None ->
     sent_response r = "ERROR: Not connected to server" /\ sent_trace r = [] \/
     sent_response r = REJECTED /\ exists i, In (EvPre i false) (sent_trace r)) /\
  (forall validToken,
     In (AuthenticationInterceptor validToken) (client_interceptors c) ->
     Str.find ("TOKEN:" +:+ validToken) request = None ->
     sent_bytes r = None) /\
  (In ValidationInterceptor (client_interceptors c) -> sent_response r <> "").
Proof.
  unfold SocketClient_sendRequest.
  destruct (Z.ltb_spec (clientSocket c) 0) as [Hneg|Hpos].
  { simpl. repeat split; try done. - by left. }
  set (sorted := std_sort _ (client_interceptors c)).
  assert (Hperm : Permutation (client_interceptors c) sorted)
    by apply (std_sort_perm _ getPriority).
  pose proof (pre_pass_request sorted 0 request w) as Hreq.
  pose proof (pre_pass_trace sorted 0 request w) as Htr.
  assert (Hauth : forall validToken,
             In (AuthenticationInterceptor validToken) (client_interceptors c) ->
             Str.find ("TOKEN:" +:+ validToken) request = None ->
             (pre_pass 0 sorted request w).1.1.1.1 = false).
  { intros validToken Hin Hfind. apply (pre_pass_member_rejects _ validToken).
    - apply (Permutation_in _ Hperm), Hin.
    - destruct (AuthenticationInterceptor_preProcess validToken request) eqn:E; [|done].
      apply AuthenticationInterceptor_sound in E. congruence. }
  assert (Hval : In ValidationInterceptor (client_interceptors c) ->
                 In ValidationInterceptor (pre_pass 0 sorted request w).1.1.2).
  { intros Hin. apply pre_pass_member, (Permutation_in _ Hperm), Hin. }
  destruct (pre_pass 0 sorted request w) as [[[[ok request'] its1] w1] ev1].
  simpl in Hreq, Hauth, Hval. subst request'.
  destruct ok.
  - subst ev1.
    assert (Hsent : forall (r : Sent Interceptor),
               clientSocket (sent_client r) = clientSocket c ->
               sent_bytes r = Some request ->
               (exists l, sent_trace r
                          = map (fun j => EvPre j true) (seq 0 (length sorted))
                            ++ map EvPost l) ->
               (In ValidationInterceptor (client_interceptors c) ->
                sent_response r <> "") ->
               clientSocket (sent_client r) = clientSocket c /\
               (forall bytes, sent_bytes r = Some bytes ->
                  bytes = request /\ (0 <= clientSocket c)%Z /\
                  forall i, ~ In (EvPre i false) (sent_trace r)) /\
               (sent_bytes r = None ->
                  sent_response r = "ERROR: Not connected to server" /\ sent_trace r = [] \/
                  sent_response r = REJECTED /\ exists i, In (EvPre i false) (sent_trace r)) /\
               (forall validToken,
                  In (AuthenticationInterceptor validToken) (client_interceptors c) ->
                  Str.find ("TOKEN:" +:+ validToken) request = None ->
                  sent_bytes r = None) /\
               (In ValidationInterceptor (client_interceptors c) -> sent_response r <> "")).
    { intros r Hfd Hb (l & Hl) Hne. split; [done|]. split; [|split; [|split]].
      - intros bytes Hbytes. rewrite Hb in Hbytes. injection Hbytes as <-.
        split; [done|]. split; [lia|]. intros i. rewrite Hl, in_app_iff.
        intros [Hin|Hin]; [by apply not_In_pre_true in Hin|].
        apply in_map_iff in Hin as (j & [=] & _).
      - by rewrite Hb.
      - intros validToken Hin Hfind. by specialize (Hauth validToken Hin Hfind).
      - done. }
    destruct (net_send_ok net request).
    + destruct (net_recv net) as [bytes|].
      * destruct (Nat.ltb 0 (String.length (Str.take 1023 bytes))).
        -- pose proof (post_pass_trace its1 0 request (c_str (Str.take 1023 bytes)) w1)
             as Hpost.
           pose proof (fun Hin => post_pass_validation its1 0 request
                         (c_str (Str.take 1023 bytes)) w1 (Hval Hin)) as Hne.
           destruct (post_pass 0 its1 request (c_str (Str.take 1023 bytes)) w1)
             as [[[response' its3] w3] ev3].
           simpl in Hpost, Hne. subst ev3.
           apply Hsent; simpl; try done. by eexists.
        -- apply Hsent; simpl; try done.
           exists []. by rewrite app_nil_r.
      * apply Hsent; simpl; try done.
        exists []. by rewrite app_nil_r.
    + apply Hsent; simpl; try done.
      exists []. by rewrite app_nil_r.
  - destruct Htr as (k & Hk & ->). simpl.
    split; [done|]. split; [done|]. split; [|split]; try done.
    intros _. right. split; [done|]. exists k. rewrite in_app_iff. right. by left.
Qed.

(** ** The receive buffers *)

Lemma take_app_NUL (n : nat) (a b : string) :
  String.length a < n ->
  Str.take n (a +:+ String NUL b)
  = a +:+ String NUL (Str.take (n - S (String.length a)) b).
Proof.
  revert n. induction a as [|ch a IH]; intros n Hlen.
  - rewrite !append_nil. destruct n; [simpl in Hlen; lia|].
    simpl. by rewrite Nat.sub_0_r.
  - rewrite !append_cons. destruct n; [simpl in Hlen; lia|].
    simpl in Hlen |- *. rewrite IH by lia. done.
Qed.

Lemma c_str_app_NUL (a b : string) :
  ~ In NUL (list_ascii_of_string a) -> c_str (a +:+ String NUL b) = a.
Proof.
  induction a as [|ch a IH]; intros Hno.
  - by rewrite append_nil.
  - rewrite append_cons. simpl in Hno |- *.
    destruct (Ascii.eqb_spec ch NUL) as [->|Hne]; [by destruct Hno; left|].
    rewrite IH; [done|]. intros Hin. apply Hno. by right.
Qed.

Lemma c_str_no_NUL (a : string) :
  ~ In NUL (list_ascii_of_string a) -> c_str a = a.
Proof.
  induction a as [|ch a IH]; intros Hno; [done|]. simpl in Hno |- *.
  destruct (Ascii.eqb_spec ch NUL) as [->|Hne]; [by destruct Hno; left|].
  rewrite IH; [done|]. intros Hin. apply Hno. by right.
Qed.

Lemma take_no_NUL (n : nat) (a : string) :
  ~ In NUL (list_ascii_of_string a) ->
  ~ In NUL (list_ascii_of_string (Str.take n a)).
Proof.
  revert n. induction a as [|ch a IH]; intros n Hno; destruct n; simpl; auto.
  simpl in Hno. intros [Heq|Hin]; [apply Hno; by left|].
  apply (IH n); [|done]. intros Hin'. apply Hno. by right.
Qed.

Lemma length_app_NUL (a b : string) : 0 < String.length (a +:+ String NUL b).
Proof. rewrite length_append. simpl. lia. Qed.

(** What the servers make of the received bytes: the request ends at
    the first zero byte, the bytes after it are dropped, and a request
    without a zero byte is cut to the size of the buffer less one (1023
    bytes in [SocketServer::handleClient], 4095 in
    [HFTServer::handleClient]).  The socket server runs the request
    through [processRequest]; the HFT server puts it into the queue
    with the descriptor of the client and keeps the connection. *)
Theorem handleClient_request_ends_at_NUL `{StdSort} {I Sv : Type}
    `{IInterceptor I} `{IService Sv}
    (srv : Server I Sv) (w : World)
    (requestQueue : LockFreeQueue.Queue WorkItem) (clientSocket : Z)
    (a b : string) :
  ~ In NUL (list_ascii_of_string a) ->
  (String.length a < 1023 ->
   SocketServer_handleClient srv (Some (a +:+ String NUL b)) w
   = Some (SocketServer.processRequest srv a w)) /\
  (String.length a < 4095 ->
   HFTServer_handleClient requestQueue clientSocket (Some (a +:+ String NUL b))
   = ((LockFreeQueue.enqueue requestQueue (make_pair clientSocket a)).2, false)) /\
  (a <> "" ->
   SocketServer_handleClient srv (Some a) w
   = Some (SocketServer.processRequest srv (Str.take 1023 a) w) /\
   HFTServer_handleClient requestQueue clientSocket (Some a)
   = ((LockFreeQueue.enqueue requestQueue
         (make_pair clientSocket (Str.take 4095 a))).2, false)).
Proof.
  intros Hno. split; [|split].
  - intros Hlen. unfold SocketServer_handleClient.
    rewrite take_app_NUL by done.
    destruct (Nat.ltb_spec 0 (String.length
                (a +:+ String NUL (Str.take (1023 - S (String.length a)) b))))
      as [_|Hle]; [|pose proof (length_app_NUL a
                      (Str.take (1023 - S (String.length a)) b)); lia].
    by rewrite c_str_app_NUL.
  - intros Hlen. unfold HFTServer_handleClient.
    rewrite take_app_NUL by done.
    destruct (Nat.ltb_spec 0 (String.length
                (a +:+ String NUL (Str.take (4095 - S (String.length a)) b))))
      as [_|Hle]; [|pose proof (length_app_NUL a
                      (Str.take (4095 - S (String.length a)) b)); lia].
    by rewrite c_str_app_NUL.
  - intros Hne. destruct a as [|ch a]; [done|].
    unfold SocketServer_handleClient, HFTServer_handleClient.
    rewrite !c_str_no_NUL by by apply take_no_NUL.
    split; reflexivity.
Qed.

Lemma handleClient_request_ends_at_NUL_witness :
  let srv := hft_server "secret123" in
  let a := "TOKEN:secret123 ECHO Hi" in
  let b := "TOKEN:secret123 WRITE f x" in
  let q := LockFreeQueue.new 4 in
  (~ In NUL (list_ascii_of_string a) /\ String.length a < 4095) /\
  HFTServer_handleClient q 7 (Some (a +:+ String NUL b))
  = ((LockFreeQueue.enqueue q (make_pair 7 a)).2, false).
Proof.
  intros srv a b q.
  assert (Hno : ~ In NUL (list_ascii_of_string a)).
  { simpl. intros Hin. repeat (destruct Hin as [Hin|Hin]; [discriminate Hin|]). done. }
  assert (Hlen : String.length a < 4095) by (apply Nat.ltb_lt; vm_compute; reflexivity).
  split; [by split|].
  exact (proj1 (proj2 (handleClient_request_ends_at_NUL srv (quiet_world 0) q 7 a b Hno))
           Hlen).
Defined.

(** ** Metrics *)

Lemma record_latencies_snoc (m : Metrics) (ls : list Z) (l : Z) :
  record_latencies m (ls ++ [l]) = record_latency (record_latencies m ls) l.
Proof. unfold record_latencies. by rewrite fold_left_app. Qed.

Lemma sum_of_snoc (ls : list Z) (l : Z) : sum_of (ls ++ [l]) = (sum_of ls + l)%Z.
Proof. unfold sum_of. induction ls as [|x ls IH]; simpl; [lia|]. rewrite IH. lia. Qed.

Lemma sum_of_nonneg (ls : list Z) :
  Forall (fun l => (0 <= l)%Z) ls -> (0 <= sum_of ls)%Z.
Proof. unfold sum_of. induction 1; simpl; lia. Qed.

Lemma uint64_wrap_small (z : Z) : (0 <= z < 2 ^ 64)%Z -> uint64_wrap z = Z.to_N z.
Proof. intros Hz. unfold uint64_wrap. by rewrite Z.mod_small. Qed.

Lemma record_latencies_counts (m0 : Metrics) (ls : list Z) :
  Forall (fun l => (0 <= l)%Z) ls ->
  (Z.of_nat (length ls) < 2 ^ 64)%Z -> (sum_of ls < 2 ^ 64)%Z ->
  record_latencies (resetMetrics m0) ls
  = mkMetrics (N.of_nat (length ls)) (Z.to_N (sum_of ls)).
Proof.
  induction ls as [|l ls IH] using rev_ind; intros Hall Hlen Hsum; [done|].
  apply Forall_app in Hall as [Hall Hl]. apply Forall_inv in Hl.
  pose proof (sum_of_nonneg ls Hall) as Hnn.
  rewrite sum_of_snoc in Hsum |- *. rewrite length_app in Hlen |- *.
  simpl in Hlen |- *.
  rewrite record_latencies_snoc, IH by (auto; lia).
  unfold record_latency. simpl.
  rewrite !uint64_wrap_small by lia. f_equal; lia.
Qed.

(** From [resetMetrics] on, as long as the two 64-bit counters do not
    wrap and no latency is negative, [getTotalRequests] is the number of
    requests processed and [getAverageLatency] the mean of their
    latencies, rounded down; it is 0 when no request has been
    processed, and lies between the smallest and the largest latency
    otherwise. *)
Theorem getAverageLatency_is_mean (m0 : Metrics) (latencies : list Z) :
  Forall (fun l => (0 <= l)%Z) latencies ->
  (Z.of_nat (length latencies) < 2 ^ 64)%Z -> (sum_of latencies < 2 ^ 64)%Z ->
  let m := record_latencies (resetMetrics m0) latencies in
  getTotalRequests m = N.of_nat (length latencies) /\
  (latencies = [] -> getAverageLatency m = 0%N) /\
  (latencies <> [] ->
   Z.of_N (getAverageLatency m) = (sum_of latencies / Z.of_nat (length latencies))%Z) /\
  (forall lo hi, latencies <> [] ->
     Forall (fun l => (lo <= l <= hi)%Z) latencies ->
     (lo <= Z.of_N (getAverageLatency m) <= hi)%Z).
Proof.
  intros Hall Hlen Hsum m. unfold m.
  rewrite record_latencies_counts by done.
  pose proof (sum_of_nonneg latencies Hall) as Hnn.
  assert (Havg : latencies <> [] ->
            Z.of_N (getAverageLatency
                      (mkMetrics (N.of_nat (length latencies)) (Z.to_N (sum_of latencies))))
            = (sum_of latencies / Z.of_nat (length latencies))%Z).
  { intros Hne. unfold getAverageLatency. simpl.
    destruct (N.ltb_spec 0 (N.of_nat (length latencies))) as [Hpos|Hz].
    - rewrite N2Z.inj_div, Z2N.id, nat_N_Z by lia. done.
    - destruct latencies; [done|]. simpl in Hz. lia. }
  split; [done|]. split; [by intros ->|]. split; [exact Havg|].
  intros lo hi Hne Hb. rewrite (Havg Hne).
  assert (Hn : (0 < Z.of_nat (length latencies))%Z).
  { destruct latencies; [done|]. simpl. lia. }
  assert (Hs : (lo * Z.of_nat (length latencies) <= sum_of latencies
                <= hi * Z.of_nat (length latencies))%Z).
  { clear -Hb. unfold sum_of. induction Hb as [|l ls Hl _ IH]; [simpl; lia|].
    rewrite length_cons, Nat2Z.inj_succ. simpl. lia. }
  split.
  - apply Z.div_le_lower_bound; lia.
  - apply Z.div_le_upper_bound; [lia|]. lia.
Qed.

Lemma getAverageLatency_is_mean_witness :
  let latencies := [12; 7; 30]%Z in
  let m := record_latencies (resetMetrics (mkMetrics 5 900)) latencies in
  (Forall (fun l => (0 <= l)%Z) latencies /\
   (Z.of_nat (length latencies) < 2 ^ 64)%Z /\ (sum_of latencies < 2 ^ 64)%Z) /\
  getTotalRequests m = 3%N /\ Z.of_N (getAverageLatency m) = 16%Z.
Proof.
  intros latencies m.
  assert (H1 : Forall (fun l => (0 <= l)%Z) latencies)
    by (repeat constructor; lia).
  assert (H2 : (Z.of_nat (length latencies) < 2 ^ 64)%Z) by (simpl; lia).
  assert (H3 : (sum_of latencies < 2 ^ 64)%Z) by (simpl; lia).
  split; [by repeat split|].
  destruct (getAverageLatency_is_mean (mkMetrics 5 900) latencies H1 H2 H3)
    as (Hn & _ & Ha & _).
  split; [exact Hn|]. unfold m. rewrite Ha by discriminate. reflexivity.
Defined.

(** ** Starting and stopping *)

(** [SocketServer::start] that fails after [socket] succeeded (in
    [bind] or in [listen]) throws and leaves the server not running
    with the descriptor in [serverSocket]; [stop] then returns at once,
    so nothing closes the descriptor. *)
Theorem SocketServer_failed_start_keeps_socket_open (sys : Sys) (s : Lifecycle) :
  running s = false -> (0 <= sys_socket sys)%Z ->
  (sys_bind sys < 0 \/ sys_listen sys < 0)%Z ->
  let s' := (SocketServer_start sys s).2 in
  (exists e, (SocketServer_start sys s).1 = Throw e) /\
  serverSocket s' = sys_socket sys /\
  running s' = false /\
  SocketServer_stop s' = (s', []).
Proof.
  intros Hrun Hsock Hfail. unfold SocketServer_start. rewrite Hrun.
  destruct (Z.ltb_spec (sys_socket sys) 0) as [?|_]; [lia|].
  destruct (Z.ltb_spec (sys_bind sys) 0) as [?|Hb].
  - simpl. unfold SocketServer_stop. simpl. rewrite ?Hrun. simpl. by eauto.
  - destruct (Z.ltb_spec (sys_listen sys) 0) as [?|Hl]; [|lia].
    simpl. unfold SocketServer_stop. simpl. rewrite ?Hrun. simpl. by eauto.
Qed.

Lemma SocketServer_failed_start_keeps_socket_open_witness :
  let sys := mkSys 3 (-1) 0 4 0 in
  let s' := (SocketServer_start sys new_Lifecycle).2 in
  (running new_Lifecycle = false /\ (0 <= sys_socket sys)%Z /\
   (sys_bind sys < 0 \/ sys_listen sys < 0)%Z) /\
  serverSocket s' = 3%Z /\ SocketServer_stop s' = (s', []).
Proof.
  intros sys s'.
  assert (H1 : running new_Lifecycle = false) by reflexivity.
  assert (H2 : (0 <= sys_socket sys)%Z) by (simpl; lia).
  assert (H3 : (sys_bind sys < 0 \/ sys_listen sys < 0)%Z) by (left; simpl; lia).
  split; [by repeat split|].
  destruct (SocketServer_failed_start_keeps_socket_open sys new_Lifecycle H1 H2 H3)
    as (_ & Hs & _ & Hstop).
  split; [exact Hs|exact Hstop].
Defined.

(** [HFTServer::stop] after [HFTServer::start], whether [start] threw
    or not: every descriptor that [start] opened is closed, the threads
    that it created are joined, the server is back in the state its
    constructor leaves, and a second [stop] closes and joins nothing. *)
Theorem HFTServer_stop_releases (sys : Sys) :
  let s' := (HFTServer_start sys new_Lifecycle).2 in
  let ev := (HFTServer_stop s').2 in
  (HFTServer_stop s').1 = new_Lifecycle /\
  HFTServer_stop (HFTServer_stop s').1 = (new_Lifecycle, []) /\
  (sys_socket sys <> (-1)%Z -> In (SysClose (sys_socket sys)) ev) /\
  (epollFd s' <> (-1)%Z -> In (SysClose (epollFd s')) ev) /\
  ((HFTServer_start sys new_Lifecycle).1 = Ret tt ->
   ev = [SysClose (sys_epoll_create1 sys); SysClose (sys_socket sys)]
        ++ map SysJoin (seq 0 HFT_THREAD_POOL_SIZE)) /\
  (forall e, (HFTServer_start sys new_Lifecycle).1 = Throw e ->
   forall t, ~ In (SysJoin t) ev).
Proof.
  unfold HFTServer_start, HFTServer_stop.
  destruct (Z.eqb_spec (sys_socket sys) (-1)) as [Hs|Hs].
  { simpl. rewrite Hs. simpl. repeat split; try done. auto. }
  destruct (Z.eqb_spec (sys_bind sys) (-1)) as [Hb|Hb].
  { simpl. destruct (Z.eqb_spec (sys_socket sys) (-1)); [done|].
    simpl. repeat split; try done; auto. intros e _ t [Hin|Hin]; done. }
  destruct (Z.eqb_spec (sys_listen sys) (-1)) as [Hl|Hl].
  { simpl. destruct (Z.eqb_spec (sys_socket sys) (-1)); [done|].
    simpl. repeat split; try done; auto. intros e _ t [Hin|Hin]; done. }
  destruct (Z.eqb_spec (sys_epoll_create1 sys) (-1)) as [He|He].
  { simpl. rewrite He. destruct (Z.eqb_spec (sys_socket sys) (-1)); [done|].
    simpl. repeat split; try done; auto. intros e _ t [Hin|Hin]; done. }
  destruct (Z.eqb_spec (sys_epoll_ctl sys) (-1)) as [Hc|Hc].
  { simpl. destruct (Z.eqb_spec (sys_socket sys) (-1)); [done|].
    destruct (Z.eqb_spec (sys_epoll_create1 sys) (-1)); [done|].
    simpl. repeat split; try done; auto.
    intros e _ t [Hin|[Hin|Hin]]; done. }
  cbn [fst snd serverSocket epollFd running workerThreads new_Lifecycle].
  destruct (Z.eqb_spec (sys_socket sys) (-1)); [done|].
  destruct (Z.eqb_spec (sys_epoll_create1 sys) (-1)); [done|].
  cbn [fst snd length app]. split; [done|]. split; [done|].
  split; [intros _; right; by left|]. split; [intros _; by left|].
  split; [done|]. intros e [=].
Qed.
